(** * Campaign dispatch workflow (src/app/api/campaign/workflow/route.ts)

    A shallow embedding of the durable campaign workflow: the bulk claim
    (pending -> sending), the per-contact send pipeline, the bounded worker
    pool, the bulk result persister with its per-row fallback, the campaign
    counter update and the completion step.

    JavaScript objects built field by field ([update], [base]) are finite
    maps from column names to values; the [Set<string>] of claimed ids is a
    finite set; the worker pool is a step relation whose atomic steps are the
    synchronous segments between two [await]s.  Strings are the UTF-8 bytes
    of the JavaScript strings.  Every call of the store has its own fate
    (the claim, the bulk upsert, each per-row update, the metrics insert),
    and the [finally] block of the batch step is part of the step. *)

From stdpp Require Import gmap strings list fin_maps relations pretty.
From Stdlib Require Import ZArith NArith Lia.

Open Scope string_scope.
Open Scope list_scope.

(** ** JavaScript values *)

Module Js.

Inductive JsVal :=
| JUndefined
| JNull
| JBool (b : bool)
| JNum (n : Z)
| JStr (s : string).

#[global] Instance JsVal_eq_dec : EqDecision JsVal.
Proof. solve_decision. Defined.

Definition str_empty (s : string) : bool :=
  match s with EmptyString => true | String _ _ => false end.

(** [Boolean(v)]: the values the workflow meets are never NaN. *)
Definition truthy (v : JsVal) : bool :=
  match v with
  | JUndefined | JNull => false
  | JBool b => b
  | JNum n => negb (n =? 0)%Z
  | JStr s => negb (str_empty s)
  end.

(** [a || b] *)
Definition or (a b : JsVal) : JsVal := if truthy a then a else b.

(** [typeof v === 'number'], [typeof v === 'string'] *)
Definition is_number (v : JsVal) : bool :=
  match v with JNum _ => true | _ => false end.
Definition is_string (v : JsVal) : bool :=
  match v with JStr _ => true | _ => false end.

(** [String(v)] *)
Definition to_string (v : JsVal) : string :=
  match v with
  | JUndefined => "undefined"
  | JNull => "null"
  | JBool true => "true"
  | JBool false => "false"
  | JNum n => pretty n
  | JStr s => s
  end.

(** A string is the sequence of the UTF-8 bytes of the JavaScript string.
    The characters [String.prototype.trim] removes are the white space and
    line terminators of ECMAScript: TAB, LF, VT, FF, CR and SPACE (one byte),
    NBSP U+00A0 (two bytes), and U+1680, U+2000 to U+200A, U+2028, U+2029,
    U+202F, U+205F, U+3000 and U+FEFF (three bytes). *)
Definition ws1 (x : N) : bool := ((9 <=? x) && (x <=? 13) || (x =? 32))%N.

Definition ws2 (x y : N) : bool := ((x =? 194) && (y =? 160))%N.

Definition ws3 (x y z : N) : bool :=
  ((x =? 225) && (y =? 154) && (z =? 128)
   || (x =? 226) && (y =? 128)
      && ((128 <=? z) && (z <=? 138) || (z =? 168) || (z =? 169) || (z =? 175))
   || (x =? 226) && (y =? 129) && (z =? 159)
   || (x =? 227) && (y =? 128) && (z =? 128)
   || (x =? 239) && (y =? 187) && (z =? 191))%N.

(** The number of bytes of the white-space character [s] starts with, or 0
    if it starts with none. *)
Definition ws_len (s : string) : nat :=
  match s with
  | EmptyString => 0
  | String a s1 =>
      let x := Ascii.N_of_ascii a in
      if ws1 x then 1
      else
        match s1 with
        | EmptyString => 0
        | String b s2 =>
            let y := Ascii.N_of_ascii b in
            if ws2 x y then 2
            else
              match s2 with
              | EmptyString => 0
              | String c _ => if ws3 x y (Ascii.N_of_ascii c) then 3 else 0
              end
        end
  end.

(** [drop_ws skip s]: [s] without its first [skip] bytes and the white
    space that follows them. *)
Fixpoint drop_ws (skip : nat) (s : string) : string :=
  match s with
  | EmptyString => EmptyString
  | String _ s' =>
      match skip with
      | S k => drop_ws k s'
      | 0 =>
          match ws_len s with
          | 0 => s
          | S k => drop_ws k s'
          end
      end
  end.

Definition trim_start (s : string) : string := drop_ws 0 s.

(** The bytes of [s] up to its last character that is not white space. *)
Fixpoint trim_end (s : string) : string :=
  match s with
  | EmptyString => EmptyString
  | String a s' =>
      if str_empty (trim_start s) then EmptyString else String a (trim_end s')
  end.

Definition trim (s : string) : string := trim_end (trim_start s).

Fixpoint rev_onto (s acc : string) : string :=
  match s with
  | EmptyString => acc
  | String a s' => rev_onto s' (String a acc)
  end.

Definition rev (s : string) : string := rev_onto s EmptyString.

End Js.
Import Js.

(** A call that may throw.  [error instanceof Error] separates thrown
    [Error] objects, which carry a message, from any other thrown value. *)
Inductive Exn :=
| ExnError (message : string)
| ExnOther.

Inductive Fallible (A : Type) :=
| Ret (a : A)
| Throw (e : Exn).
Arguments Ret {A} a.
Arguments Throw {A} e.

Definition bindF {A B} (m : Fallible A) (k : A -> Fallible B) : Fallible B :=
  match m with
  | Ret a => k a
  | Throw e => Throw e
  end.

#[global] Instance Fallible_ret : MRet Fallible := @Ret.
#[global] Instance Fallible_bind : MBind Fallible := fun A B k m => bindF m k.

(** ** Data model *)

(** [interface Contact].  The payload is JSON, so [contactId] may be absent
    ([None]); [custom_fields] is only handed on to the template pre-check. *)
Record Contact := mkContact {
  contactId : option string;
  phone : string;
  name : string;
  email : option string;
}.

(** [String(c.contactId)] *)
Definition contactId_String (c : Contact) : string :=
  match contactId c with
  | Some s => s
  | None => "undefined"
  end.

(** [String(c.contactId || '').trim()], on the [contactId] of an object. *)
Definition contactId_key (cid : option string) : string :=
  match cid with
  | Some s => trim s
  | None => EmptyString
  end.

Inductive Outcome := sent | failed | skipped.

#[global] Instance Outcome_eq_dec : EqDecision Outcome.
Proof. solve_decision. Defined.

Definition Outcome_str (o : Outcome) : string :=
  match o with
  | sent => "sent"
  | failed => "failed"
  | skipped => "skipped"
  end.

(** A row of [campaign_contacts] (or a JavaScript object holding some of its
    columns): column name to value.  A column missing from a stored row is
    NULL. *)
Abbreviation Row := (gmap string JsVal).

Definition col (r : Row) (k : string) : JsVal := default JNull (r !! k).

Inductive CampaignStatus := DRAFT | SCHEDULED | SENDING | PAUSED | COMPLETED | FAILED.

#[global] Instance CampaignStatus_eq_dec : EqDecision CampaignStatus.
Proof. solve_decision. Defined.

(** The campaign as [campaignDb.getById] returns it. *)
Record Campaign := mkCampaign {
  status : CampaignStatus;
  recipients : Z;
  c_sent : Z;
  c_failed : Z;
  c_skipped : Z;
  startedAt : option string;
  firstDispatchAt : option string;
  lastSentAt : option string;
  completedAt : option string;
}.

(** The store, for the campaign at hand ([.eq('campaign_id', campaignId)]):
    its row of [campaigns], its rows of [campaign_contacts] by [contact_id]
    and the rows of [campaign_batch_metrics] in the order of insertion.
    Every kind of call has its own fate, so that a write can fail after a
    claim that succeeded: whether the claim query is answered ([db_up]),
    whether the bulk upsert is accepted, whether the update of the row of a
    contact id succeeds, and whether the insert of a metrics row does. *)
Record Db := mkDb {
  db_up : bool;
  db_upsert_ok : bool;
  campaign : option Campaign;
  campaign_contacts : gmap string Row;
  db_update_ok : string -> bool;
  db_metrics_ok : bool;
  campaign_batch_metrics : list (gmap string Z);
}.

Definition set_contacts (t : gmap string Row) (db : Db) : Db :=
  mkDb (db_up db) (db_upsert_ok db) (campaign db) t
       (db_update_ok db) (db_metrics_ok db) (campaign_batch_metrics db).

Definition set_campaign (c : option Campaign) (db : Db) : Db :=
  mkDb (db_up db) (db_upsert_ok db) c (campaign_contacts db)
       (db_update_ok db) (db_metrics_ok db) (campaign_batch_metrics db).

Definition set_metrics (m : list (gmap string Z)) (db : Db) : Db :=
  mkDb (db_up db) (db_upsert_ok db) (campaign db) (campaign_contacts db)
       (db_update_ok db) (db_metrics_ok db) m.

(** What a Supabase query resolves to: [{ data, error }]. *)
Inductive QueryResult (A : Type) :=
| QData (data : A)
| QError (message : string).
Arguments QData {A} data.
Arguments QError {A} message.

(** ** Idempotent claim service *)

Record ClaimResult := mkClaimResult {
  claimedAt : option string;
  claimedIds : gset string;
}.

(** The distinct, trimmed, non-empty ids the claim asks for. *)
Definition claim_ids (contacts : list (option string)) : list string :=
  remove_dups (filter (fun s => str_empty s = false) (contactId_key <$> contacts)).

Definition is_pending (r : Row) : bool :=
  bool_decide (col r "status" = JStr "pending").

(** [.update({ status: 'sending', sending_at: now, trace_id: traceId || null })] *)
Definition claim_update (now : string) (traceId : JsVal) (r : Row) : Row :=
  <["status" := JStr "sending"]>
    (<["sending_at" := JStr now]> (<["trace_id" := Js.or traceId JNull]> r)).

(** The conditional update
    [.eq('status', 'pending').in('contact_id', ids).select('contact_id')]:
    the rows it changed, or the error of a store that does not answer. *)
Definition db_claim (db : Db) (ids : list string) (now : string) (traceId : JsVal)
  : QueryResult (list string) * Db :=
  if db_up db then
    let hit :=
      filter (fun id => from_option is_pending false (campaign_contacts db !! id) = true) ids in
    (QData hit,
     set_contacts (foldr (fun id t => alter (claim_update now traceId) id t)
                         (campaign_contacts db) hit) db)
  else (QError "store unavailable", db).

Definition bulkClaimPendingForSend
    (db : Db) (contacts : list (option string)) (traceId : JsVal) (now : string)
  : ClaimResult * Db :=
  match claim_ids contacts with
  | [] => (mkClaimResult None ∅, db)
  | ids =>
      match db_claim db ids now traceId with
      | (QError _, db') => (mkClaimResult None ∅, db')
      | (QData data, db') =>
          let claimed : gset string := list_to_set data in
          (mkClaimResult (if decide (claimed = ∅) then None else Some now) claimed, db')
      end
  end.

(** ** Per-contact pipeline *)

(** [ContactWriteOpts]; a field that is not given is [JUndefined]. *)
Record ContactWriteOpts := mkOpts {
  sendingAt : JsVal;
  messageId : JsVal;
  error : JsVal;
  errorCode : JsVal;
  errorTitle : JsVal;
  errorDetails : JsVal;
  errorFbtraceId : JsVal;
  errorSubcode : JsVal;
  errorHref : JsVal;
  skipCode : JsVal;
  skipReason : JsVal;
  traceId : JsVal;
}.

(** [PendingWriteOp] *)
Record PendingWriteOp := mkWriteOp {
  wo_contact : Contact;
  wo_status : Outcome;
  wo_opts : ContactWriteOpts;
}.

(** [data.error] of a Graph API answer; a missing field is [JUndefined]. *)
Record MetaError := mkMetaError {
  e_code : JsVal;
  e_type : JsVal;
  e_message : JsVal;
  e_error_user_title : JsVal;
  e_error_user_msg : JsVal;
  e_details : JsVal;           (* error_data?.details *)
  e_fbtrace_id : JsVal;
  e_error_subcode : JsVal;
  e_href : JsVal;
}.

(** The parsed body: [messages] holds the [id] of each entry. *)
Record Body := mkBody {
  messages : list JsVal;
  body_error : option MetaError;
}.

(** [response] and [data = await response.json()]; [data] may be [null]. *)
Record Response := mkResponse {
  resp_ok : bool;
  resp_status : Z;
  resp_data : option Body;
}.

(** [precheckContactForTemplate] answers [{ ok: true, normalizedPhone, values }]
    or [{ ok: false, skipCode, reason }]. *)
Inductive Precheck :=
| PrecheckPass (normalizedPhone : string)
| PrecheckSkip (skipCode reason : string).

(** The collaborators of a batch, fixed for the batch: [template-contract],
    [rate-limiter], [whatsapp-adaptive-throttle], [whatsapp-errors], the
    Graph API, the opt-out and suppression sets loaded at batch start, and
    the clock. *)
Record Collab := mkCollab {
  adaptiveEnabled : bool;
  limiter_acquire : Contact -> Fallible unit;
  precheckContactForTemplate : Contact -> Fallible Precheck;
  optOutContactIds : gset string;
  suppressionsByPhone : gmap string JsVal;       (* phone to [reason] *)
  buildMetaTemplatePayload : Contact -> string -> Fallible unit;
  meta_fetch : Contact -> string -> Fallible Response;
  getUserFriendlyMessageForMetaError : JsVal -> JsVal -> JsVal -> JsVal -> string;
  recordThroughputExceeded : Fallible unit;
  normalizeMetaErrorTextForStorage : string -> nat -> JsVal;
  Date_parse : string -> option Z;               (* [None] is NaN *)
  now_iso : string;                              (* [new Date().toISOString()] *)
  run_traceId : string;
}.

(** The variables of a batch step that the workers share, with two ghost
    logs: the requests issued to the Graph API and the number of calls of
    [recordThroughputExceeded]. *)
Record Batch := mkBatch {
  writeOps : list PendingWriteOp;
  sentCount : nat;
  failedCount : nat;
  skippedCount : nat;
  sawThroughput429 : bool;
  lastSentAtInBatch : option string;
  metaCalls : list Contact;
  throttleDecreases : nat;
}.

Definition batch0 : Batch := mkBatch [] 0 0 0 false None [] 0.

(** [data.messages?.[0]?.id] *)
Definition first_message_id (d : Body) : JsVal :=
  match messages d with
  | [] => JUndefined
  | id :: _ => id
  end.

(** [data.error?.f] *)
Definition err_field (d : Body) (f : MetaError -> JsVal) : JsVal :=
  match body_error d with
  | Some e => f e
  | None => JUndefined
  end.

(** What the first part of [processContact] decides before any request
    (lines 486-612). *)
Inductive Guarded :=
| GReturn                                   (* not claimed: plain [return] *)
| GSkip (skipCode reason : string)
| GSend (normalizedPhone : string).

Definition guard_phase (env : Collab) (claimed : gset string) (c : Contact)
  : Fallible Guarded :=
  if negb (bool_decide (contactId_String c ∈ claimed)) then Ret GReturn
  else
    _ ← (if adaptiveEnabled env then limiter_acquire env c else Ret ());
    pre ← precheckContactForTemplate env c;
    match pre with
    | PrecheckSkip code reason => Ret (GSkip code reason)
    | PrecheckPass np =>
        if bool_decide (contactId_String c ∈ optOutContactIds env)
        then Ret (GSkip "OPT_OUT" "Contato opt-out (não quer receber mensagens).")
        else
          match suppressionsByPhone env !! np with
          | Some reason =>
              Ret (GSkip "SUPPRESSED"
                     ("Telefone suprimido globalmente" +:+
                      (if truthy reason then ": " +:+ Js.to_string reason else EmptyString)))
          | None =>
              _ ← buildMetaTemplatePayload env c np;
              Ret (GSend np)
          end
    end.

(** The two branches of [if (response.ok && data.messages?.[0]?.id)]. *)
Inductive Classified :=
| CSent (messageId : JsVal)
| CFailed (d : Body).

(** Reading [data.messages], or [data.error] when the response is not ok,
    of a [null] body throws a [TypeError]. *)
Definition classify (r : Response) : Fallible Classified :=
  match resp_data r with
  | None =>
      Throw (ExnError (if resp_ok r
                       then "Cannot read properties of null (reading 'messages')"
                       else "Cannot read properties of null (reading 'error')"))
  | Some d =>
      if resp_ok r && truthy (first_message_id d)
      then Ret (CSent (first_message_id d))
      else Ret (CFailed d)
  end.

(** [const errorCode = data.error?.code || 0] *)
Definition errorCode_of (d : Body) : JsVal := Js.or (err_field d e_code) (JNum 0).

Definition sent_op (env : Collab) (c : Contact) (id : JsVal) : PendingWriteOp :=
  mkWriteOp c sent
    (mkOpts (JStr (now_iso env)) id JUndefined JUndefined JUndefined JUndefined
            JUndefined JUndefined JUndefined JUndefined JUndefined
            (JStr (run_traceId env))).

Definition skipped_op (env : Collab) (c : Contact) (code reason : string)
  : PendingWriteOp :=
  mkWriteOp c skipped
    (mkOpts (JStr (now_iso env)) JUndefined JUndefined JUndefined JUndefined
            JUndefined JUndefined JUndefined JUndefined (JStr code) (JStr reason)
            (JStr (run_traceId env))).

(** The [else] branch, lines 692-775. *)
Definition failed_op (env : Collab) (c : Contact) (d : Body) : PendingWriteOp :=
  let errorCode := errorCode_of d in
  let metaTitle :=
    Js.or (Js.or (err_field d e_error_user_title) (err_field d e_type)) (JStr EmptyString) in
  let metaMessage :=
    Js.or (Js.or (err_field d e_error_user_msg) (err_field d e_message))
          (JStr "Unknown error") in
  let metaDetails := Js.or (err_field d e_details) (JStr EmptyString) in
  let metaFbtraceId := Js.or (err_field d e_fbtrace_id) (JStr EmptyString) in
  let metaSubcode :=
    if is_number (err_field d e_error_subcode) then err_field d e_error_subcode
    else JUndefined in
  let metaHref := Js.or (err_field d e_href) (JStr EmptyString) in
  let translatedError :=
    getUserFriendlyMessageForMetaError env errorCode metaTitle metaMessage metaDetails in
  let errorWithCode := "(#" +:+ Js.to_string errorCode +:+ ") " +:+ translatedError in
  mkWriteOp c failed
    (mkOpts (JStr (now_iso env)) JUndefined (JStr errorWithCode) errorCode
            (Js.or metaTitle JUndefined)
            (Js.or (Js.or metaDetails metaMessage) JUndefined)
            (Js.or metaFbtraceId JUndefined)
            metaSubcode
            (Js.or metaHref JUndefined)
            JUndefined JUndefined (JStr (run_traceId env))).

(** [error instanceof Error ? error.message : 'Erro desconhecido'] *)
Definition errorMsg_of (e : Exn) : string :=
  match e with
  | ExnError m => m
  | ExnOther => "Erro desconhecido"
  end.

(** The [catch] of [processContact], lines 823-855. *)
Definition exception_op (env : Collab) (c : Contact) (e : Exn) : PendingWriteOp :=
  mkWriteOp c failed
    (mkOpts (JStr (now_iso env)) JUndefined (JStr (errorMsg_of e)) JUndefined
            (JStr "Contact exception") (JStr (errorMsg_of e)) JUndefined
            JUndefined JUndefined JUndefined JUndefined (JStr (run_traceId env))).

Definition log_metaCall (c : Contact) (b : Batch) : Batch :=
  mkBatch (writeOps b) (sentCount b) (failedCount b) (skippedCount b)
          (sawThroughput429 b) (lastSentAtInBatch b) (metaCalls b ++ [c])
          (throttleDecreases b).

(** [sawThroughput429 = true] followed by the call of
    [recordThroughputExceeded]. *)
Definition mark_throughput429 (b : Batch) : Batch :=
  mkBatch (writeOps b) (sentCount b) (failedCount b) (skippedCount b)
          true (lastSentAtInBatch b) (metaCalls b) (S (throttleDecreases b)).

(** [pushWriteOp(op)] with the counter of its status, and
    [lastSentAtInBatch] on a send. *)
Definition pushWriteOp (env : Collab) (op : PendingWriteOp) (b : Batch) : Batch :=
  match wo_status op with
  | sent =>
      mkBatch (writeOps b ++ [op]) (S (sentCount b)) (failedCount b) (skippedCount b)
              (sawThroughput429 b) (Some (now_iso env)) (metaCalls b)
              (throttleDecreases b)
  | failed =>
      mkBatch (writeOps b ++ [op]) (sentCount b) (S (failedCount b)) (skippedCount b)
              (sawThroughput429 b) (lastSentAtInBatch b) (metaCalls b)
              (throttleDecreases b)
  | skipped =>
      mkBatch (writeOps b ++ [op]) (sentCount b) (failedCount b) (S (skippedCount b))
              (sawThroughput429 b) (lastSentAtInBatch b) (metaCalls b)
              (throttleDecreases b)
  end.

(** [errorCode === 130429] *)
Definition is_throughput_code (v : JsVal) : bool := bool_decide (v = JNum 130429).

(** [processContact] up to the point where its outcome is known: the guard,
    the request, the classification and the throttle feedback.  The flag
    [sawThroughput429] is read and set in one synchronous segment, before
    the [await] of [recordThroughputExceeded]. *)
Definition attempt (env : Collab) (claimed : gset string) (c : Contact) (b : Batch)
  : Batch * option PendingWriteOp :=
  match guard_phase env claimed c with
  | Throw e => (b, Some (exception_op env c e))
  | Ret GReturn => (b, None)
  | Ret (GSkip code reason) => (b, Some (skipped_op env c code reason))
  | Ret (GSend np) =>
      let b1 := log_metaCall c b in
      match r ← meta_fetch env c np; classify r with
      | Throw e => (b1, Some (exception_op env c e))
      | Ret (CSent id) => (b1, Some (sent_op env c id))
      | Ret (CFailed d) =>
          if adaptiveEnabled env && is_throughput_code (errorCode_of d)
             && negb (sawThroughput429 b1)
          then
            let b2 := mark_throughput429 b1 in
            match recordThroughputExceeded env with
            | Throw e => (b2, Some (exception_op env c e))
            | Ret _ => (b2, Some (failed_op env c d))
            end
          else (b1, Some (failed_op env c d))
      end
  end.

(** The rest of [processContact]: the outcome is pushed and counted.  What
    runs in between ([emitWorkflowTrace], [progress.bump], the best-effort
    auto-suppression inside its own [try]) only publishes and does not throw,
    so nothing is pushed twice. *)
Definition commit (env : Collab) (p : option PendingWriteOp) (b : Batch) : Batch :=
  match p with
  | None => b
  | Some op => pushWriteOp env op b
  end.

(** [processContact] run without interruption. *)
Definition processContact (env : Collab) (claimed : gset string) (c : Contact)
    (b : Batch) : Batch :=
  let '(b', p) := attempt env claimed c b in commit env p b'.

(** ** Bounded worker pool *)

(** [Math.max(1, Math.min(50, Math.floor(rawConcurrency)))], or 1 when the
    setting is not a finite number. *)
Definition concurrency_of (rawConcurrency : option Z) : nat :=
  match rawConcurrency with
  | Some n => Z.to_nat (Z.max 1 (Z.min 50 n))
  | None => 1
  end.

(** [const workerCount = Math.min(concurrency, batch.length)] *)
Definition workerCount (concurrency : nat) (batch : list Contact) : nat :=
  Nat.min concurrency (length batch).

(** Where a worker stands in its loop
    [idx = nextIndex; nextIndex += 1; if (idx >= batch.length) return;
     await processContact(batch[idx])]. *)
Inductive Worker :=
| WIdle                                          (* at the head of the loop *)
| WHold (idx : nat) (c : Contact)                (* entered [processContact] *)
| WCommit (idx : nat) (p : option PendingWriteOp) (* outcome known, not yet recorded *)
| WDone.                                         (* returned *)

(** The pool: the shared cursor, the workers, the shared batch variables and
    a ghost log of which worker took which index. *)
Record Pool := mkPool {
  nextIndex : nat;
  workers : list Worker;
  shared : Batch;
  pulls : list (nat * nat);
}.

Definition pool_init (concurrency : nat) (batch : list Contact) : Pool :=
  mkPool 0 (replicate (workerCount concurrency batch) WIdle) batch0 [].

Section PoolSteps.
Variable env : Collab.
Variable claimed : gset string.
Variable batch : list Contact.

(** One turn of worker [w], from one [await] to the next. *)
Definition worker_turn (w : nat) (p : Pool) : option Pool :=
  match workers p !! w with
  | Some WIdle =>
      let idx := nextIndex p in
      match batch !! idx with
      | None =>
          Some (mkPool (S idx) (<[w := WDone]> (workers p)) (shared p) (pulls p))
      | Some c =>
          Some (mkPool (S idx) (<[w := WHold idx c]> (workers p)) (shared p)
                       (pulls p ++ [(w, idx)]))
      end
  | Some (WHold idx c) =>
      let '(b', r) := attempt env claimed c (shared p) in
      Some (mkPool (nextIndex p) (<[w := WCommit idx r]> (workers p)) b' (pulls p))
  | Some (WCommit idx r) =>
      Some (mkPool (nextIndex p) (<[w := WIdle]> (workers p))
                   (commit env r (shared p)) (pulls p))
  | Some WDone => None
  | None => None
  end.

(** Any worker that has not returned may take the next turn. *)
Definition pool_step (p q : Pool) : Prop :=
  exists w, worker_turn w p = Some q.

Definition all_done (p : Pool) : Prop := Forall (fun w => w = WDone) (workers p).

(** [await Promise.allSettled(workers)]: some interleaving of the workers
    that ends with all of them returned. *)
Definition pool_runs (concurrency : nat) (final : Pool) : Prop :=
  rtc pool_step (pool_init concurrency batch) final /\ all_done final.

(** A scheduler: the first worker that has not returned takes a turn. *)
Definition is_done (w : Worker) : bool :=
  match w with WDone => true | _ => false end.

Fixpoint first_live (ws : list Worker) (i : nat) : option nat :=
  match ws with
  | [] => None
  | w :: ws' => if is_done w then first_live ws' (S i) else Some i
  end.

Definition sched (p : Pool) : option Pool :=
  match first_live (workers p) 0 with
  | Some w => worker_turn w p
  | None => None
  end.

Fixpoint run_sched (fuel : nat) (p : Pool) : Pool :=
  match fuel with
  | 0 => p
  | S fuel' =>
      match sched p with
      | Some q => run_sched fuel' q
      | None => p
      end
  end.

Definition worker_weight (w : Worker) : nat :=
  match w with
  | WDone => 0
  | WIdle => 1
  | WCommit _ _ => 2
  | WHold _ _ => 3
  end.

(** Turns left before every worker has returned. *)
Definition pool_measure (p : Pool) : nat :=
  3 * (length batch - nextIndex p) + sum_list_with worker_weight (workers p).

Definition run_pool (concurrency : nat) : Pool :=
  let p0 := pool_init concurrency batch in
  run_sched (pool_measure p0) p0.

End PoolSteps.

(** ** Bulk result persister *)

(** Assignments [base.k = v], some of them guarded, applied in order. *)
Definition assign (k : string) (v : JsVal) : option (string * JsVal) := Some (k, v).

Definition assign_if (b : bool) (k : string) (v : JsVal) : option (string * JsVal) :=
  if b then Some (k, v) else None.

Definition assign_all (l : list (option (string * JsVal))) (base : Row) : Row :=
  foldl (fun r kv => match kv with Some (k, v) => <[k := v]> r | None => r end) base l.

(** [normalizeMetaErrorTextForStorage(v, max)] on a value known to be a string. *)
Definition normalized (env : Collab) (v : JsVal) (max : nat) : JsVal :=
  match v with
  | JStr s => normalizeMetaErrorTextForStorage env s max
  | _ => JNull
  end.

(** [typeof v === 'string' && String(v).trim()] *)
Definition is_nonblank_string (v : JsVal) : bool :=
  match v with
  | JStr s => negb (str_empty (trim s))
  | _ => false
  end.

(** One element of [upsertRows], lines 887-960. *)
Definition upsert_row (env : Collab) (campaignId : string) (op : PendingWriteOp) : Row :=
  let o := wo_opts op in
  let base : Row :=
    assign_all
      [ assign "campaign_id" (JStr campaignId);
        assign "contact_id" (JStr (contactId_String (wo_contact op)));
        assign "trace_id" (JStr (run_traceId env));
        assign "status" (JStr (Outcome_str (wo_status op)));
        assign "sending_at" (Js.or (sendingAt o) JNull) ] ∅ in
  match wo_status op with
  | sent =>
      assign_all
        [ assign "sent_at" (JStr (now_iso env));
          assign "failed_at" JNull;
          assign "skipped_at" JNull;
          assign "message_id" (Js.or (messageId o) JNull);
          assign "error" JNull;
          assign "skip_code" JNull;
          assign "skip_reason" JNull;
          assign "failure_code" JNull;
          assign "failure_reason" JNull;
          assign "failure_title" JNull;
          assign "failure_details" JNull;
          assign "failure_fbtrace_id" JNull;
          assign "failure_subcode" JNull;
          assign "failure_href" JNull ] base
  | skipped =>
      assign_all
        [ assign "skipped_at" (JStr (now_iso env));
          assign "sent_at" JNull;
          assign "failed_at" JNull;
          assign "message_id" JNull;
          assign "error" JNull;
          assign "skip_code" (Js.or (skipCode o) JNull);
          assign "skip_reason" (Js.or (Js.or (skipReason o) (error o)) JNull);
          assign "failure_code" JNull;
          assign "failure_reason" JNull;
          assign "failure_title" JNull;
          assign "failure_details" JNull;
          assign "failure_fbtrace_id" JNull;
          assign "failure_subcode" JNull;
          assign "failure_href" JNull ] base
  | failed =>
      assign_all
        [ assign "failed_at" (JStr (now_iso env));
          assign "sent_at" JNull;
          assign "skipped_at" JNull;
          assign "message_id" JNull;
          assign "error" (Js.or (error o) JNull);
          assign_if (is_number (errorCode o)) "failure_code" (errorCode o);
          assign_if (is_string (errorTitle o)) "failure_title"
                    (normalized env (errorTitle o) 200);
          assign_if (is_string (errorDetails o)) "failure_details"
                    (normalized env (errorDetails o) 800);
          assign_if (is_string (errorFbtraceId o)) "failure_fbtrace_id"
                    (normalized env (errorFbtraceId o) 200);
          assign_if (is_number (errorSubcode o)) "failure_subcode" (errorSubcode o);
          assign_if (is_string (errorHref o)) "failure_href"
                    (normalized env (errorHref o) 400);
          assign_if (is_nonblank_string (error o)) "failure_reason" (error o);
          assign "skip_code" JNull;
          assign "skip_reason" JNull ] base
  end.

(** The object [update] that [updateContactStatus] builds, lines 146-189. *)
Definition status_update (env : Collab) (st : Outcome) (o : ContactWriteOpts) : Row :=
  let update : Row :=
    assign_all
      [ assign "status" (JStr (Outcome_str st));
        assign_if (truthy (traceId o)) "trace_id" (traceId o) ] ∅ in
  let update :=
    if decide (st = sent) then
      assign_all
        [ assign "sent_at" (JStr (now_iso env));
          assign "message_id" (Js.or (messageId o) JNull);
          assign "error" JNull;
          assign "skip_code" JNull;
          assign "skip_reason" JNull;
          assign "skipped_at" JNull ] update
    else update in
  let update :=
    if decide (st = failed) then
      assign_all
        [ assign "failed_at" (JStr (now_iso env));
          assign "error" (Js.or (error o) JNull);
          assign_if (is_number (errorCode o)) "failure_code" (errorCode o);
          assign_if (is_string (errorTitle o)) "failure_title"
                    (normalized env (errorTitle o) 200);
          assign_if (is_string (errorDetails o)) "failure_details"
                    (normalized env (errorDetails o) 800);
          assign_if (is_string (errorFbtraceId o)) "failure_fbtrace_id"
                    (normalized env (errorFbtraceId o) 200);
          assign_if (is_number (errorSubcode o)) "failure_subcode" (errorSubcode o);
          assign_if (is_string (errorHref o)) "failure_href"
                    (normalized env (errorHref o) 400);
          assign_if (is_nonblank_string (error o)) "failure_reason" (error o) ] update
    else update in
  if decide (st = skipped) then
    assign_all
      [ assign "skipped_at" (JStr (now_iso env));
        assign "skip_code" (Js.or (skipCode o) JNull);
        assign "skip_reason" (Js.or (Js.or (skipReason o) (error o)) JNull);
        assign "error" JNull;
        assign "message_id" JNull ] update
  else update.

(** A stored row after [UPDATE ... SET update]: the columns of [update]
    replace the stored ones, the others stay. *)
Definition apply_update (update old : Row) : Row := update ∪ old.

(** [updateContactStatus]: the update of the row with this [contact_id]; an
    update that fails leaves the row as it is, and the error is only logged
    (lines 191-200). *)
Definition updateContactStatus (env : Collab) (db : Db) (cid : string)
    (st : Outcome) (o : ContactWriteOpts) : Db :=
  if db_update_ok db cid
  then set_contacts (alter (apply_update (status_update env st o)) cid
                           (campaign_contacts db)) db
  else db.

(** [.upsert(upsertRows, { onConflict: 'campaign_id,contact_id' })]: every
    row is inserted, or on conflict its columns replace the stored ones. *)
Definition db_upsert (db : Db) (rows : list Row) : QueryResult unit * Db :=
  if db_upsert_ok db then
    (QData (),
     set_contacts
       (foldl (fun t r =>
                 let cid := Js.to_string (col r "contact_id") in
                 <[cid := apply_update r (default ∅ (t !! cid))]> t)
              (campaign_contacts db) rows) db)
  else (QError "bulk upsert failed", db).

(** Lines 886-1008: one bulk upsert, and on its failure one update per
    outcome. *)
Definition persist (env : Collab) (campaignId : string) (db : Db)
    (ops : list PendingWriteOp) : Db :=
  match ops with
  | [] => db
  | _ =>
      match db_upsert db (upsert_row env campaignId <$> ops) with
      | (QData _, db') => db'
      | (QError _, db') =>
          foldl (fun d op =>
                   updateContactStatus env d (contactId_String (wo_contact op))
                                       (wo_status op) (wo_opts op))
                db' ops
      end
  end.

(** ** Campaign counters and completion *)

(** [s || null] on a stored timestamp: the empty string counts as not set. *)
Definition or_null (s : option string) : option string :=
  match s with
  | Some t => if str_empty t then None else Some t
  | None => None
  end.

(** [a || b] on two optional strings. *)
Definition or_else (a b : option string) : option string :=
  match or_null a with
  | Some t => Some t
  | None => b
  end.

(** [safeLastSentAt], lines 1164-1173. *)
Definition safeLastSentAt (parse : string -> option Z)
    (stored inBatch : option string) : option string :=
  let existing := or_null stored in
  let candidate := or_null inBatch in
  match candidate, existing with
  | None, _ => existing
  | Some _, None => candidate
  | Some cand, Some ex =>
      match parse ex, parse cand with
      | Some a, Some b => if (b >? a)%Z then candidate else existing
      | _, _ => or_else existing candidate
      end
  end.

(** [db_update_campaign_counters], lines 1158-1186. *)
Definition update_campaign_counters (env : Collab) (db : Db)
    (firstDispatchAtInBatch : option string) (b : Batch) : Db :=
  match campaign db with
  | None => db
  | Some c =>
      set_campaign
        (Some (mkCampaign (status c) (recipients c)
                 (c_sent c + Z.of_nat (sentCount b))
                 (c_failed c + Z.of_nat (failedCount b))
                 (c_skipped c + Z.of_nat (skippedCount b))
                 (startedAt c)
                 (or_else (firstDispatchAt c) (or_null firstDispatchAtInBatch))
                 (safeLastSentAt (Date_parse env) (lastSentAt c) (lastSentAtInBatch b))
                 (completedAt c)))
        db
  end.

(** The status the completion step computes, lines 1199-1202. *)
Definition finalStatus (camp : option Campaign) : CampaignStatus :=
  match camp with
  | Some c =>
      if bool_decide (c_failed c + c_skipped c = recipients c)%Z
         && bool_decide (recipients c > 0)%Z
      then FAILED else COMPLETED
  | None => COMPLETED
  end.

(** [campaignDb.updateStatus(campaignId, { status, completedAt })] *)
Definition complete_campaign (env : Collab) (db : Db) : Db :=
  match campaign db with
  | None => db
  | Some c =>
      set_campaign
        (Some (mkCampaign (finalStatus (campaign db)) (recipients c) (c_sent c)
                 (c_failed c) (c_skipped c) (startedAt c) (firstDispatchAt c)
                 (lastSentAt c) (Some (now_iso env))))
        db
  end.

(** [init-campaign], lines 237-250. *)
Definition init_campaign (env : Collab) (db : Db) : Db :=
  match campaign db with
  | None => db
  | Some c =>
      set_campaign
        (Some (mkCampaign SENDING (recipients c) (c_sent c) (c_failed c)
                 (c_skipped c) (or_else (startedAt c) (Some (now_iso env)))
                 (firstDispatchAt c) (lastSentAt c) None))
        db
  end.

(** ** The batch step *)

(** What the workflow run is given, besides the collaborators. *)
Record Run := mkRun {
  campaignId : string;
  templateName : string;
  templateFound : bool;          (* [templateSnapshot || templateDb.getByName] *)
  getAdaptiveThrottleState : Fallible unit;
  rawConcurrency : option Z;     (* the setting rounded down; [None] if not finite *)
  rawBatchSize : option Z;
}.

Definition concurrency (run : Run) : nat := concurrency_of (rawConcurrency run).

(** [Math.max(1, Math.min(200, Math.floor(rawBatchSize)))], or 10. *)
Definition BATCH_SIZE (run : Run) : nat :=
  match rawBatchSize run with
  | Some n => Z.to_nat (Z.max 1 (Z.min 200 n))
  | None => 10
  end.

Inductive StepEnd :=
| Returned
| Thrown (e : Exn).

(** What a batch step leaves: how it ended, the store, the variables of
    the step, and whether its [finally] block called [recordStableBatch]. *)
Record StepResult := mkStepResult {
  step_end : StepEnd;
  step_db : Db;
  step_batch : Batch;
  step_stableBatch : bool;
}.

(** The step up to the claim, lines 332-451. *)
Inductive Prelude :=
| PThrow (e : Exn)
| PReturn (db : Db)                         (* paused, or nothing claimed *)
| PClaimed (cr : ClaimResult) (db : Db).

Definition batch_prelude (env : Collab) (run : Run) (db : Db) (batch : list Contact)
  : Prelude :=
  if negb (templateFound run)
  then PThrow (ExnError ("Template " +:+ templateName run +:+
                         " não encontrado no banco local. Sincronize Templates."))
  else if bool_decide (status <$> campaign db = Some PAUSED) then PReturn db
  else
    match (if adaptiveEnabled env then getAdaptiveThrottleState run else Ret ()) with
    | Throw e => PThrow e
    | Ret _ =>
        let '(cr, db') :=
          bulkClaimPendingForSend db ((fun c => Some (contactId_String c)) <$> batch)
            (JStr (run_traceId env)) (now_iso env) in
        if decide (claimedIds cr = ∅) then PReturn db' else PClaimed cr db'
    end.

(** The counts of the row inserted into [campaign_batch_metrics], lines
    1099-1120. *)
Definition batch_metrics_row (env : Collab) (run : Run) (batchIndex : nat)
    (batch : list Contact) (b : Batch) : gmap string Z :=
  list_to_map
    [ ("batch_index", Z.of_nat batchIndex);
      ("configured_batch_size", Z.of_nat (BATCH_SIZE run));
      ("batch_size", Z.of_nat (length batch));
      ("concurrency", Z.of_nat (concurrency run));
      ("sent_count", Z.of_nat (sentCount b));
      ("failed_count", Z.of_nat (failedCount b));
      ("skipped_count", Z.of_nat (skippedCount b));
      ("meta_requests", Z.of_nat (sentCount b + failedCount b)) ].

(** [.from('campaign_batch_metrics').insert(row)], best effort: an insert
    that fails is only logged. *)
Definition insert_batch_metrics (row : gmap string Z) (db : Db) : Db :=
  if db_metrics_ok db then set_metrics (campaign_batch_metrics db ++ [row]) db
  else db.

(** The store effect of the [finally] block, lines 1014-1147, which runs
    however the [try] block is left (thrown, returned early or run to its
    end): the metrics row of the batch. *)
Definition batch_finally (env : Collab) (run : Run) (batchIndex : nat)
    (batch : list Contact) (b : Batch) (db : Db) : Db :=
  insert_batch_metrics (batch_metrics_row env run batchIndex batch b) db.

(** The call of the [finally] block, lines 1044-1048: [recordStableBatch],
    when the throttle is enabled and the batch saw no throughput error. *)
Definition stable_batch (env : Collab) (b : Batch) : bool :=
  adaptiveEnabled env && negb (sawThroughput429 b).

(** After the pool: persistence, the [finally] block, and then the counter
    update, lines 886-1189. *)
Definition batch_finish (env : Collab) (run : Run) (batchIndex : nat)
    (batch : list Contact) (db : Db) (cr : ClaimResult) (b : Batch) : Db :=
  update_campaign_counters env
    (batch_finally env run batchIndex batch b
       (persist env (campaignId run) db (writeOps b)))
    (claimedAt cr) b.

(** The step of index [batchIndex] under any interleaving of its workers.
    A step that throws or returns early runs its [finally] block and skips
    the counter update. *)
Inductive sendBatchStep_runs (env : Collab) (run : Run) (batchIndex : nat) (db : Db)
    (batch : list Contact) : StepResult -> Prop :=
| runs_throw e :
    batch_prelude env run db batch = PThrow e ->
    sendBatchStep_runs env run batchIndex db batch
      (mkStepResult (Thrown e) (batch_finally env run batchIndex batch batch0 db)
                    batch0 (stable_batch env batch0))
| runs_return db' :
    batch_prelude env run db batch = PReturn db' ->
    sendBatchStep_runs env run batchIndex db batch
      (mkStepResult Returned (batch_finally env run batchIndex batch batch0 db')
                    batch0 (stable_batch env batch0))
| runs_pool cr db' final :
    batch_prelude env run db batch = PClaimed cr db' ->
    pool_runs env (claimedIds cr) batch (concurrency run) final ->
    sendBatchStep_runs env run batchIndex db batch
      (mkStepResult Returned
                    (batch_finish env run batchIndex batch db' cr (shared final))
                    (shared final) (stable_batch env (shared final))).

(** The step under the scheduler [sched]. *)
Definition sendBatchStep (env : Collab) (run : Run) (batchIndex : nat) (db : Db)
    (batch : list Contact) : StepResult :=
  match batch_prelude env run db batch with
  | PThrow e =>
      mkStepResult (Thrown e) (batch_finally env run batchIndex batch batch0 db)
                   batch0 (stable_batch env batch0)
  | PReturn db' =>
      mkStepResult Returned (batch_finally env run batchIndex batch batch0 db')
                   batch0 (stable_batch env batch0)
  | PClaimed cr db' =>
      let final := run_pool env (claimedIds cr) batch (concurrency run) in
      mkStepResult Returned
                   (batch_finish env run batchIndex batch db' cr (shared final))
                   (shared final) (stable_batch env (shared final))
  end.

(** ** The workflow *)

(** [!c.contactId || String(c.contactId).trim().length === 0] *)
Definition missing_contactId (c : Contact) : bool :=
  match contactId c with
  | None => true
  | Some s => str_empty s || str_empty (trim s)
  end.

Definition missingContactIds (contacts : list Contact) : list Contact :=
  filter (fun c => missing_contactId c = true) contacts.

(** [for (i = 0; i < contacts.length; i += BATCH_SIZE)
       batches.push(contacts.slice(i, i + BATCH_SIZE))] *)
Fixpoint slices (fuel size : nat) (l : list Contact) : list (list Contact) :=
  match fuel, l with
  | 0, _ => []
  | _, [] => []
  | S fuel', _ => take size l :: slices fuel' size (drop size l)
  end.

Definition batches_of (size : nat) (contacts : list Contact) : list (list Contact) :=
  slices (length contacts) size contacts.

Inductive StepName :=
| InitCampaign
| SendBatch (batchIndex : nat)
| CompleteCampaign.

Inductive WorkflowEnd :=
| WfDone
| WfFailed (e : Exn).

(** A workflow run: how it ended, the store, the steps that ran and the
    requests sent to the Graph API. *)
Record WorkflowRun := mkWorkflowRun {
  wf_end : WorkflowEnd;
  wf_db : Db;
  wf_steps : list StepName;
  wf_metaCalls : list Contact;
}.

(** The batch steps in index order; a step that throws ends the run. *)
Fixpoint run_batches (env : Collab) (run : Run) (i : nat) (bs : list (list Contact))
    (acc : WorkflowRun) : WorkflowRun :=
  match bs with
  | [] => acc
  | batch :: bs' =>
      let r := sendBatchStep env run i (wf_db acc) batch in
      let steps := wf_steps acc ++ [SendBatch i] in
      let calls := wf_metaCalls acc ++ metaCalls (step_batch r) in
      match step_end r with
      | Thrown e => mkWorkflowRun (WfFailed e) (step_db r) steps calls
      | Returned =>
          run_batches env run (S i) bs' (mkWorkflowRun WfDone (step_db r) steps calls)
      end
  end.

(** The body handed to [serve], lines 206-1360. *)
Definition workflow (env : Collab) (run : Run) (contacts : list Contact) (db : Db)
  : WorkflowRun :=
  match missingContactIds contacts with
  | _ :: _ =>
      mkWorkflowRun (WfFailed (ExnError "[Workflow] Payload inválido: contato(s) sem contactId."))
                    db [] []
  | [] =>
      let db1 := init_campaign env db in
      let r := run_batches env run 0 (batches_of (BATCH_SIZE run) contacts)
                           (mkWorkflowRun WfDone db1 [InitCampaign] []) in
      match wf_end r with
      | WfFailed _ => r
      | WfDone =>
          mkWorkflowRun WfDone (complete_campaign env (wf_db r))
                        (wf_steps r ++ [CompleteCampaign]) (wf_metaCalls r)
      end
  end.

(** ** A small campaign to run the definitions on *)

Module Sample.

Definition ana : Contact := mkContact (Some "c1") "+5511999990001" "Ana" None.
Definition bia : Contact := mkContact (Some "c2") "+5511999990002" "Bia" None.
Definition caio : Contact := mkContact (Some "c3") "+5511999990003" "Caio" None.
Definition dora : Contact := mkContact (Some "c4") "+5511999990004" "Dora" None.
Definition semId : Contact := mkContact None "+5511999990005" "Edu" None.

Definition ok_response : Response :=
  mkResponse true 200 (Some (mkBody [JStr "wamid.A1"] None)).

(** HTTP 200 whose body has no message id. *)
Definition ok_without_id : Response :=
  mkResponse true 200 (Some (mkBody [] None)).

Definition throughput_exceeded : Response :=
  mkResponse false 400
    (Some (mkBody []
       (Some (mkMetaError (JNum 130429) (JStr "OAuthException")
                (JStr "(#130429) Rate limit hit") JUndefined JUndefined
                (JStr "Too many requests") (JStr "AbCdE") JUndefined JUndefined)))).

(** Ana is delivered, Bia and Caio hit the throughput limit, the request
    for Dora times out. *)
Definition fetch (c : Contact) (to : string) : Fallible Response :=
  if bool_decide (contactId c = Some "c1") then Ret ok_response
  else if bool_decide (contactId c = Some "c4")
       then Throw (ExnError "This operation was aborted")
       else Ret throughput_exceeded.

Definition t1 : string := "2026-01-01T00:00:01.000Z".
Definition t2 : string := "2026-01-01T00:00:02.000Z".

Definition parse (s : string) : option Z :=
  if bool_decide (s = t1) then Some 1000%Z
  else if bool_decide (s = t2) then Some 2000%Z
  else None.

Definition env : Collab :=
  mkCollab true (fun _ => Ret ()) (fun c => Ret (PrecheckPass (phone c))) ∅ ∅
           (fun _ _ => Ret ()) fetch
           (fun _ _ message _ => Js.to_string message)
           (Ret ()) (fun s _ => JStr s) parse t2 "wf_sample".

Definition run : Run :=
  mkRun "camp-1" "boas_vindas" true (Ret ()) (Some 2%Z) (Some 10%Z).

Definition pending_row : Row := {[ "status" := JStr "pending" ]}.

Definition camp : Campaign :=
  mkCampaign SENDING 4 0 0 0 (Some t1) None None None.

Definition table : gmap string Row :=
  list_to_map [("c1", pending_row); ("c2", pending_row);
               ("c3", pending_row); ("c4", pending_row)].

Definition db : Db := mkDb true true (Some camp) table (fun _ => true) true [].

(** The store does not answer the claim. *)
Definition db_down : Db := mkDb false true (Some camp) table (fun _ => true) true [].

Definition batch : list Contact := [ana; bia; caio; dora].

(** A row claimed for a new attempt that still carries the failure of an
    earlier one, in a store that rejects the bulk upsert. *)
Definition stale_row : Row :=
  list_to_map [("status", JStr "sending");
               ("failed_at", JStr t1);
               ("failure_code", JNum 131026);
               ("failure_reason", JStr "(#131026) Message undeliverable")].

Definition db_stale : Db :=
  mkDb true false (Some camp) {[ "c1" := stale_row ]} (fun _ => true) true [].

(** Every request is answered 200 without a message id. *)
Definition env_no_id : Collab :=
  mkCollab true (fun _ => Ret ()) (fun c => Ret (PrecheckPass (phone c))) ∅ ∅
           (fun _ _ => Ret ()) (fun _ _ => Ret ok_without_id)
           (fun _ _ message _ => Js.to_string message)
           (Ret ()) (fun s _ => JStr s) parse t2 "wf_sample".

(** A replayed batch: only Ana is still pending. *)
Definition db_replay : Db :=
  mkDb true true (Some camp)
       (list_to_map [("c1", pending_row);
                     ("c2", {[ "status" := JStr "sent" ]});
                     ("c3", {[ "status" := JStr "failed" ]})])
       (fun _ => true) true [].

Definition batch3 : list Contact := [ana; bia; caio].

(** Ana again, her id with a space in front. *)
Definition padded : Contact := mkContact (Some " c1") "+5511999990001" "Ana" None.

(** White space of more than one byte: NBSP U+00A0, EM SPACE U+2003 and the
    byte order mark U+FEFF; and a character that is none, ZERO WIDTH SPACE
    U+200B. *)
Definition bytes (l : list N) : string :=
  foldr (fun x s => String (Ascii.ascii_of_N x) s) EmptyString l.
Definition nbsp : string := bytes [194; 160]%N.
Definition em_space : string := bytes [226; 128; 131]%N.
Definition bom : string := bytes [239; 187; 191]%N.
Definition zwsp : string := bytes [226; 128; 139]%N.

(** All five recipients of a campaign failed. *)
Definition camp_all_failed : Campaign :=
  mkCampaign SENDING 5 0 5 0 (Some t1) (Some t1) None None.

End Sample.

(** ** Notions used to state the properties *)

(** The contact passes [claimedIds.has(String(contact.contactId))]. *)
Definition is_claimed (claimed : gset string) (c : Contact) : Prop :=
  contactId_String c ∈ claimed.

#[global] Instance is_claimed_dec claimed c : Decision (is_claimed claimed c).
Proof. unfold is_claimed. apply _. Defined.

(** The claimed contact a worker is busy with, if any. *)
Definition inflight (claimed : gset string) (w : Worker) : list Contact :=
  match w with
  | WHold _ c => if decide (is_claimed claimed c) then [c] else []
  | WCommit _ (Some op) => [wo_contact op]
  | _ => []
  end.

(** The outcome a worker is about to record, if any. *)
Definition inflight_op (w : Worker) : list PendingWriteOp :=
  match w with
  | WCommit _ (Some op) => [op]
  | _ => []
  end.

(** Processing [c] throws [e], before the request or while awaiting and
    reading its answer. *)
Definition throws (env : Collab) (claimed : gset string) (c : Contact) (e : Exn)
  : Prop :=
  guard_phase env claimed c = Throw e
  \/ exists np, guard_phase env claimed c = Ret (GSend np)
                /\ (r ← meta_fetch env c np; classify r) = Throw e.

(** An outcome of a contact whose processing throws is the one the [catch]
    builds. *)
Definition catches (env : Collab) (claimed : gset string) (op : PendingWriteOp)
  : Prop :=
  forall e, throws env claimed (wo_contact op) e -> op = exception_op env (wo_contact op) e.

(** The turns of [worker_turn], as a relation. *)
Inductive turn (env : Collab) (claimed : gset string) (batch : list Contact)
    (w : nat) (p : Pool) : Pool -> Prop :=
| turn_return :
    workers p !! w = Some WIdle ->
    batch !! nextIndex p = None ->
    turn env claimed batch w p
         (mkPool (S (nextIndex p)) (<[w := WDone]> (workers p)) (shared p) (pulls p))
| turn_pull c :
    workers p !! w = Some WIdle ->
    batch !! nextIndex p = Some c ->
    turn env claimed batch w p
         (mkPool (S (nextIndex p)) (<[w := WHold (nextIndex p) c]> (workers p))
                 (shared p) (pulls p ++ [(w, nextIndex p)]))
| turn_attempt idx c :
    workers p !! w = Some (WHold idx c) ->
    turn env claimed batch w p
         (mkPool (nextIndex p)
                 (<[w := WCommit idx (attempt env claimed c (shared p)).2]> (workers p))
                 (attempt env claimed c (shared p)).1 (pulls p))
| turn_commit idx r :
    workers p !! w = Some (WCommit idx r) ->
    turn env claimed batch w p
         (mkPool (nextIndex p) (<[w := WIdle]> (workers p))
                 (commit env r (shared p)) (pulls p)).

(** The pool after the listed workers have taken their turns, in that
    order; [None] if one of them had already returned. *)
Fixpoint run_turns (env : Collab) (claimed : gset string) (batch : list Contact)
    (ws : list nat) (p : Pool) : option Pool :=
  match ws with
  | [] => Some p
  | w :: ws' =>
      match worker_turn env claimed batch w p with
      | Some q => run_turns env claimed batch ws' q
      | None => None
      end
  end.


(** ** The rest of the workflow route *)

(** [claimPendingForSend], lines 49-74: the claim of one contact, by its
    [contactId] as given. *)
Definition claimPendingForSend (db : Db) (cid : string) (traceId : JsVal)
    (now : string) : option string * Db :=
  match db_claim db [cid] now traceId with
  | (QError _, db') => (None, db')
  | (QData data, db') =>
      (match data with [] => None | _ :: _ => Some now end, db')
  end.

(** The status column of the row of a contact. *)
Definition row_status (db : Db) (cid : string) : JsVal :=
  col (default ∅ (campaign_contacts db !! cid)) "status".

Definition terminal_status (v : JsVal) : Prop :=
  v = JStr "sent" \/ v = JStr "failed" \/ v = JStr "skipped".

(** The contact a worker holds before its request, if claimed. *)
Definition holding (claimed : gset string) (w : Worker) : list Contact :=
  match w with
  | WHold _ c => if decide (is_claimed claimed c) then [c] else []
  | _ => []
  end.


(** The outcomes with a given status. *)
Definition with_status (st : Outcome) (ops : list PendingWriteOp)
  : list PendingWriteOp :=
  filter (fun op => wo_status op = st) ops.

(** ** Workflow trace (src/lib/workflow-trace.ts) *)

Module Trace.

(** [/\D/]: anything but an ASCII digit. *)
Definition is_digit (a : Ascii.ascii) : bool :=
  let n := Ascii.nat_of_ascii a in (Nat.leb 48 n && Nat.leb n 57)%bool.

(** [s.replace(/\D/g, '')] *)
Fixpoint digits_only (s : string) : string :=
  match s with
  | EmptyString => EmptyString
  | String a s' => if is_digit a then String a (digits_only s') else digits_only s'
  end.

Fixpoint str_take (n : nat) (s : string) : string :=
  match n, s with
  | S n', String a s' => String a (str_take n' s')
  | _, _ => EmptyString
  end.

(** [s.slice(-n)] *)
Definition slice_last (n : nat) (s : string) : string :=
  Js.rev (str_take n (Js.rev s)).

(** [maskPhone] *)
Definition maskPhone (phone : option string) : string :=
  let p := trim (default EmptyString (or_null phone)) in
  if str_empty p then EmptyString
  else
    let last4 := slice_last 4 (digits_only p) in
    if str_empty last4 then "***" else "***" +:+ last4.

(** A value that was thrown: an [Error] with its message, or anything else. *)
Inductive Thrown :=
| TError (message : string)
| TValue (v : JsVal).

(** [err instanceof Error ? err.message : String(err)] *)
Definition thrown_text (t : Thrown) : string :=
  match t with
  | TError m => m
  | TValue v => Js.to_string v
  end.

Inductive Result (A : Type) :=
| Returns (a : A)
| Throws (t : Thrown).
Arguments Returns {A} a.
Arguments Throws {A} t.

(** [WorkflowTraceEvent], the fields the functions of this file set.  Of
    [extra], the one field of free form, the event keeps the [error] text if
    there is one and whether [JSON.stringify] accepts it: it throws a
    [TypeError] on a cyclic object and on a BigInt. *)
Record Event := mkEvent {
  ev_traceId : string;
  ev_phase : string;
  ev_ok : option bool;
  ev_error : option string;
  ev_serializable : bool;
}.

Definition TRACE_REDIS_TTL_SECONDS : nat := 60 * 60 * 24 * 2.
Definition TRACE_REDIS_MAX_EVENTS : nat := 4000.

(** Where events go: the console log, oldest first, and the Redis lists
    with their time to live. *)
Record Sink := mkSink {
  console : list Event;
  warnings : nat;
  redis_lists : gmap string (list Event);
  redis_ttl : gmap string nat;
}.

(** Whether the Redis client exists, the value of [WORKFLOW_TRACE_STORE],
    which calls of the client throw, and the message of the [TypeError]
    that [JSON.stringify] throws. *)
Record Setup := mkSetup {
  redis_configured : bool;
  WORKFLOW_TRACE_STORE : option string;
  lpush_throws : bool;
  ltrim_throws : bool;
  expire_throws : bool;
  stringify_error : string;
}.

(** Code that reads and writes the sink and may throw. *)
Definition Prog (A : Type) : Type := Sink -> Result A * Sink.

Definition ret {A} (a : A) : Prog A := fun s => (Returns a, s).

Definition bind {A B} (m : Prog A) (k : A -> Prog B) : Prog B :=
  fun s =>
    match m s with
    | (Returns a, s') => k a s'
    | (Throws t, s') => (Throws t, s')
    end.

(** [try { body } catch (e) { handler(e) }] *)
Definition try_catch {A} (body : Prog A) (handler : Thrown -> Prog A) : Prog A :=
  fun s =>
    match body s with
    | (Returns a, s') => (Returns a, s')
    | (Throws t, s') => handler t s'
    end.

(** A call of the Redis client. *)
Definition redis_call (throws : bool) (effect : Sink -> Sink) : Prog unit :=
  fun s => if throws then (Throws (TError "redis request failed"), s)
           else (Returns (), effect s).

Definition lpush (key : string) (ev : Event) (s : Sink) : Sink :=
  mkSink (console s) (warnings s)
         (<[key := ev :: default [] (redis_lists s !! key)]> (redis_lists s))
         (redis_ttl s).

(** [LTRIM key start stop] keeps the elements from [start] to [stop]. *)
Definition ltrim (key : string) (start stop : nat) (s : Sink) : Sink :=
  mkSink (console s) (warnings s)
         (alter (fun l => take (S stop - start) (drop start l)) key (redis_lists s))
         (redis_ttl s).

(** [EXPIRE key seconds] on an existing key. *)
Definition expire (key : string) (seconds : nat) (s : Sink) : Sink :=
  mkSink (console s) (warnings s) (redis_lists s)
         (match redis_lists s !! key with
          | Some _ => <[key := seconds]> (redis_ttl s)
          | None => redis_ttl s
          end).

Definition console_log (ev : Event) : Prog unit :=
  fun s => (Returns (),
            mkSink (console s ++ [ev]) (warnings s) (redis_lists s) (redis_ttl s)).

Definition console_warn : Prog unit :=
  fun s => (Returns (),
            mkSink (console s) (S (warnings s)) (redis_lists s) (redis_ttl s)).

(** [JSON.stringify(payload)], the argument of [console.log] at line 37,
    outside the [try]. *)
Definition json_stringify (cfg : Setup) (ev : Event) : Prog unit :=
  fun s => if ev_serializable ev then (Returns (), s)
           else (Throws (TError (stringify_error cfg)), s).

(** [emitWorkflowTrace] *)
Definition emitWorkflowTrace (cfg : Setup) (ev : Event) : Prog unit :=
  bind (json_stringify cfg ev) (fun _ =>
  bind (console_log ev) (fun _ =>
    if negb (redis_configured cfg)
       || negb (bool_decide (WORKFLOW_TRACE_STORE cfg = Some "1"))
    then ret ()
    else
      let key := "trace:" +:+ ev_traceId ev in
      try_catch
        (bind (redis_call (lpush_throws cfg) (lpush key ev)) (fun _ =>
         bind (redis_call (ltrim_throws cfg)
                 (ltrim key 0 (TRACE_REDIS_MAX_EVENTS - 1))) (fun _ =>
         redis_call (expire_throws cfg) (expire key TRACE_REDIS_TTL_SECONDS))))
        (fun _ => console_warn))).

(** The two events of [timePhase]: [{ ...meta, phase, ms, ok: true }],
    which keeps the [extra] of [meta], and
    [{ ...meta, phase, ms, ok: false, extra: { error } }], whose [extra] is
    one string. *)
Definition phase_ok (phase : string) (meta : Event) : Event :=
  mkEvent (ev_traceId meta) phase (Some true) (ev_error meta) (ev_serializable meta).

Definition phase_failed (phase : string) (meta : Event) (err : Thrown) : Event :=
  mkEvent (ev_traceId meta) phase (Some false) (Some (thrown_text err)) true.

(** [timePhase]: [meta] carries the trace id, [fn] is the timed work.  The
    emit of the [try] block is inside it, so what it throws is caught too. *)
Definition timePhase {A} (cfg : Setup) (phase : string) (meta : Event)
    (fn : Prog A) : Prog A :=
  try_catch
    (bind fn (fun result =>
     bind (emitWorkflowTrace cfg (phase_ok phase meta)) (fun _ =>
     ret result)))
    (fun err =>
       bind (emitWorkflowTrace cfg (phase_failed phase meta err)) (fun _ =>
       fun s => (Throws err, s))).

(** The events of a list emitted one after the other. *)
Fixpoint emit_all (cfg : Setup) (evs : list Event) (s : Sink) : Sink :=
  match evs with
  | [] => s
  | ev :: evs' => emit_all cfg evs' (emitWorkflowTrace cfg ev s).2
  end.

Definition sink0 : Sink := mkSink [] 0 ∅ ∅.

End Trace.

(** ** Notions used to state the further properties *)

(** A campaign as a later step of the same run finds it: the same
    recipients, status and start and completion times, and counters that did
    not go down. *)
Definition campaign_grows (c c' : Campaign) : Prop :=
  recipients c' = recipients c /\ status c' = status c
  /\ startedAt c' = startedAt c /\ completedAt c' = completedAt c
  /\ (c_sent c <= c_sent c')%Z /\ (c_failed c <= c_failed c')%Z
  /\ (c_skipped c <= c_skipped c')%Z.

(** The request for a contact is answered with the throughput error: the
    pre-check gives a phone, the Graph API answers the request to it, the
    answer is no success (not ok, or its body has no message id), and the
    [error.code] of its body is the number 130429. *)
Definition answered_130429 (env : Collab) (c : Contact) : Prop :=
  exists np r d e,
    precheckContactForTemplate env c = Ret (PrecheckPass np)
    /\ meta_fetch env c np = Ret r
    /\ resp_data r = Some d
    /\ ~ (resp_ok r = true
          /\ exists id rest, messages d = id :: rest /\ truthy id = true)
    /\ body_error d = Some e
    /\ e_code e = JNum 130429.

(** Whether a worker is about to record a sent outcome. *)
Definition pending_sent (w : Worker) : nat :=
  match w with
  | WCommit _ (Some op) => if decide (wo_status op = sent) then 1 else 0
  | _ => 0
  end.

(** The status column of the row of [id] in a table. *)
Definition status_in (t : gmap string Row) (id : string) : JsVal :=
  col (default ∅ (t !! id)) "status".

(** The two ways a table is written, for one outcome. *)
Definition upsert_one (env : Collab) (camp : string) (t : gmap string Row)
    (op : PendingWriteOp) : gmap string Row :=
  <[contactId_String (wo_contact op) :=
      apply_update (upsert_row env camp op)
                   (default ∅ (t !! contactId_String (wo_contact op)))]> t.

Definition update_one (env : Collab) (ok : string -> bool) (t : gmap string Row)
    (op : PendingWriteOp) : gmap string Row :=
  if ok (contactId_String (wo_contact op))
  then alter (apply_update (status_update env (wo_status op) (wo_opts op)))
             (contactId_String (wo_contact op)) t
  else t.

(** An assignment with its guard: [if (b) update.k = v]. *)
Definition guarded_assign (g : bool * string * JsVal) : option (string * JsVal) :=
  assign_if g.1.1 g.1.2 g.2.

(** The value the assignments of a list give a column, if any: that of the
    last one whose guard holds. *)
Fixpoint last_guarded (k : string) (l : list (bool * string * JsVal))
  : option JsVal :=
  match l with
  | [] => None
  | (b, k', v) :: l' =>
      match last_guarded k l' with
      | Some w => Some w
      | None => if String.eqb k' k && b then Some v else None
      end
  end.

(** The columns that record how the send of a contact ended. *)
Definition outcome_columns : list string :=
  [ "sent_at"; "failed_at"; "skipped_at"; "message_id"; "error";
    "skip_code"; "skip_reason"; "failure_code"; "failure_reason";
    "failure_title"; "failure_details"; "failure_fbtrace_id";
    "failure_subcode"; "failure_href" ].

(** * Properties *)

(** ** Classification of a send response *)

(** C2: a request that got an answer is recorded [sent] exactly when the
    response is ok and the first entry of [messages] in its body has a
    truthy [id], and [failed] in every other case; the id recorded with a
    [sent] outcome is that id; so an ok response whose body has no message
    id is recorded [failed]. *)
Theorem send_outcome_sent_iff_ok_and_message_id
    (env : Collab) (claimed : gset string) (c : Contact) (b : Batch)
    (np : string) (r : Response) :
  guard_phase env claimed c = Ret (GSend np) ->
  meta_fetch env c np = Ret r ->
  exists op,
    (attempt env claimed c b).2 = Some op
    /\ (wo_status op = sent <->
        resp_ok r = true
        /\ exists d id rest,
             resp_data r = Some d /\ messages d = id :: rest /\ truthy id = true)
    /\ (wo_status op = failed <->
        ~ (resp_ok r = true
           /\ exists d id rest,
                resp_data r = Some d /\ messages d = id :: rest /\ truthy id = true))
    /\ (forall d id rest,
          resp_ok r = true -> resp_data r = Some d -> messages d = id :: rest ->
          truthy id = true -> messageId (wo_opts op) = id)
    /\ (forall d,
          resp_ok r = true -> resp_data r = Some d -> messages d = [] ->
          wo_status op = failed).
Proof.
  intros Hg Hf. unfold attempt. rewrite Hg. simpl. rewrite Hf. simpl.
  unfold classify, first_message_id.
  destruct (resp_data r) as [d|]; simpl.
  - destruct (messages d) as [|id rest] eqn:Hm.
    + rewrite andb_false_r.
      destruct (_ && _ && _); [destruct (recordThroughputExceeded env)|];
        (eexists; split; [reflexivity|]); simpl;
        (split; [split; [discriminate|intros (_ & d' & ? & ? & [= <-] & ? & _); congruence]|]);
        (split; [split; [intros _ (_ & d' & ? & ? & [= <-] & ? & _); congruence|done]|]);
        (split; [intros d' ? ? _ [= <-]; congruence|done]).
    + destruct (resp_ok r) eqn:Hok, (truthy id) eqn:Hid; simpl.
      * eexists; split; [reflexivity|]. simpl.
        split; [split; [intros _; split; [done|by exists d, id, rest]|done]|].
        split; [split; [discriminate|intros Hn; exfalso; apply Hn; split;
                                      [done|by exists d, id, rest]]|].
        split; [intros d' id' rest' _ [= <-]; rewrite Hm; by intros [= <- <-]|].
        intros d' _ [= <-]. by rewrite Hm.
      * destruct (_ && _ && _); [destruct (recordThroughputExceeded env)|];
          (eexists; split; [reflexivity|]); simpl;
          (split; [split; [discriminate
                          |intros (_ & d' & id' & rest' & [= <-] & Hm' & Hid');
                           rewrite Hm in Hm'; injection Hm' as <- <-; congruence]|]);
          (split; [split; [intros _ (_ & d' & id' & rest' & [= <-] & Hm' & Hid');
                           rewrite Hm in Hm'; injection Hm' as <- <-; congruence
                          |done]|]);
          (split; [intros d' id' rest' _ [= <-] Hm' Hid';
                   rewrite Hm in Hm'; injection Hm' as <- <-; congruence|done]).
      * destruct (_ && _ && _); [destruct (recordThroughputExceeded env)|];
          (eexists; split; [reflexivity|]); simpl;
          (split; [split; [discriminate|intros [? _]; discriminate]|]);
          (split; [split; [intros _ [? _]; discriminate|done]|]);
          (split; [intros; discriminate|done]).
      * destruct (_ && _ && _); [destruct (recordThroughputExceeded env)|];
          (eexists; split; [reflexivity|]); simpl;
          (split; [split; [discriminate|intros [? _]; discriminate]|]);
          (split; [split; [intros _ [? _]; discriminate|done]|]);
          (split; [intros; discriminate|done]).
  - eexists; split; [reflexivity|]. simpl.
    split; [split; [discriminate|intros (_ & ? & ? & ? & ? & _); discriminate]|].
    split; [split; [intros _ (_ & ? & ? & ? & ? & _); discriminate|done]|].
    split; [intros; discriminate|intros; discriminate].
Qed.

(** ** Completion *)

(** C7: the completion step stores [FAILED] exactly when failed plus skipped
    equals the number of recipients and that number is positive, stores
    [COMPLETED] otherwise, and stamps [completedAt]. *)
Theorem complete_campaign_final_status (env : Collab) (db : Db) (c : Campaign) :
  campaign db = Some c ->
  exists c',
    campaign (complete_campaign env db) = Some c'
    /\ (status c' = FAILED <->
        (c_failed c + c_skipped c = recipients c /\ recipients c > 0)%Z)
    /\ (status c' = COMPLETED <->
        ~ (c_failed c + c_skipped c = recipients c /\ recipients c > 0)%Z)
    /\ completedAt c' = Some (now_iso env).
Proof.
  intros Hc. unfold complete_campaign. rewrite Hc. simpl.
  eexists; split; [reflexivity|]. simpl.
  destruct (bool_decide (c_failed c + c_skipped c = recipients c)%Z) eqn:H1;
    destruct (bool_decide (recipients c > 0)%Z) eqn:H2; simpl;
    try apply bool_decide_eq_true in H1; try apply bool_decide_eq_true in H2;
    try apply bool_decide_eq_false in H1; try apply bool_decide_eq_false in H2;
    intuition congruence.
Qed.

(** ** Last-sent timestamp *)

Lemma or_null_idem (s : option string) : or_null (or_null s) = or_null s.
Proof. destruct s as [t|]; simpl; [|reflexivity]. destruct t; reflexivity. Qed.

(** C10: the counter update keeps the stored [lastSentAt] unless the batch
    has a candidate that parses to a strictly later instant (a campaign with
    no stored value takes the candidate); a batch that sent nothing keeps it;
    and the instant of a stored value never goes down. *)
Theorem lastSentAt_never_moves_back
    (env : Collab) (db : Db) (first : option string) (b : Batch) (c : Campaign) :
  campaign db = Some c ->
  exists c',
    campaign (update_campaign_counters env db first b) = Some c'
    /\ (or_null (lastSentAtInBatch b) = None -> lastSentAt c' = or_null (lastSentAt c))
    /\ (or_null (lastSentAt c) = None -> lastSentAt c' = or_null (lastSentAtInBatch b))
    /\ (forall ex, or_null (lastSentAt c) = Some ex ->
          lastSentAt c' = Some ex
          \/ exists cand a t,
               or_null (lastSentAtInBatch b) = Some cand /\ lastSentAt c' = Some cand
               /\ Date_parse env ex = Some a /\ Date_parse env cand = Some t
               /\ (a < t)%Z)
    /\ (forall ex a, or_null (lastSentAt c) = Some ex -> Date_parse env ex = Some a ->
          exists new t, lastSentAt c' = Some new /\ Date_parse env new = Some t
                        /\ (a <= t)%Z).
Proof.
  intros Hc. unfold update_campaign_counters. rewrite Hc. simpl.
  eexists; split; [reflexivity|]. simpl. unfold safeLastSentAt.
  pose proof (or_null_idem (lastSentAt c)) as Hi.
  destruct (or_null (lastSentAtInBatch b)) as [cand|] eqn:Hcand;
    destruct (or_null (lastSentAt c)) as [ex|] eqn:Hex.
  - destruct (Date_parse env ex) as [a|] eqn:Ha;
      destruct (Date_parse env cand) as [t|] eqn:Ht;
      [destruct (Z.gtb_spec t a) as [Hgt|Hle]|..];
      unfold or_else; rewrite ?Hi;
      (split; [congruence|]); (split; [congruence|]); split.
    all: try (intros ex' [= <-]; first
      [ left; reflexivity
      | right; exists cand, a, t; repeat split; auto; lia ]).
    all: intros ex' a' [= <-] Ha'; try congruence;
      assert (a' = a) as -> by congruence.
    + exists cand, t. repeat split; auto. lia.
    + exists ex, a. repeat split; auto. lia.
    + exists ex, a. repeat split; auto. lia.
  - repeat split; congruence.
  - repeat split; try congruence.
    + intros ex' [= <-]. left. reflexivity.
    + intros ex' a' [= <-] Ha'. exists ex, a'. repeat split; auto. lia.
  - repeat split; congruence.
Qed.

Lemma send_outcome_sent_iff_ok_and_message_id_witness :
  let r := Sample.ok_without_id in
  guard_phase Sample.env_no_id {[ "c1" ]} Sample.ana = Ret (GSend "+5511999990001")
  /\ meta_fetch Sample.env_no_id Sample.ana "+5511999990001" = Ret r
  /\ exists op,
       (attempt Sample.env_no_id {[ "c1" ]} Sample.ana batch0).2 = Some op
       /\ (wo_status op = sent <->
           resp_ok r = true
           /\ exists d id rest,
                resp_data r = Some d /\ messages d = id :: rest /\ truthy id = true)
       /\ (wo_status op = failed <->
           ~ (resp_ok r = true
              /\ exists d id rest,
                   resp_data r = Some d /\ messages d = id :: rest
                   /\ truthy id = true))
       /\ (forall d id rest,
             resp_ok r = true -> resp_data r = Some d -> messages d = id :: rest ->
             truthy id = true -> messageId (wo_opts op) = id)
       /\ (forall d,
             resp_ok r = true -> resp_data r = Some d -> messages d = [] ->
             wo_status op = failed).
Proof.
  intros r. split; [reflexivity|]. split; [reflexivity|].
  apply (send_outcome_sent_iff_ok_and_message_id
           Sample.env_no_id {[ "c1" ]} Sample.ana batch0 "+5511999990001" r);
    reflexivity.
Defined.

Lemma complete_campaign_final_status_witness :
  let db := mkDb true true (Some Sample.camp_all_failed) ∅ (fun _ => true) true [] in
  campaign db = Some Sample.camp_all_failed
  /\ exists c',
       campaign (complete_campaign Sample.env db) = Some c'
       /\ (status c' = FAILED <->
           (c_failed Sample.camp_all_failed + c_skipped Sample.camp_all_failed
            = recipients Sample.camp_all_failed
            /\ recipients Sample.camp_all_failed > 0)%Z)
       /\ (status c' = COMPLETED <->
           ~ (c_failed Sample.camp_all_failed + c_skipped Sample.camp_all_failed
              = recipients Sample.camp_all_failed
              /\ recipients Sample.camp_all_failed > 0)%Z)
       /\ completedAt c' = Some (now_iso Sample.env).
Proof.
  intros db. split; [reflexivity|].
  apply (complete_campaign_final_status Sample.env db Sample.camp_all_failed).
  reflexivity.
Defined.

Lemma lastSentAt_never_moves_back_witness :
  let c := mkCampaign SENDING 4 1 0 0 (Some Sample.t1) (Some Sample.t1)
                      (Some Sample.t2) None in
  let b := mkBatch [] 1 0 0 false (Some Sample.t1) [] 0 in
  let env := Sample.env in
  let db := mkDb true true (Some c) ∅ (fun _ => true) true [] in
  campaign db = Some c
  /\ exists c',
    campaign (update_campaign_counters env db None b) = Some c'
    /\ (or_null (lastSentAtInBatch b) = None -> lastSentAt c' = or_null (lastSentAt c))
    /\ (or_null (lastSentAt c) = None -> lastSentAt c' = or_null (lastSentAtInBatch b))
    /\ (forall ex, or_null (lastSentAt c) = Some ex ->
          lastSentAt c' = Some ex
          \/ exists cand a t,
               or_null (lastSentAtInBatch b) = Some cand /\ lastSentAt c' = Some cand
               /\ Date_parse env ex = Some a /\ Date_parse env cand = Some t
               /\ (a < t)%Z)
    /\ (forall ex a, or_null (lastSentAt c) = Some ex -> Date_parse env ex = Some a ->
          exists new t, lastSentAt c' = Some new /\ Date_parse env new = Some t
                        /\ (a <= t)%Z).
Proof.
  intros c b env db. split; [reflexivity|].
  apply (lastSentAt_never_moves_back env db None b c). reflexivity.
Defined.

(** ** Structural failure *)

Lemma missing_contactId_found (contacts : list Contact) (c : Contact) :
  c ∈ contacts -> missing_contactId c = true -> missingContactIds contacts <> [].
Proof.
  intros Hin Hm Hnil.
  assert (c ∈ missingContactIds contacts) as Hc
    by (unfold missingContactIds; apply list_elem_of_filter; auto).
  rewrite Hnil in Hc. by apply not_elem_of_nil in Hc.
Qed.

(** C8: a payload in which some recipient has no [contactId], or one that is
    empty once trimmed, ends the workflow run with an error before the init
    step and before any batch step: no step has run, the store is untouched
    and no request was sent. *)
Theorem missing_contactId_aborts_run
    (env : Collab) (run : Run) (contacts : list Contact) (db : Db) (c : Contact) :
  c ∈ contacts ->
  (contactId c = None
   \/ exists s, contactId c = Some s /\ str_empty (trim s) = true) ->
  exists e, workflow env run contacts db = mkWorkflowRun (WfFailed e) db [] [].
Proof.
  intros Hin Hmiss.
  assert (missing_contactId c = true) as Hm.
  { unfold missing_contactId. destruct Hmiss as [->|[s [-> Hs]]]; [reflexivity|].
    rewrite Hs. apply orb_true_r. }
  pose proof (missing_contactId_found contacts c Hin Hm) as Hne.
  unfold workflow. destruct (missingContactIds contacts); [congruence|].
  eexists. reflexivity.
Qed.

Lemma missing_contactId_aborts_run_witness :
  Sample.semId ∈ [Sample.ana; Sample.semId; Sample.bia]
  /\ (contactId Sample.semId = None
      \/ exists s, contactId Sample.semId = Some s /\ str_empty (trim s) = true)
  /\ exists e,
       workflow Sample.env Sample.run [Sample.ana; Sample.semId; Sample.bia] Sample.db
       = mkWorkflowRun (WfFailed e) Sample.db [] [].
Proof.
  assert (Sample.semId ∈ [Sample.ana; Sample.semId; Sample.bia]) as Hin
    by (apply list_elem_of_further, list_elem_of_here).
  assert (contactId Sample.semId = None
          \/ exists s, contactId Sample.semId = Some s /\ str_empty (trim s) = true)
    as Hm by (left; reflexivity).
  split; [exact Hin|]. split; [exact Hm|].
  exact (missing_contactId_aborts_run Sample.env Sample.run
           [Sample.ana; Sample.semId; Sample.bia] Sample.db Sample.semId Hin Hm).
Defined.

(** ** The worker pool *)

Section PoolFacts.
Variable env : Collab.
Variable claimed : gset string.
Variable batch : list Contact.

Lemma worker_turn_spec w p q :
  worker_turn env claimed batch w p = Some q <-> turn env claimed batch w p q.
Proof.
  unfold worker_turn. split.
  - destruct (workers p !! w) as [[| idx c | idx r |]|] eqn:Hw; try discriminate.
    + destruct (batch !! nextIndex p) eqn:Hb; intros [= <-];
        [by apply turn_pull|by apply turn_return].
    + destruct (attempt env claimed c (shared p)) as [b' r] eqn:Ha.
      intros [= <-].
      replace b' with (attempt env claimed c (shared p)).1 by (by rewrite Ha).
      replace r with (attempt env claimed c (shared p)).2 by (by rewrite Ha).
      by apply turn_attempt.
    + intros [= <-]. by eapply turn_commit.
  - intros [Hw Hb | c Hw Hb | idx c Hw | idx r Hw]; rewrite Hw; try rewrite Hb; auto.
    by destruct (attempt env claimed c (shared p)).
Qed.

Lemma pool_step_turn p q :
  pool_step env claimed batch p q <-> exists w, turn env claimed batch w p q.
Proof.
  unfold pool_step. split; intros [w H]; exists w; by apply worker_turn_spec.
Qed.

(** An invariant of the turns holds in every state the pool reaches. *)
Lemma pool_reach_ind (I : Pool -> Prop) (p0 p : Pool) :
  I p0 ->
  (forall w p q, turn env claimed batch w p q -> I p -> I q) ->
  rtc (pool_step env claimed batch) p0 p -> I p.
Proof.
  intros H0 Hstep Hr. revert p Hr. apply (rtc_ind_r I p0 H0).
  intros y z _ Hyz Hy. apply pool_step_turn in Hyz as [w Ht]. eauto.
Qed.

(** *** Replacing the state of one worker *)

Lemma bind_insert_perm {A} (f : Worker -> list A) (ws : list Worker) w x y :
  ws !! w = Some y ->
  f y ++ (<[w := x]> ws ≫= f) ≡ₚ f x ++ (ws ≫= f).
Proof.
  intros Hw. pose proof (lookup_lt_Some _ _ _ Hw) as Hlt.
  rewrite insert_take_drop by done.
  rewrite <- (take_drop_middle ws w y Hw) at 3.
  rewrite !bind_app, !bind_cons. solve_Permutation.
Qed.

Lemma sum_insert (g : Worker -> nat) (ws : list Worker) w x y :
  ws !! w = Some y ->
  g y + sum_list_with g (<[w := x]> ws) = g x + sum_list_with g ws.
Proof.
  intros Hw. pose proof (lookup_lt_Some _ _ _ Hw) as Hlt.
  rewrite insert_take_drop by done.
  rewrite <- (take_drop_middle ws w y Hw) at 3.
  rewrite !sum_list_with_app. simpl. lia.
Qed.

(** *** Termination *)

Lemma turn_measure w p q :
  turn env claimed batch w p q ->
  pool_measure batch q < pool_measure batch p.
Proof.
  unfold pool_measure.
  intros [Hw Hb | c Hw Hb | idx c Hw | idx r Hw]; simpl.
  - pose proof (sum_insert worker_weight _ _ WDone _ Hw). simpl in *.
    apply lookup_ge_None in Hb. lia.
  - pose proof (sum_insert worker_weight _ _ (WHold (nextIndex p) c) _ Hw).
    simpl in *. apply lookup_lt_Some in Hb. lia.
  - pose proof (sum_insert worker_weight _ _
                  (WCommit idx (attempt env claimed c (shared p)).2) _ Hw).
    simpl in *. lia.
  - pose proof (sum_insert worker_weight _ _ WIdle _ Hw). simpl in *. lia.
Qed.

Lemma first_live_spec ws i :
  match first_live ws i with
  | Some w => exists x, i <= w /\ ws !! (w - i) = Some x /\ is_done x = false
  | None => Forall (fun x => x = WDone) ws
  end.
Proof.
  revert i. induction ws as [|x ws IH]; intros i; simpl; [constructor|].
  destruct (is_done x) eqn:Hx.
  - specialize (IH (S i)). destruct (first_live ws (S i)) as [w|].
    + destruct IH as [y [Hle [Hy Hd]]]. exists y. split; [lia|]. split; [|done].
      replace (w - i) with (S (w - S i)) by lia. done.
    + constructor; [by destruct x|done].
  - exists x. split; [lia|]. by replace (i - i) with 0 by lia.
Qed.

Lemma sched_None p : sched env claimed batch p = None -> all_done p.
Proof.
  unfold sched, all_done. pose proof (first_live_spec (workers p) 0) as H.
  destruct (first_live (workers p) 0) as [w|]; [|done].
  destruct H as [x [_ [Hx Hd]]]. rewrite Nat.sub_0_r in Hx.
  unfold worker_turn. rewrite Hx.
  destruct x; try discriminate.
  - by destruct (batch !! nextIndex p).
  - by destruct (attempt env claimed c (shared p)).
Qed.

Lemma sched_step p q :
  sched env claimed batch p = Some q -> pool_step env claimed batch p q.
Proof.
  unfold sched, pool_step. destruct (first_live (workers p) 0) as [w|]; [|done].
  eauto.
Qed.

Lemma run_sched_runs fuel p :
  pool_measure batch p <= fuel ->
  rtc (pool_step env claimed batch) p (run_sched env claimed batch fuel p)
  /\ all_done (run_sched env claimed batch fuel p).
Proof.
  revert p. induction fuel as [|fuel IH]; intros p Hm; simpl.
  - destruct (sched env claimed batch p) as [q|] eqn:Hs.
    + apply sched_step, pool_step_turn in Hs as [w Ht].
      apply turn_measure in Ht. lia.
    + split; [done|]. by apply sched_None.
  - destruct (sched env claimed batch p) as [q|] eqn:Hs.
    + pose proof (sched_step _ _ Hs) as Hstep.
      pose proof Hstep as Hturn. apply pool_step_turn in Hturn as [w Ht].
      apply turn_measure in Ht.
      destruct (IH q) as [Hr Hd]; [lia|]. split; [|done].
      by eapply rtc_l.
    + split; [done|]. by apply sched_None.
Qed.

(** The scheduler [sched] gives one of the runs of the pool. *)
Lemma run_pool_runs conc :
  pool_runs env claimed batch conc (run_pool env claimed batch conc).
Proof. unfold pool_runs, run_pool. by apply run_sched_runs. Qed.

End PoolFacts.

(** ** One contact *)

Section ContactFacts.
Variable env : Collab.
Variable claimed : gset string.

Lemma guard_unclaimed c :
  ~ is_claimed claimed c -> guard_phase env claimed c = Ret GReturn.
Proof.
  intros Hc. unfold guard_phase. by rewrite bool_decide_eq_false_2.
Qed.

Lemma guard_claimed c :
  is_claimed claimed c -> guard_phase env claimed c <> Ret GReturn.
Proof.
  intros Hc. unfold guard_phase. rewrite bool_decide_eq_true_2 by done. simpl.
  unfold mbind, Fallible_bind, bindF.
  destruct (if adaptiveEnabled env then limiter_acquire env c else Ret ()); [|done].
  destruct (precheckContactForTemplate env c) as [[np|code reason]|]; [|done|done].
  destruct (bool_decide _); [done|].
  destruct (suppressionsByPhone env !! np); [done|].
  by destruct (buildMetaTemplatePayload env c np).
Qed.

Lemma guard_send_claimed c np :
  guard_phase env claimed c = Ret (GSend np) -> is_claimed claimed c.
Proof.
  intros Hg. destruct (decide (is_claimed claimed c)) as [|Hn]; [done|].
  rewrite (guard_unclaimed c Hn) in Hg. discriminate.
Qed.

Lemma attempt_unclaimed c b :
  ~ is_claimed claimed c -> attempt env claimed c b = (b, None).
Proof. intros Hc. unfold attempt. by rewrite guard_unclaimed. Qed.

Ltac attempt_cases c b :=
  unfold attempt;
  let Hg := fresh "Hg" in
  let Hf := fresh "Hf" in
  destruct (guard_phase env claimed c) as [[| code reason | np]|e] eqn:Hg; simpl;
  [ | | destruct (r ← meta_fetch env c np; classify r) as [[id|d]|e] eqn:Hf; simpl;
        [ | match goal with
            | |- context [if ?x then _ else _] => destruct x eqn:Hthr; simpl
            end;
            [ destruct (recordThroughputExceeded env) as [[]|e]; simpl | ]
          | ]
    | ].

Lemma attempt_claimed c b :
  is_claimed claimed c ->
  exists op, (attempt env claimed c b).2 = Some op /\ wo_contact op = c.
Proof.
  intros Hc. pose proof (guard_claimed c Hc) as Hne.
  attempt_cases c b; try congruence; eexists; split; reflexivity.
Qed.

Lemma attempt_contact c b op :
  (attempt env claimed c b).2 = Some op -> wo_contact op = c /\ is_claimed claimed c.
Proof.
  destruct (decide (is_claimed claimed c)) as [Hc|Hn].
  - destruct (attempt_claimed c b Hc) as [op' [-> <-]]. by intros [= ->].
  - by rewrite attempt_unclaimed.
Qed.

Lemma attempt_writeOps c b :
  writeOps (attempt env claimed c b).1 = writeOps b.
Proof. attempt_cases c b; reflexivity. Qed.

Lemma attempt_metaCalls c b :
  metaCalls (attempt env claimed c b).1 = metaCalls b
  \/ (is_claimed claimed c /\ metaCalls (attempt env claimed c b).1 = metaCalls b ++ [c]).
Proof.
  attempt_cases c b; auto; right; (split; [by eapply guard_send_claimed|done]).
Qed.

Lemma attempt_throttle c b :
  let b' := (attempt env claimed c b).1 in
  (sawThroughput429 b' = sawThroughput429 b
   /\ throttleDecreases b' = throttleDecreases b)
  \/ (sawThroughput429 b = false /\ sawThroughput429 b' = true
      /\ throttleDecreases b' = S (throttleDecreases b)).
Proof.
  attempt_cases c b; auto; right; simpl in Hthr;
    apply andb_true_iff in Hthr as [_ Hs]; apply negb_true_iff in Hs; auto.
Qed.

Lemma attempt_catches c b op :
  (attempt env claimed c b).2 = Some op -> catches env claimed op.
Proof.
  intros Ha. destruct (attempt_contact c b op Ha) as [Hc _].
  unfold catches. rewrite Hc. clear Hc. revert Ha.
  attempt_cases c b; intros [= <-] e' [He|[np' [He1 He2]]]; try congruence.
  all: assert (np' = np) as -> by congruence; congruence.
Qed.

Lemma commit_writeOps r b :
  writeOps (commit env r b) = writeOps b ++ from_option (fun op => [op]) [] r.
Proof.
  destruct r as [op|]; simpl; [|by rewrite app_nil_r].
  unfold pushWriteOp. by destruct (wo_status op).
Qed.

Lemma commit_metaCalls r b : metaCalls (commit env r b) = metaCalls b.
Proof. destruct r as [op|]; [|done]. simpl. unfold pushWriteOp. by destruct (wo_status op). Qed.

Lemma commit_throttle r b :
  sawThroughput429 (commit env r b) = sawThroughput429 b
  /\ throttleDecreases (commit env r b) = throttleDecreases b.
Proof. destruct r as [op|]; [|done]. simpl. unfold pushWriteOp. by destruct (wo_status op). Qed.

(** An exception while a claimed contact is processed is caught and gives
    a [failed] outcome that carries the message of the exception. *)
Lemma attempt_exception c b e :
  is_claimed claimed c -> throws env claimed c e ->
  (attempt env claimed c b).2 = Some (exception_op env c e)
  /\ wo_status (exception_op env c e) = failed
  /\ error (wo_opts (exception_op env c e)) = JStr (errorMsg_of e).
Proof.
  intros Hc Ht. destruct (attempt_claimed c b Hc) as [op [Ha Hop]].
  pose proof (attempt_catches c b op Ha e) as Hcatch. rewrite Hop in Hcatch.
  rewrite Ha, (Hcatch Ht). done.
Qed.

End ContactFacts.

(** ** Invariants of the pool *)

Section PoolInvariants.
Variable env : Collab.
Variable claimed : gset string.
Variable batch : list Contact.

Ltac reach_induction p :=
  let Hr := fresh "Hr" in
  intros Hr; pattern p; eapply (pool_reach_ind env claimed batch);
  [ | | exact Hr]; clear Hr; [clear p | clear p].

Lemma elem_of_insert_inv (ws : list Worker) w y x :
  x ∈ <[w := y]> ws -> x = y \/ x ∈ ws.
Proof.
  intros Hx. apply list_elem_of_lookup in Hx as [j Hj].
  apply list_lookup_insert_Some in Hj as [(_ & -> & _)|[_ Hj]]; [by left|].
  right. apply list_elem_of_lookup. eauto.
Qed.

(** The cursor hands out the indices of the batch in order, one worker
    each; a worker returns only once the cursor went past the batch; the
    number of workers never changes. *)
Lemma cursor_invariant conc p :
  rtc (pool_step env claimed batch) (pool_init conc batch) p ->
  (pulls p).*2 = seq 0 (Nat.min (nextIndex p) (length batch))
  /\ (WDone ∈ workers p -> length batch < nextIndex p)
  /\ length (workers p) = workerCount conc batch
  /\ Forall (fun wi => wi.1 < workerCount conc batch) (pulls p).
Proof.
  reach_induction p.
  - simpl. repeat split; auto.
    + intros Hd. by apply elem_of_replicate in Hd as [? _].
    + apply length_replicate.
  - intros w p q Ht (Hp & Hd & Hl & Hw).
    destruct Ht as [Hw0 Hb | c Hw0 Hb | idx c Hw0 | idx r Hw0];
      cbn [nextIndex workers shared pulls].
    + apply lookup_ge_None in Hb. repeat split; auto.
      * rewrite Hp. f_equal. lia.
      * intros _. lia.
      * by rewrite length_insert.
    + pose proof (lookup_lt_Some _ _ _ Hb) as Hlt. repeat split.
      * rewrite fmap_app, Hp.
        replace (Nat.min (S (nextIndex p)) (length batch)) with (S (nextIndex p)) by lia.
        replace (Nat.min (nextIndex p) (length batch)) with (nextIndex p) by lia.
        by rewrite seq_S.
      * intros Hin. apply elem_of_insert_inv in Hin as [|Hin]; [done|].
        specialize (Hd Hin). lia.
      * by rewrite length_insert.
      * apply Forall_app. split; [done|]. constructor; [|constructor]. simpl.
        rewrite <- Hl. by eapply lookup_lt_Some.
    + repeat split; auto.
      * intros Hin. apply elem_of_insert_inv in Hin as [|Hin]; [done|auto].
      * by rewrite length_insert.
    + repeat split; auto.
      * intros Hin. apply elem_of_insert_inv in Hin as [|Hin]; [done|auto].
      * by rewrite length_insert.
Qed.

(** Once every worker has returned the cursor is past the batch. *)
Lemma cursor_past_batch conc p :
  1 <= conc ->
  rtc (pool_step env claimed batch) (pool_init conc batch) p ->
  all_done p -> length batch <= nextIndex p.
Proof.
  intros Hc Hr Hd. destruct (cursor_invariant conc p Hr) as (_ & Hdone & Hl & _).
  destruct (workers p) as [|w ws] eqn:Hws.
  - simpl in Hl. unfold workerCount in Hl. lia.
  - unfold all_done in Hd. rewrite Hws in Hd.
    apply Forall_cons in Hd as [-> _].
    assert (length batch < nextIndex p) by (apply Hdone; left). lia.
Qed.

(** The flag is set exactly when the decrease has been asked for, once. *)
Lemma throttle_invariant conc p :
  rtc (pool_step env claimed batch) (pool_init conc batch) p ->
  throttleDecreases (shared p) = if sawThroughput429 (shared p) then 1 else 0.
Proof.
  reach_induction p; [done|].
  intros w p q Ht Hp.
  destruct Ht as [Hw0 Hb | c Hw0 Hb | idx c Hw0 | idx r Hw0]; simpl; auto.
  - destruct (attempt_throttle env claimed c (shared p)) as [[Hs Hn]|(Hs & Hs' & Hn)].
    + by rewrite Hs, Hn.
    + rewrite Hs', Hn, Hp, Hs. done.
  - destruct (commit_throttle env r (shared p)) as [Hs Hn]. by rewrite Hs, Hn.
Qed.

(** Requests go out for claimed contacts only. *)
Lemma metaCalls_invariant conc p :
  rtc (pool_step env claimed batch) (pool_init conc batch) p ->
  Forall (is_claimed claimed) (metaCalls (shared p)).
Proof.
  reach_induction p; [constructor|].
  intros w p q Ht Hp.
  destruct Ht as [Hw0 Hb | c Hw0 Hb | idx c Hw0 | idx r Hw0]; simpl; auto.
  - destruct (attempt_metaCalls env claimed c (shared p)) as [->|[Hc ->]]; [done|].
    apply Forall_app. split; [done|]. by constructor.
  - by rewrite commit_metaCalls.
Qed.

(** Every claimed contact of the batch is in exactly one place: recorded,
    in the hands of a worker, or still ahead of the cursor. *)
Lemma outcome_invariant conc p :
  rtc (pool_step env claimed batch) (pool_init conc batch) p ->
  (wo_contact <$> writeOps (shared p))
    ++ (workers p ≫= inflight claimed)
    ++ filter (is_claimed claimed) (drop (nextIndex p) batch)
  ≡ₚ filter (is_claimed claimed) batch.
Proof.
  reach_induction p.
  - simpl. assert (replicate (workerCount conc batch) WIdle ≫= inflight claimed = [])
      as -> by (induction (workerCount conc batch); simpl; auto).
    done.
  - intros w p q Ht Hp.
    destruct Ht as [Hw0 Hb | c Hw0 Hb | idx c Hw0 | idx r Hw0]; simpl.
    + pose proof (bind_insert_perm (inflight claimed) _ _ WDone _ Hw0) as Hi.
      simpl in Hi. rewrite Hi.
      apply lookup_ge_None in Hb.
      rewrite drop_ge by lia. rewrite drop_ge in Hp by lia. done.
    + pose proof (bind_insert_perm (inflight claimed) _ _
                    (WHold (nextIndex p) c) _ Hw0) as Hi.
      simpl in Hi. rewrite Hi.
      rewrite (drop_S _ _ _ Hb), filter_cons in Hp.
      rewrite <- Hp. destruct (decide (is_claimed claimed c)); solve_Permutation.
    + pose proof (bind_insert_perm (inflight claimed) _ _
                    (WCommit idx (attempt env claimed c (shared p)).2) _ Hw0) as Hi.
      rewrite attempt_writeOps. rewrite <- Hp. simpl in Hi.
      destruct (decide (is_claimed claimed c)) as [Hc|Hn].
      * destruct (attempt_claimed env claimed c (shared p) Hc) as [op [Ha Hop]].
        rewrite Ha in Hi |- *. simpl in Hi. rewrite Hop in Hi.
        apply Permutation_cons_inv in Hi. by rewrite Hi.
      * rewrite (attempt_unclaimed env claimed c (shared p) Hn) in Hi |- *.
        simpl in Hi. by rewrite Hi.
    + pose proof (bind_insert_perm (inflight claimed) _ _ WIdle _ Hw0) as Hi.
      rewrite commit_writeOps, fmap_app. rewrite <- Hp. simpl in Hi.
      destruct r as [op|]; simpl in *.
      * rewrite <- Hi. solve_Permutation.
      * rewrite Hi. by rewrite app_nil_r.
Qed.

(** Every outcome, recorded or about to be, is the one of the [catch]
    when processing its contact throws. *)
Lemma catches_invariant conc p :
  rtc (pool_step env claimed batch) (pool_init conc batch) p ->
  Forall (catches env claimed) (writeOps (shared p))
  /\ Forall (fun w => Forall (catches env claimed) (inflight_op w)) (workers p).
Proof.
  reach_induction p.
  - simpl. split; [constructor|]. apply Forall_replicate. constructor.
  - intros w p q Ht [Hp Hws].
    destruct Ht as [Hw0 Hb | c Hw0 Hb | idx c Hw0 | idx r Hw0]; simpl.
    + split; [done|]. apply Forall_insert; [done|constructor].
    + split; [done|]. apply Forall_insert; [done|constructor].
    + rewrite attempt_writeOps. split; [done|]. apply Forall_insert; [done|].
      destruct (attempt env claimed c (shared p)).2 as [op|] eqn:Ha; simpl;
        [|constructor].
      constructor; [|constructor]. by eapply attempt_catches.
    + rewrite commit_writeOps. split.
      * apply Forall_app. split; [done|].
        pose proof (proj1 (Forall_lookup _ _) Hws _ _ Hw0) as Hr.
        by destruct r.
      * apply Forall_insert; [done|constructor].
Qed.

End PoolInvariants.

(** ** Runs of the pool *)

Section PoolRuns.
Variable env : Collab.
Variable claimed : gset string.
Variable batch : list Contact.

Lemma counters_invariant conc p :
  rtc (pool_step env claimed batch) (pool_init conc batch) p ->
  sentCount (shared p) + failedCount (shared p) + skippedCount (shared p)
  = length (writeOps (shared p)).
Proof.
  intros Hr; pattern p; eapply (pool_reach_ind env claimed batch); [ | |exact Hr];
    [done|]; clear.
  intros w p q Ht Hp.
  destruct Ht as [Hw0 Hb | c Hw0 Hb | idx c Hw0 | idx r Hw0]; simpl; auto.
  - rewrite attempt_writeOps, <- Hp. unfold attempt.
    repeat (match goal with
            | |- context [match ?x with _ => _ end] => destruct x; simpl
            end); reflexivity.
  - destruct r as [op|]; simpl; [|done].
    unfold pushWriteOp. destruct (wo_status op); simpl; rewrite length_app; simpl; lia.
Qed.

Lemma done_no_inflight (ws : list Worker) :
  Forall (fun w => w = WDone) ws -> ws ≫= inflight claimed = [].
Proof. induction 1 as [|w ws -> _ IH]; simpl; auto. Qed.

(** When the pool has run, the recorded outcomes are those of the claimed
    entries of the batch, one each. *)
Lemma pool_runs_outcomes conc final :
  1 <= conc -> pool_runs env claimed batch conc final ->
  wo_contact <$> writeOps (shared final) ≡ₚ filter (is_claimed claimed) batch.
Proof.
  intros Hc [Hr Hd].
  pose proof (outcome_invariant env claimed batch conc final Hr) as Hp.
  rewrite (done_no_inflight _ Hd) in Hp.
  rewrite drop_ge in Hp by (by eapply cursor_past_batch).
  by rewrite !app_nil_r in Hp.
Qed.

End PoolRuns.

Lemma concurrency_of_pos raw : 1 <= concurrency_of raw.
Proof. unfold concurrency_of. destruct raw; lia. Qed.

(** ** Throttle feedback *)

(** C4: in a batch execution [recordThroughputExceeded] is called at most
    once, however the workers interleave and however many contacts get the
    code 130429: it has been called exactly when the flag is set, and once
    the flag is set no later turn calls it again. *)
Theorem throughput_decrease_at_most_once
    (env : Collab) (claimed : gset string) (batch : list Contact) (conc : nat)
    (p : Pool) :
  rtc (pool_step env claimed batch) (pool_init conc batch) p ->
  throttleDecreases (shared p) <= 1
  /\ (throttleDecreases (shared p) = 1 <-> sawThroughput429 (shared p) = true)
  /\ forall q, pool_step env claimed batch p q ->
       sawThroughput429 (shared p) = true ->
       sawThroughput429 (shared q) = true /\ throttleDecreases (shared q) = 1.
Proof.
  intros Hr. pose proof (throttle_invariant env claimed batch conc p Hr) as Hp.
  split; [destruct (sawThroughput429 (shared p)); lia|].
  split; [destruct (sawThroughput429 (shared p)); split; (lia || congruence)|].
  intros q Hq Hs.
  assert (rtc (pool_step env claimed batch) (pool_init conc batch) q) as Hrq
    by (eapply rtc_r; eauto).
  pose proof (throttle_invariant env claimed batch conc q Hrq) as Hpq.
  rewrite Hs in Hp.
  apply pool_step_turn in Hq as [w Ht].
  destruct Ht as [Hw0 Hb | c Hw0 Hb | idx c Hw0 | idx r Hw0]; simpl in *; auto.
  - destruct (attempt_throttle env claimed c (shared p)) as [[Hs' Hn]|(Hs' & _)];
      [|congruence].
    rewrite Hs' in Hpq |- *. rewrite Hs in Hpq |- *. auto.
  - destruct (commit_throttle env r (shared p)) as [Hs' Hn]. rewrite Hs', Hn. auto.
Qed.

Lemma throughput_decrease_at_most_once_witness :
  let final := run_pool Sample.env {[ "c1"; "c2"; "c3"; "c4" ]} Sample.batch 2 in
  rtc (pool_step Sample.env {[ "c1"; "c2"; "c3"; "c4" ]} Sample.batch)
      (pool_init 2 Sample.batch) final
  /\ throttleDecreases (shared final) <= 1
  /\ (throttleDecreases (shared final) = 1 <-> sawThroughput429 (shared final) = true)
  /\ forall q, pool_step Sample.env {[ "c1"; "c2"; "c3"; "c4" ]} Sample.batch final q ->
       sawThroughput429 (shared final) = true ->
       sawThroughput429 (shared q) = true /\ throttleDecreases (shared q) = 1.
Proof.
  intros final.
  assert (rtc (pool_step Sample.env {[ "c1"; "c2"; "c3"; "c4" ]} Sample.batch)
              (pool_init 2 Sample.batch) final) as Hr
    by apply (run_pool_runs Sample.env {[ "c1"; "c2"; "c3"; "c4" ]} Sample.batch 2).
  split; [exact Hr|].
  exact (throughput_decrease_at_most_once Sample.env {[ "c1"; "c2"; "c3"; "c4" ]}
           Sample.batch 2 final Hr).
Defined.

(** ** Worker count and cursor *)

Lemma NoDup_fmap_inj_on {A B} (f : A -> B) (l : list A) x y :
  NoDup (f <$> l) -> x ∈ l -> y ∈ l -> f x = f y -> x = y.
Proof.
  induction l as [|a l IH]; simpl; intros Hnd Hx Hy Hf.
  - by apply not_elem_of_nil in Hx.
  - apply NoDup_cons in Hnd as [Ha Hnd].
    apply elem_of_cons in Hx as [->|Hx]; apply elem_of_cons in Hy as [->|Hy]; auto.
    + exfalso. apply Ha. rewrite Hf. by apply list_elem_of_fmap_2.
    + exfalso. apply Ha. rewrite <- Hf. by apply list_elem_of_fmap_2.
Qed.

(** C9, as the code has it: the pool starts min(concurrency, batch.length)
    workers, counted on the whole batch and not on the claimed set; their
    number stays the same, and when all have returned the shared cursor has
    handed out every index of the batch exactly once, so every entry of the
    batch, claimed or not, was taken by exactly one of the workers; if the
    batch lists no recipient twice, every recipient was taken once, by one
    worker.  No worker waits for another: a worker that has not returned
    can take its turn whatever the others are doing. *)
Theorem pool_workers_and_cursor
    (env : Collab) (claimed : gset string) (batch : list Contact) (conc : nat)
    (final : Pool) :
  1 <= conc ->
  pool_runs env claimed batch conc final ->
  length (workers (pool_init conc batch)) = Nat.min conc (length batch)
  /\ length (workers final) = Nat.min conc (length batch)
  /\ (pulls final).*2 = seq 0 (length batch)
  /\ (forall i c, batch !! i = Some c ->
        exists w, w < Nat.min conc (length batch) /\ (w, i) ∈ pulls final
                  /\ forall w', (w', i) ∈ pulls final -> w' = w)
  /\ (NoDup (contactId_String <$> batch) ->
      forall c, c ∈ batch ->
        exists w i,
          (w, i) ∈ pulls final /\ batch !! i = Some c
          /\ forall w' i' c',
               (w', i') ∈ pulls final -> batch !! i' = Some c' ->
               contactId_String c' = contactId_String c -> w' = w /\ i' = i)
  /\ (forall p w st,
        workers p !! w = Some st -> st <> WDone ->
        exists q, worker_turn env claimed batch w p = Some q).
Proof.
  intros Hc [Hr Hd].
  destruct (cursor_invariant env claimed batch conc final Hr) as (Hp & _ & Hl & Hw).
  pose proof (cursor_past_batch env claimed batch conc final Hc Hr Hd) as Hn.
  assert ((pulls final).*2 = seq 0 (length batch)) as Hseq
    by (rewrite Hp; f_equal; lia).
  assert (forall i c, batch !! i = Some c ->
            exists w, w < Nat.min conc (length batch) /\ (w, i) ∈ pulls final
                      /\ forall w', (w', i) ∈ pulls final -> w' = w) as Hone.
  { intros i c Hi. apply lookup_lt_Some in Hi.
    assert (i ∈ (pulls final).*2) as Hin by (rewrite Hseq; apply elem_of_seq; lia).
    apply list_elem_of_fmap in Hin as [[w i'] [Hi' Hwi]]. simpl in Hi'. subst i'.
    exists w. split; [|split; [done|]].
    - by apply (proj1 (Forall_forall _ _) Hw (w, i) Hwi).
    - intros w' Hw'.
      assert ((w', i) = (w, i)) as Heq
        by (apply (NoDup_fmap_inj_on snd (pulls final)); auto;
            rewrite Hseq; apply NoDup_seq).
      by injection Heq. }
  split; [apply length_replicate|]. split; [done|]. split; [done|].
  split; [exact Hone|]. split.
  - intros Hnd c Hin. apply list_elem_of_lookup in Hin as [i Hi].
    destruct (Hone i c Hi) as (w & _ & Hwi & Huniq).
    exists w, i. split; [done|]. split; [done|].
    intros w' i' c' Hwi' Hi' Hid.
    assert (i' = i) as ->.
    { apply (NoDup_lookup _ _ _ (contactId_String c) Hnd);
        rewrite list_lookup_fmap; [rewrite Hi'; simpl; by rewrite Hid|by rewrite Hi]. }
    split; [by apply Huniq|done].
  - intros p w st Hst Hnd. unfold worker_turn. rewrite Hst.
    destruct st as [|idx c|idx r|]; [destruct (batch !! nextIndex p)| | |];
      eauto; [|congruence].
    destruct (attempt env claimed c (shared p)). eauto.
Qed.

Lemma pool_workers_and_cursor_witness :
  let final := run_pool Sample.env {[ "c1" ]} Sample.batch3 2 in
  let batch := Sample.batch3 in
  1 <= 2
  /\ pool_runs Sample.env {[ "c1" ]} batch 2 final
  /\ length (workers (pool_init 2 batch)) = Nat.min 2 (length batch)
  /\ length (workers final) = Nat.min 2 (length batch)
  /\ (pulls final).*2 = seq 0 (length batch)
  /\ (forall i c, batch !! i = Some c ->
        exists w, w < Nat.min 2 (length batch) /\ (w, i) ∈ pulls final
                  /\ forall w', (w', i) ∈ pulls final -> w' = w)
  /\ (NoDup (contactId_String <$> batch) ->
      forall c, c ∈ batch ->
        exists w i,
          (w, i) ∈ pulls final /\ batch !! i = Some c
          /\ forall w' i' c',
               (w', i') ∈ pulls final -> batch !! i' = Some c' ->
               contactId_String c' = contactId_String c -> w' = w /\ i' = i)
  /\ (forall p w st,
        workers p !! w = Some st -> st <> WDone ->
        exists q, worker_turn Sample.env {[ "c1" ]} batch w p = Some q).
Proof.
  intros final batch.
  assert (1 <= 2) as H1 by lia.
  assert (pool_runs Sample.env {[ "c1" ]} batch 2 final) as Hr
    by apply (run_pool_runs Sample.env {[ "c1" ]} Sample.batch3 2).
  split; [exact H1|]. split; [exact Hr|].
  exact (pool_workers_and_cursor Sample.env {[ "c1" ]} batch 2 final H1 Hr).
Defined.

(** On the replay of a batch of three of which one contact is still pending,
    with concurrency 2, the pool starts two workers although one contact was
    claimed. *)
Lemma workers_counted_on_batch_not_on_claimed :
  exists cr db',
    batch_prelude Sample.env Sample.run Sample.db_replay Sample.batch3 = PClaimed cr db'
    /\ size (claimedIds cr) = 1
    /\ length (workers (pool_init (concurrency Sample.run) Sample.batch3))
       <> Nat.min (concurrency Sample.run) (size (claimedIds cr)).
Proof.
  eexists _, _. split; [reflexivity|]. split; [reflexivity|]. vm_compute. lia.
Qed.

(** ** One outcome per claimed contact *)

(** When the pool has run, whatever the interleaving, the recorded outcomes
    are those of the entries of the batch that pass the claim guard (their
    id, as the payload gives it, is in the claimed set), exactly one for
    each entry, with a status among sent, failed and skipped, and the three
    counters add up to their number; such an entry whose processing throws
    an [Error] has a [failed] outcome with the message of that error, and
    the outcomes of all the others are recorded too. *)
Theorem guarded_entries_one_outcome_each
    (env : Collab) (claimed : gset string) (batch : list Contact) (conc : nat)
    (final : Pool) :
  1 <= conc ->
  pool_runs env claimed batch conc final ->
  wo_contact <$> writeOps (shared final) ≡ₚ filter (is_claimed claimed) batch
  /\ sentCount (shared final) + failedCount (shared final) + skippedCount (shared final)
     = length (filter (is_claimed claimed) batch)
  /\ (forall op, op ∈ writeOps (shared final) ->
        wo_status op = sent \/ wo_status op = failed \/ wo_status op = skipped)
  /\ (forall c m, c ∈ batch -> is_claimed claimed c ->
        throws env claimed c (ExnError m) ->
        exists op, op ∈ writeOps (shared final) /\ wo_contact op = c
                   /\ wo_status op = failed /\ error (wo_opts op) = JStr m).
Proof.
  intros Hc Hruns.
  pose proof (pool_runs_outcomes env claimed batch conc final Hc Hruns) as Hperm.
  destruct Hruns as [Hr Hd].
  split; [done|]. split; [|split].
  - rewrite (counters_invariant env claimed batch conc final Hr).
    rewrite <- Hperm. by rewrite length_fmap.
  - intros op _. destruct (wo_status op); auto.
  - intros c m Hin Hcl Hthrow.
    assert (c ∈ (wo_contact <$> writeOps (shared final))) as Hc'.
    { rewrite Hperm. apply list_elem_of_filter. auto. }
    apply list_elem_of_fmap in Hc' as [op [-> Hop]].
    destruct (catches_invariant env claimed batch conc final Hr) as [Hall _].
    pose proof (proj1 (Forall_forall _ _) Hall op Hop _ Hthrow) as Heq.
    exists op. split; [done|]. split; [done|]. rewrite Heq. done.
Qed.

Lemma guarded_entries_one_outcome_each_witness :
  let claimed : gset string := {[ "c1"; "c2"; "c3"; "c4" ]} in
  let final := run_pool Sample.env claimed Sample.batch 2 in
  1 <= 2
  /\ pool_runs Sample.env claimed Sample.batch 2 final
  /\ wo_contact <$> writeOps (shared final) ≡ₚ filter (is_claimed claimed) Sample.batch
  /\ sentCount (shared final) + failedCount (shared final) + skippedCount (shared final)
     = length (filter (is_claimed claimed) Sample.batch)
  /\ (forall op, op ∈ writeOps (shared final) ->
        wo_status op = sent \/ wo_status op = failed \/ wo_status op = skipped)
  /\ (forall c m, c ∈ Sample.batch -> is_claimed claimed c ->
        throws Sample.env claimed c (ExnError m) ->
        exists op, op ∈ writeOps (shared final) /\ wo_contact op = c
                   /\ wo_status op = failed /\ error (wo_opts op) = JStr m).
Proof.
  intros claimed final.
  assert (1 <= 2) as H1 by lia.
  assert (pool_runs Sample.env claimed Sample.batch 2 final) as Hr
    by apply (run_pool_runs Sample.env claimed Sample.batch 2).
  split; [exact H1|]. split; [exact Hr|].
  exact (guarded_entries_one_outcome_each Sample.env claimed Sample.batch 2 final H1 Hr).
Defined.

(** The request for Dora times out: her processing throws. *)
Example dora_times_out :
  throws Sample.env {[ "c1"; "c2"; "c3"; "c4" ]} Sample.dora
         (ExnError "This operation was aborted").
Proof. right. exists "+5511999990004". split; reflexivity. Qed.

(** ** The batch step *)

Lemma prelude_claimed env run db batch cr db' :
  batch_prelude env run db batch = PClaimed cr db' ->
  bulkClaimPendingForSend db ((fun c => Some (contactId_String c)) <$> batch)
                          (JStr (run_traceId env)) (now_iso env) = (cr, db')
  /\ claimedIds cr <> ∅.
Proof.
  unfold batch_prelude.
  destruct (negb (templateFound run)); [discriminate|].
  destruct (bool_decide _); [discriminate|].
  destruct (if adaptiveEnabled env then getAdaptiveThrottleState run else Ret ());
    [|discriminate].
  destruct (bulkClaimPendingForSend _ _ _ _) as [cr0 db0].
  destruct (decide (claimedIds cr0 = ∅)); [discriminate|].
  intros [= <- <-]. done.
Qed.

(** A batch step throws only before the claim: when the template is not
    found or when the throttle state cannot be read. *)
Lemma step_thrown_before_claim env run i db batch r e :
  sendBatchStep_runs env run i db batch r ->
  step_end r = Thrown e ->
  templateFound run = false
  \/ (adaptiveEnabled env = true /\ getAdaptiveThrottleState run = Throw e).
Proof.
  intros [e' Hp | db' Hp | cr db' final Hp Hruns]; simpl; try discriminate.
  intros [= ->]. revert Hp. unfold batch_prelude.
  destruct (templateFound run); simpl; [|auto].
  destruct (bool_decide _); [discriminate|].
  destruct (adaptiveEnabled env).
  - destruct (getAdaptiveThrottleState run) as [[]|e0].
    + destruct (bulkClaimPendingForSend _ _ _ _) as [cr0 db0].
      destruct (decide _); discriminate.
    + intros [= ->]. auto.
  - destruct (bulkClaimPendingForSend _ _ _ _) as [cr0 db0].
    destruct (decide _); discriminate.
Qed.

(** C1: in every execution of a batch step, if the bulk claim claims no row
    the step sends no request and records no outcome, and it ends by
    returning unless it threw before the claim; and a contact whose id is
    not in the claimed set gets no request and no outcome. *)
Theorem unclaimed_contacts_untouched
    (env : Collab) (run : Run) (i : nat) (db : Db) (batch : list Contact) (r : StepResult) :
  sendBatchStep_runs env run i db batch r ->
  let cr :=
    (bulkClaimPendingForSend db ((fun c => Some (contactId_String c)) <$> batch)
                             (JStr (run_traceId env)) (now_iso env)).1 in
  (claimedIds cr = ∅ ->
     metaCalls (step_batch r) = [] /\ writeOps (step_batch r) = []
     /\ throttleDecreases (step_batch r) = 0
     /\ (step_end r = Returned
         \/ templateFound run = false
         \/ exists e, getAdaptiveThrottleState run = Throw e))
  /\ (forall c, contactId_String c ∉ claimedIds cr ->
        (c ∉ metaCalls (step_batch r))
        /\ c ∉ (wo_contact <$> writeOps (step_batch r))).
Proof.
  intros Hruns cr. split.
  - intros Hempty.
    destruct Hruns as [e Hp | db' Hp | cr' db' final Hp Hpool]; simpl.
    + repeat split; auto.
      destruct (step_thrown_before_claim env run i db batch _ e
                  (runs_throw env run i db batch e Hp) eq_refl) as [|[_ ?]]; eauto.
    + repeat split; auto.
    + apply prelude_claimed in Hp as [Hcl Hne]. subst cr. rewrite Hcl in Hempty.
      simpl in Hempty. contradiction.
  - intros c Hc.
    destruct Hruns as [e Hp | db' Hp | cr' db' final Hp Hpool]; simpl.
    + split; apply not_elem_of_nil.
    + split; apply not_elem_of_nil.
    + apply prelude_claimed in Hp as [Hcl _]. subst cr. rewrite Hcl in Hc.
      simpl in Hc. split.
      * intros Hin. destruct Hpool as [Hr _].
        pose proof (metaCalls_invariant env (claimedIds cr') batch _ final Hr) as Hall.
        apply Hc. by apply (proj1 (Forall_forall _ _) Hall c Hin).
      * intros Hin.
        rewrite (pool_runs_outcomes env (claimedIds cr') batch _ final
                   (concurrency_of_pos _) Hpool) in Hin.
        apply list_elem_of_filter in Hin as [Hin _]. by apply Hc.
Qed.

Lemma unclaimed_contacts_untouched_witness :
  let r := sendBatchStep Sample.env Sample.run 0 Sample.db_replay Sample.batch3 in
  let cr :=
    (bulkClaimPendingForSend Sample.db_replay
       ((fun c => Some (contactId_String c)) <$> Sample.batch3)
       (JStr (run_traceId Sample.env)) (now_iso Sample.env)).1 in
  sendBatchStep_runs Sample.env Sample.run 0 Sample.db_replay Sample.batch3 r
  /\ (claimedIds cr = ∅ ->
        metaCalls (step_batch r) = [] /\ writeOps (step_batch r) = []
        /\ throttleDecreases (step_batch r) = 0
        /\ (step_end r = Returned
            \/ templateFound Sample.run = false
            \/ exists e, getAdaptiveThrottleState Sample.run = Throw e))
  /\ (forall c, contactId_String c ∉ claimedIds cr ->
        (c ∉ metaCalls (step_batch r))
        /\ c ∉ (wo_contact <$> writeOps (step_batch r))).
Proof.
  intros r cr.
  assert (sendBatchStep_runs Sample.env Sample.run 0 Sample.db_replay Sample.batch3 r)
    as Hr.
  { eapply (runs_pool Sample.env Sample.run 0 Sample.db_replay Sample.batch3);
      [reflexivity|]. apply run_pool_runs. }
  split; [exact Hr|].
  exact (unclaimed_contacts_untouched Sample.env Sample.run 0 Sample.db_replay
           Sample.batch3 r Hr).
Defined.

(** ** A store that does not answer the claim *)

Lemma bulkClaim_store_down db ids t now :
  db_up db = false ->
  bulkClaimPendingForSend db ids t now = (mkClaimResult None ∅, db).
Proof.
  intros Hdown. unfold bulkClaimPendingForSend, db_claim. rewrite Hdown.
  by destruct (claim_ids ids).
Qed.

(** The [finally] block touches the metrics table only. *)
Lemma batch_finally_spec env run i batch b db :
  campaign (batch_finally env run i batch b db) = campaign db
  /\ campaign_contacts (batch_finally env run i batch b db) = campaign_contacts db
  /\ db_up (batch_finally env run i batch b db) = db_up db
  /\ db_upsert_ok (batch_finally env run i batch b db) = db_upsert_ok db
  /\ db_update_ok (batch_finally env run i batch b db) = db_update_ok db
  /\ db_metrics_ok (batch_finally env run i batch b db) = db_metrics_ok db
  /\ campaign_batch_metrics (batch_finally env run i batch b db)
     = if db_metrics_ok db
       then campaign_batch_metrics db ++ [batch_metrics_row env run i batch b]
       else campaign_batch_metrics db.
Proof.
  unfold batch_finally, insert_batch_metrics.
  by destruct (db_metrics_ok db) eqn:Hm.
Qed.

(** C5, as the code has it: when the store does not answer the claim, the
    claim does not pass the error on: it returns an empty claimed set and no
    claim time and changes no row.  The batch step then takes the path of a
    batch with nothing to claim: it throws only if it threw before the
    claim, sends no request, records no outcome and leaves the campaign
    record and every row of the recipients as they were.  Its [finally]
    block runs as for any step: the stable-batch signal if the throttle is
    enabled, and the insert of a metrics row with zero counts. *)
Theorem store_down_claims_nothing
    (env : Collab) (run : Run) (i : nat) (db : Db) (batch : list Contact)
    (r : StepResult) :
  db_up db = false ->
  sendBatchStep_runs env run i db batch r ->
  (forall ids t now,
      bulkClaimPendingForSend db ids t now = (mkClaimResult None ∅, db))
  /\ step_batch r = batch0
  /\ campaign_contacts (step_db r) = campaign_contacts db
  /\ campaign (step_db r) = campaign db
  /\ (forall e, step_end r = Thrown e ->
        templateFound run = false
        \/ (adaptiveEnabled env = true /\ getAdaptiveThrottleState run = Throw e))
  /\ step_stableBatch r = adaptiveEnabled env
  /\ campaign_batch_metrics (step_db r)
     = if db_metrics_ok db
       then campaign_batch_metrics db ++ [batch_metrics_row env run i batch batch0]
       else campaign_batch_metrics db.
Proof.
  intros Hdown Hruns.
  split; [intros; by apply bulkClaim_store_down|].
  assert (forall cr db', batch_prelude env run db batch <> PClaimed cr db') as Hno.
  { intros cr db' Hp. apply prelude_claimed in Hp as [Hcl Hne].
    rewrite bulkClaim_store_down in Hcl by done. by injection Hcl as <- <-. }
  assert (forall db', batch_prelude env run db batch = PReturn db' -> db' = db) as Hret.
  { intros db'. unfold batch_prelude.
    destruct (negb (templateFound run)); [discriminate|].
    destruct (bool_decide _); [by intros [= <-]|].
    destruct (if adaptiveEnabled env then getAdaptiveThrottleState run else Ret ());
      [|discriminate].
    rewrite bulkClaim_store_down by done. simpl. by intros [= <-]. }
  assert (step_batch r = batch0
          /\ step_db r = batch_finally env run i batch batch0 db
          /\ step_stableBatch r = stable_batch env batch0) as (Hb & Hd & Hs).
  { destruct Hruns as [e Hp | db' Hp | cr db' final Hp Hpool]; simpl.
    - done.
    - by rewrite (Hret _ Hp).
    - by apply Hno in Hp. }
  destruct (batch_finally_spec env run i batch batch0 db)
    as (Hc & Ht & _ & _ & _ & _ & Hm).
  rewrite Hd, Hs. split; [done|]. split; [done|]. split; [done|]. split.
  - intros e He. by eapply step_thrown_before_claim.
  - split; [|done]. unfold stable_batch. simpl. by rewrite andb_true_r.
Qed.

Lemma store_down_claims_nothing_witness :
  let r := sendBatchStep Sample.env Sample.run 0 Sample.db_down Sample.batch in
  let db := Sample.db_down in
  db_up db = false
  /\ sendBatchStep_runs Sample.env Sample.run 0 db Sample.batch r
  /\ (forall ids t now,
        bulkClaimPendingForSend db ids t now = (mkClaimResult None ∅, db))
  /\ step_batch r = batch0
  /\ campaign_contacts (step_db r) = campaign_contacts db
  /\ campaign (step_db r) = campaign db
  /\ (forall e, step_end r = Thrown e ->
        templateFound Sample.run = false
        \/ (adaptiveEnabled Sample.env = true
            /\ getAdaptiveThrottleState Sample.run = Throw e))
  /\ step_stableBatch r = adaptiveEnabled Sample.env
  /\ campaign_batch_metrics (step_db r)
     = if db_metrics_ok db
       then campaign_batch_metrics db
            ++ [batch_metrics_row Sample.env Sample.run 0 Sample.batch batch0]
       else campaign_batch_metrics db.
Proof.
  intros r db.
  assert (db_up db = false) as Hdown by reflexivity.
  assert (sendBatchStep_runs Sample.env Sample.run 0 db Sample.batch r) as Hr
    by (apply (runs_return Sample.env Sample.run 0 Sample.db_down Sample.batch);
        reflexivity).
  split; [exact Hdown|]. split; [exact Hr|].
  exact (store_down_claims_nothing Sample.env Sample.run 0 db Sample.batch
           r Hdown Hr).
Defined.

(** With the store down the step of the sample batch returns: the error of
    the claim is not passed on and the step does not fail. *)
Lemma store_down_step_does_not_fail :
  db_up Sample.db_down = false
  /\ step_end (sendBatchStep Sample.env Sample.run 0 Sample.db_down Sample.batch) = Returned
  /\ ~ (exists e,
          step_end (sendBatchStep Sample.env Sample.run 0 Sample.db_down Sample.batch)
          = Thrown e).
Proof.
  split; [reflexivity|]. split; [reflexivity|]. intros [e He]. discriminate He.
Qed.

(** ** Rows written by the persister *)

Lemma apply_update_col (update old : Row) k v :
  update !! k = Some v -> col (apply_update update old) k = v.
Proof.
  intros Hk. unfold col, apply_update.
  by rewrite (lookup_union_Some_l update old k v Hk).
Qed.

(** A row of the bulk upsert for a [sent] outcome overwrites every terminal
    column: [sent_at] is set, the two other time stamps, the failure columns
    and the skip columns are null, whatever the stored row held. *)
Lemma bulk_sent_row_clean env cid op (old : Row) :
  wo_status op = sent ->
  let row := apply_update (upsert_row env cid op) old in
  col row "sent_at" = JStr (now_iso env)
  /\ Forall (fun k => col row k = JNull)
       ["failed_at"; "skipped_at"; "error"; "failure_code"; "failure_reason";
        "failure_title"; "failure_details"; "failure_fbtrace_id";
        "failure_subcode"; "failure_href"; "skip_code"; "skip_reason"].
Proof.
  intros Hst row. subst row. unfold upsert_row. rewrite Hst.
  split; [by apply apply_update_col|].
  repeat (constructor; [by apply apply_update_col|]). constructor.
Qed.

(** The rows of the bulk upsert have exactly one terminal time stamp. *)
Lemma bulk_row_one_timestamp env cid op (old : Row) :
  let row := apply_update (upsert_row env cid op) old in
  match wo_status op with
  | sent =>
      col row "sent_at" = JStr (now_iso env)
      /\ col row "failed_at" = JNull /\ col row "skipped_at" = JNull
  | failed =>
      col row "failed_at" = JStr (now_iso env)
      /\ col row "sent_at" = JNull /\ col row "skipped_at" = JNull
  | skipped =>
      col row "skipped_at" = JStr (now_iso env)
      /\ col row "sent_at" = JNull /\ col row "failed_at" = JNull
  end.
Proof.
  intros row. subst row. unfold upsert_row.
  destruct (wo_status op).
  - repeat split; by apply apply_update_col.
  - destruct (is_number (errorCode (wo_opts op))),
             (is_string (errorTitle (wo_opts op))),
             (is_string (errorDetails (wo_opts op))),
             (is_string (errorFbtraceId (wo_opts op))),
             (is_number (errorSubcode (wo_opts op))),
             (is_string (errorHref (wo_opts op))),
             (is_nonblank_string (error (wo_opts op)));
      repeat split; by apply apply_update_col.
  - repeat split; by apply apply_update_col.
Qed.

(** C3, on the fallback path: the store rejects the bulk upsert, and the row
    of Ana, claimed for a new attempt while it still holds the failure of an
    earlier one, is written [sent] by [updateContactStatus]; it then has both
    [sent_at] and [failed_at], and keeps the failure code and reason. *)
Theorem fallback_sent_keeps_stale_failure :
  let op := sent_op Sample.env Sample.ana (JStr "wamid.A1") in
  let db' := persist Sample.env "camp-1" Sample.db_stale [op] in
  let row := default ∅ (campaign_contacts db' !! "c1") in
  col row "status" = JStr "sent"
  /\ col row "sent_at" = JStr Sample.t2
  /\ col row "failed_at" = JStr Sample.t1
  /\ col row "failure_code" = JNum 131026
  /\ col row "failure_reason" = JStr "(#131026) Message undeliverable".
Proof.
  cbv zeta. repeat split; vm_compute; reflexivity.
Qed.

(** ** Executions of the step *)

(** In every execution of a batch step the decrease is asked for at most
    once. *)
Lemma step_throttle_once env run i db batch r :
  sendBatchStep_runs env run i db batch r -> throttleDecreases (step_batch r) <= 1.
Proof.
  intros [e Hp | db' Hp | cr db' final Hp [Hr _]]; simpl; try lia.
  rewrite (throttle_invariant env (claimedIds cr) batch _ final Hr).
  destruct (sawThroughput429 (shared final)); lia.
Qed.

(** The scheduler's run is one execution of the step. *)
Lemma sendBatchStep_runs_sched env run i db batch :
  sendBatchStep_runs env run i db batch (sendBatchStep env run i db batch).
Proof.
  unfold sendBatchStep.
  destruct (batch_prelude env run db batch) as [e | db' | cr db'] eqn:Hp.
  - by apply runs_throw.
  - by apply runs_return.
  - apply runs_pool; [done|]. apply run_pool_runs.
Qed.

(** ** The sample campaign *)

(** One batch of four with concurrency 2: Ana is sent, Bia and Caio hit the
    throughput limit, Dora's request times out.  Four requests, four
    outcomes, one decrease, and the counters of the campaign follow. *)
Example sample_batch_step :
  let r := sendBatchStep Sample.env Sample.run 0 Sample.db Sample.batch in
  step_end r = Returned
  /\ wo_status <$> writeOps (step_batch r) = [sent; failed; failed; failed]
  /\ metaCalls (step_batch r) = Sample.batch
  /\ throttleDecreases (step_batch r) = 1
  /\ error <$> (wo_opts <$> writeOps (step_batch r))
     = [JUndefined; JStr "(#130429) (#130429) Rate limit hit";
        JStr "(#130429) (#130429) Rate limit hit";
        JStr "This operation was aborted"]
  /\ (fun c => (c_sent c, c_failed c, c_skipped c, lastSentAt c))
       <$> campaign (step_db r)
     = Some (1%Z, 3%Z, 0%Z, Some Sample.t2).
Proof. vm_compute. repeat split; reflexivity. Qed.

(** The same step replayed on the store it left: nothing is pending, so
    nothing is claimed or sent and the counters stay. *)
Example sample_batch_replay :
  let r := sendBatchStep Sample.env Sample.run 0 Sample.db Sample.batch in
  let r' := sendBatchStep Sample.env Sample.run 0 (step_db r) Sample.batch in
  step_end r' = Returned /\ step_batch r' = batch0
  /\ campaign (step_db r') = campaign (step_db r).
Proof. vm_compute. repeat split; reflexivity. Qed.

(** A timeout on the first contact does not keep the second from being
    processed. *)
Example sample_timeout_first :
  let final := run_pool Sample.env {[ "c1"; "c4" ]} [Sample.dora; Sample.ana] 1 in
  (fun op => (contactId (wo_contact op), wo_status op)) <$> writeOps (shared final)
  = [(Some "c4", failed); (Some "c1", sent)].
Proof. vm_compute. reflexivity. Qed.

(** HTTP 200 without a message id is recorded [failed]. *)
Example sample_ok_without_id :
  wo_status <$> (attempt Sample.env_no_id {[ "c1" ]} Sample.ana batch0).2 = Some failed.
Proof. vm_compute. reflexivity. Qed.

(** The whole workflow on the sample: init, one batch, completion; one of
    four was sent, so the campaign ends [COMPLETED]. *)
Example sample_workflow :
  let w := workflow Sample.env Sample.run Sample.batch Sample.db in
  wf_end w = WfDone
  /\ wf_steps w = [InitCampaign; SendBatch 0; CompleteCampaign]
  /\ status <$> campaign (wf_db w) = Some COMPLETED
  /\ length (wf_metaCalls w) = 4.
Proof. vm_compute. repeat split; reflexivity. Qed.

Lemma run_turns_reach env claimed batch ws p q :
  run_turns env claimed batch ws p = Some q ->
  rtc (pool_step env claimed batch) p q.
Proof.
  revert p. induction ws as [|w ws IH]; simpl; intros p.
  - by intros [= ->].
  - destruct (worker_turn env claimed batch w p) as [p'|] eqn:Hw; [|done].
    intros Hq. eapply rtc_l; [by exists w|]. by apply IH.
Qed.

(** Two workers taking turns: worker 1 gets the throughput error of Bia
    while worker 0 still waits for the answer for Ana, and later the one of
    Caio.  The outcomes are recorded in another order than the batch has,
    one for each contact, and the decrease was asked for once. *)
Example sample_interleaved :
  exists final,
    run_turns Sample.env {[ "c1"; "c2"; "c3"; "c4" ]} Sample.batch
              [0; 1; 1; 0; 1; 1; 0; 1; 0; 0; 1; 0; 0; 1] (pool_init 2 Sample.batch)
    = Some final
    /\ workers final = [WDone; WDone]
    /\ pulls final = [(0, 0); (1, 1); (1, 2); (0, 3)]
    /\ (fun op => (name (wo_contact op), wo_status op)) <$> writeOps (shared final)
       = [("Bia", failed); ("Ana", sent); ("Caio", failed); ("Dora", failed)]
    /\ throttleDecreases (shared final) = 1.
Proof. eexists. split; [vm_compute; reflexivity|]. repeat split. Qed.

(** * Further properties *)

(** ** The claim service *)

Lemma lookup_foldr_alter (f : Row -> Row) (t0 : gmap string Row) (l : list string) k :
  NoDup l ->
  foldr (fun id t => alter f id t) t0 l !! k
  = if decide (k ∈ l) then f <$> t0 !! k else t0 !! k.
Proof.
  induction 1 as [|id l Hid Hnd IH]; simpl.
  - done.
  - destruct (decide (k = id)) as [->|Hne].
    + rewrite lookup_alter_eq, IH.
      rewrite decide_False by done. rewrite decide_True by left. done.
    + rewrite lookup_alter_ne by done. rewrite IH.
      destruct (decide (k ∈ l)) as [Hin|Hnin].
      * rewrite decide_True by (by right). done.
      * rewrite decide_False; [done|]. intros [?|?]%elem_of_cons; done.
Qed.

Lemma claim_update_not_pending now t r : is_pending (claim_update now t r) = false.
Proof.
  unfold is_pending, claim_update, col. by rewrite lookup_insert_eq.
Qed.

Lemma elem_of_claim_ids cids id :
  id ∈ claim_ids cids <->
  str_empty id = false /\ exists cid, cid ∈ cids /\ contactId_key cid = id.
Proof.
  unfold claim_ids. rewrite elem_of_remove_dups, list_elem_of_filter, list_elem_of_fmap.
  split; intros [H1 [cid H2]]; (split; [done|]); exists cid; intuition.
Qed.

(** The rows of [ids] the conditional update hits. *)
Lemma db_claim_up db ids now t :
  db_up db = true ->
  exists hit,
    db_claim db ids now t
    = (QData hit,
       set_contacts (foldr (fun id tb => alter (claim_update now t) id tb)
                           (campaign_contacts db) hit) db)
    /\ (forall id, id ∈ hit <->
          id ∈ ids /\ from_option is_pending false (campaign_contacts db !! id) = true)
    /\ (NoDup ids -> NoDup hit).
Proof.
  intros Hup. unfold db_claim. rewrite Hup. eexists. split; [reflexivity|]. split.
  - intros id. rewrite list_elem_of_filter. tauto.
  - intros Hnd. by apply NoDup_filter.
Qed.

Lemma bulkClaim_up db cids t now :
  db_up db = true ->
  exists hit,
    bulkClaimPendingForSend db cids t now
    = (mkClaimResult (if decide (list_to_set hit = (∅ : gset string)) then None else Some now)
                     (list_to_set hit),
       set_contacts (foldr (fun id tb => alter (claim_update now t) id tb)
                           (campaign_contacts db) hit) db)
    /\ (forall id, id ∈ hit <->
          id ∈ claim_ids cids
          /\ from_option is_pending false (campaign_contacts db !! id) = true)
    /\ NoDup hit.
Proof.
  intros Hup. unfold bulkClaimPendingForSend.
  destruct (claim_ids cids) as [|i ids] eqn:Hids.
  - exists []. split; [|split].
    + simpl. rewrite decide_True by done. by destruct db.
    + intros id. split; [by intros ?%not_elem_of_nil|].
      by intros [?%not_elem_of_nil _].
    + constructor.
  - destruct (db_claim_up db (i :: ids) now t Hup) as (hit & -> & Hhit & Hnd).
    exists hit. split; [done|]. split; [done|].
    apply Hnd. rewrite <- Hids. apply NoDup_remove_dups.
Qed.

(** What a claim claims, on a store that answers: exactly the requested ids
    (trimmed, non-empty) whose row is pending.  Those rows become sending
    with the claim time and the trace id, every other row and the campaign
    stay as they were, and the claim time is given exactly when something
    was claimed. *)
Theorem bulk_claim_exact (db : Db) (cids : list (option string)) (t : JsVal)
    (now : string) :
  db_up db = true ->
  let '(cr, db') := bulkClaimPendingForSend db cids t now in
  (forall id, id ∈ claimedIds cr <->
     (str_empty id = false /\ exists cid, cid ∈ cids /\ contactId_key cid = id)
     /\ exists r, campaign_contacts db !! id = Some r
                  /\ col r "status" = JStr "pending")
  /\ (forall id, id ∈ claimedIds cr ->
        exists r, campaign_contacts db !! id = Some r
                  /\ campaign_contacts db' !! id = Some (claim_update now t r)
                  /\ row_status db' id = JStr "sending"
                  /\ col (claim_update now t r) "sending_at" = JStr now)
  /\ (forall id, id ∉ claimedIds cr ->
        campaign_contacts db' !! id = campaign_contacts db !! id)
  /\ campaign db' = campaign db
  /\ (claimedAt cr = Some now <-> claimedIds cr <> ∅)
  /\ (claimedAt cr = None <-> claimedIds cr = ∅).
Proof.
  intros Hup.
  destruct (bulkClaim_up db cids t now Hup) as (hit & -> & Hhit & Hnd).
  cbn [claimedIds claimedAt].
  assert (forall id, from_option is_pending false (campaign_contacts db !! id) = true
                     <-> exists r, campaign_contacts db !! id = Some r
                                   /\ col r "status" = JStr "pending") as Hpend.
  { intros id. destruct (campaign_contacts db !! id) as [r|]; simpl.
    - unfold is_pending. rewrite bool_decide_eq_true. split; [eauto|].
      by intros (r' & [= <-] & ?).
    - split; [done|]. by intros (r' & [=] & _). }
  split; [|split; [|split; [|split; [|split]]]].
  - intros id. rewrite elem_of_list_to_set, Hhit, elem_of_claim_ids, Hpend. tauto.
  - intros id Hid. apply elem_of_list_to_set in Hid.
    pose proof (proj1 (Hhit id) Hid) as [_ Hp]. apply Hpend in Hp as (r & Hr & _).
    exists r. split; [done|].
    assert (campaign_contacts
              (set_contacts (foldr (fun id tb => alter (claim_update now t) id tb)
                                   (campaign_contacts db) hit) db) !! id
            = Some (claim_update now t r)) as Hl.
    { simpl. rewrite lookup_foldr_alter by done. rewrite decide_True by done.
      by rewrite Hr. }
    split; [done|]. split.
    + unfold row_status. rewrite Hl. simpl. unfold col, claim_update.
      by rewrite lookup_insert_eq.
    + unfold col, claim_update. rewrite lookup_insert_ne by done.
      by rewrite lookup_insert_eq.
  - intros id Hid. rewrite elem_of_list_to_set in Hid. simpl.
    rewrite lookup_foldr_alter by done. by rewrite decide_False.
  - done.
  - destruct (decide (list_to_set hit = (∅ : gset string))); split; congruence.
  - destruct (decide (list_to_set hit = (∅ : gset string))); split; congruence.
Qed.

Lemma bulk_claim_exact_witness :
  let db := Sample.db_replay in
  let cids := (fun c => Some (contactId_String c)) <$> Sample.batch3 in
  let t := JStr "wf_sample" in
  let now := Sample.t2 in
  db_up db = true
  /\ let '(cr, db') := bulkClaimPendingForSend db cids t now in
     (forall id, id ∈ claimedIds cr <->
        (str_empty id = false /\ exists cid, cid ∈ cids /\ contactId_key cid = id)
        /\ exists r, campaign_contacts db !! id = Some r
                     /\ col r "status" = JStr "pending")
     /\ (forall id, id ∈ claimedIds cr ->
           exists r, campaign_contacts db !! id = Some r
                     /\ campaign_contacts db' !! id = Some (claim_update now t r)
                     /\ row_status db' id = JStr "sending"
                     /\ col (claim_update now t r) "sending_at" = JStr now)
     /\ (forall id, id ∉ claimedIds cr ->
           campaign_contacts db' !! id = campaign_contacts db !! id)
     /\ campaign db' = campaign db
     /\ (claimedAt cr = Some now <-> claimedIds cr <> ∅)
     /\ (claimedAt cr = None <-> claimedIds cr = ∅).
Proof.
  intros db cids t now. split; [reflexivity|].
  exact (bulk_claim_exact db cids t now eq_refl).
Defined.

Lemma claimed_row_not_pending db hit now t id :
  NoDup hit -> id ∈ hit ->
  from_option is_pending false
    (foldr (fun id tb => alter (claim_update now t) id tb) (campaign_contacts db) hit !! id)
  = false.
Proof.
  intros Hnd Hin. rewrite lookup_foldr_alter by done. rewrite decide_True by done.
  destruct (campaign_contacts db !! id); simpl; [|done]. apply claim_update_not_pending.
Qed.

(** No contact is claimed twice: what a later claim claims, whatever ids it
    asks for, is disjoint from what an earlier claim claimed; and the same
    claim issued again claims nothing and leaves the store as it is. *)
Theorem bulk_claim_at_most_once (db : Db) (cids cids2 : list (option string))
    (t t2 : JsVal) (now now2 : string) :
  let '(cr, db') := bulkClaimPendingForSend db cids t now in
  let '(cr2, db'') := bulkClaimPendingForSend db' cids2 t2 now2 in
  claimedIds cr2 ## claimedIds cr
  /\ (cids2 = cids -> claimedIds cr2 = ∅ /\ claimedAt cr2 = None /\ db'' = db').
Proof.
  destruct (db_up db) eqn:Hup.
  - destruct (bulkClaim_up db cids t now Hup) as (hit & -> & Hhit & Hnd).
    set (db' := set_contacts _ db).
    assert (db_up db' = true) as Hup' by done.
    destruct (bulkClaim_up db' cids2 t2 now2 Hup') as (hit2 & -> & Hhit2 & Hnd2).
    cbn [claimedIds claimedAt].
    assert (forall id, id ∈ hit2 -> id ∈ hit -> False) as Hdisj.
    { intros id [_ H2]%Hhit2 H1. subst db'. simpl in H2.
      by rewrite (claimed_row_not_pending db hit now t id Hnd H1) in H2. }
    split.
    + intros id H2%elem_of_list_to_set H1%elem_of_list_to_set. eauto.
    + intros ->.
      assert (hit2 = []) as ->.
      { destruct hit2 as [|id hit2]; [done|]. exfalso.
        assert (id ∈ id :: hit2) as Hin by left.
        pose proof (proj1 (Hhit2 id) Hin) as [Hids Hp].
        destruct (decide (id ∈ hit)) as [Hh|Hn]; [by eapply Hdisj|].
        subst db'. simpl in Hp. rewrite lookup_foldr_alter in Hp by done.
        rewrite decide_False in Hp by done.
        apply Hn, Hhit. done. }
      simpl. rewrite decide_True by done. done.
  - rewrite (bulkClaim_store_down db cids t now Hup).
    rewrite (bulkClaim_store_down db cids2 t2 now2 Hup). simpl.
    split; [set_solver|done].
Qed.

(** The claim of one contact agrees with the bulk claim of that contact
    alone, for an id without surrounding white space: the same row is
    claimed, the same store results, and the claim time is given by both or
    by neither. *)
Theorem single_claim_agrees_with_bulk (db : Db) (cid : string) (t : JsVal)
    (now : string) :
  str_empty cid = false -> trim cid = cid ->
  let '(at1, db1) := claimPendingForSend db cid t now in
  let '(cr, db2) := bulkClaimPendingForSend db [Some cid] t now in
  db1 = db2 /\ claimedAt cr = at1
  /\ claimedIds cr = match at1 with Some _ => {[ cid ]} | None => ∅ end.
Proof.
  intros Hne Htrim. unfold claimPendingForSend, bulkClaimPendingForSend, claim_ids.
  simpl. rewrite Htrim.
  rewrite filter_cons_True by done. rewrite filter_nil. simpl.
  unfold db_claim. destruct (db_up db); [|done].
  rewrite filter_cons.
  destruct (decide (from_option is_pending false (campaign_contacts db !! cid) = true))
    as [Hp|Hp]; rewrite filter_nil; simpl.
  - split; [done|].
    assert (({[cid]} ∪ ∅ : gset string) <> ∅) as Hx
      by (intros Hx; apply (not_elem_of_empty (C:=gset string) cid); rewrite <- Hx;
          apply elem_of_union_l, elem_of_singleton; reflexivity).
    rewrite decide_False by done. split; [done|]. apply (right_id_L ∅ (∪)).
  - rewrite decide_True by done. done.
Qed.

Lemma single_claim_agrees_with_bulk_witness :
  let db := Sample.db in
  let t := JStr "wf_sample" in
  let now := Sample.t2 in
  str_empty "c1" = false /\ trim "c1" = "c1"
  /\ let '(at1, db1) := claimPendingForSend db "c1" t now in
     let '(cr, db2) := bulkClaimPendingForSend db [Some "c1"] t now in
     db1 = db2 /\ claimedAt cr = at1
     /\ claimedIds cr = match at1 with Some _ => {[ "c1" ]} | None => ∅ end.
Proof.
  intros db t now. split; [reflexivity|]. split; [reflexivity|].
  exact (single_claim_agrees_with_bulk db "c1" t now eq_refl eq_refl).
Defined.

(** ** Batches *)

Lemma BATCH_SIZE_bounds run : 1 <= BATCH_SIZE run <= 200.
Proof. unfold BATCH_SIZE. destruct (rawBatchSize run); lia. Qed.

Lemma slices_concat fuel n (l : list Contact) :
  1 <= n -> length l <= fuel -> concat (slices fuel n l) = l.
Proof.
  intros Hn. revert l. induction fuel as [|fuel IH]; intros l Hl.
  - destruct l; simpl in *; [done|lia].
  - destruct l as [|c l]; [done|]. cbn [slices concat].
    rewrite IH; [apply take_drop|].
    rewrite length_drop. simpl in *. lia.
Qed.

Lemma slices_lookup fuel n (l : list Contact) i :
  1 <= n -> length l <= fuel ->
  slices fuel n l !! i
  = if decide (i * n < length l) then Some (take n (drop (i * n) l)) else None.
Proof.
  intros Hn. revert l i. induction fuel as [|fuel IH]; intros l i Hl.
  - destruct l; [|simpl in Hl; lia]. case_decide; [simpl in *; lia|done].
  - destruct l as [|c l].
    + case_decide; [simpl in *; lia|done].
    + cbn [slices]. destruct i as [|i].
      * case_decide; [done|simpl in *; lia].
      * rewrite lookup_cons_ne_0 by done. cbn [pred].
        rewrite IH by (rewrite length_drop; simpl in *; lia).
        rewrite length_drop, drop_drop.
        replace (n + i * n) with (S i * n) by lia.
        repeat case_decide; try done; lia.
Qed.

Lemma slices_length fuel n (l : list Contact) :
  1 <= n -> length l <= fuel ->
  length (slices fuel n l) = (length l + n - 1) / n.
Proof.
  intros Hn. revert l. induction fuel as [|fuel IH]; intros l Hl.
  - destruct l; simpl in *; [|lia]. symmetry. apply Nat.div_small. lia.
  - destruct l as [|c l].
    + simpl. symmetry. apply Nat.div_small. lia.
    + cbn [slices length]. rewrite IH by (rewrite length_drop; simpl in *; lia).
      rewrite length_drop. cbn [length]. set (m := S (length l)).
      assert (1 <= m) by (subst m; lia).
      destruct (decide (n <= m)) as [Hle|Hgt].
      * pose proof (Nat.div_mod_eq (m - n + n - 1) n) as Hd.
        pose proof (Nat.mod_upper_bound (m - n + n - 1) n) as Hr.
        apply (Nat.div_unique _ _ _ ((m - n + n - 1) mod n)); [lia|].
        rewrite Nat.mul_succ_r. lia.
      * replace (m - n) with 0 by lia. simpl.
        rewrite (Nat.div_small (n - 1) n) by lia.
        apply (Nat.div_unique _ _ 1 (m - 1)); lia.
Qed.

(** The batches are the consecutive slices of the contact list: batch [i]
    is [contacts.slice(i * size, i * size + size)], there are
    ceil(length / size) of them, none is empty or longer than the batch
    size, which lies between 1 and 200, and put end to end they give the
    contact list back. *)
Theorem batches_are_consecutive_slices (run : Run) (contacts : list Contact) :
  let size := BATCH_SIZE run in
  let bs := batches_of size contacts in
  1 <= size <= 200
  /\ concat bs = contacts
  /\ length bs = (length contacts + size - 1) / size
  /\ (forall i, bs !! i
               = if decide (i * size < length contacts)
                 then Some (take size (drop (i * size) contacts)) else None)
  /\ Forall (fun b => 1 <= length b <= size) bs.
Proof.
  intros size bs. pose proof (BATCH_SIZE_bounds run) as Hb. fold size in Hb.
  assert (forall i, bs !! i
               = if decide (i * size < length contacts)
                 then Some (take size (drop (i * size) contacts)) else None) as Hl
    by (intros i; apply slices_lookup; lia).
  split; [done|]. split; [apply slices_concat; lia|].
  split; [apply slices_length; lia|]. split; [done|].
  apply Forall_lookup. intros i b Hi. rewrite Hl in Hi.
  destruct (decide (i * size < length contacts)); [|done].
  injection Hi as <-. rewrite length_take, length_drop. lia.
Qed.

(** ** More invariants of the pool *)

Section PoolMore.
Variable env : Collab.
Variable claimed : gset string.
Variable batch : list Contact.

Ltac reach_induction p :=
  let Hr := fresh "Hr" in
  intros Hr; pattern p; eapply (pool_reach_ind env claimed batch);
  [ | | exact Hr]; clear Hr; [clear p | clear p].

Ltac attempt_cases c b :=
  unfold attempt;
  let Hg := fresh "Hg" in
  let Hf := fresh "Hf" in
  destruct (guard_phase env claimed c) as [[| code reason | np]|e] eqn:Hg; simpl;
  [ | | destruct (r ← meta_fetch env c np; classify r) as [[id|d]|e] eqn:Hf; simpl;
        [ | match goal with
            | |- context [if ?x then _ else _] => destruct x eqn:Hthr; simpl
            end;
            [ destruct (recordThroughputExceeded env) as [[]|e]; simpl | ]
          | ]
    | ].

Lemma attempt_counters c b :
  sentCount (attempt env claimed c b).1 = sentCount b
  /\ failedCount (attempt env claimed c b).1 = failedCount b
  /\ skippedCount (attempt env claimed c b).1 = skippedCount b.
Proof. attempt_cases c b; done. Qed.

Lemma attempt_request_status c b :
  metaCalls (attempt env claimed c b).1 = metaCalls b
  \/ (metaCalls (attempt env claimed c b).1 = metaCalls b ++ [c]
      /\ is_claimed claimed c
      /\ exists op, (attempt env claimed c b).2 = Some op /\ wo_status op <> skipped).
Proof.
  attempt_cases c b; auto; right;
    (split; [done|]); (split; [by eapply guard_send_claimed|]);
    eexists; split; try reflexivity; done.
Qed.

Lemma attempt_flag_adaptive c b :
  sawThroughput429 (attempt env claimed c b).1 = true ->
  sawThroughput429 b = true \/ adaptiveEnabled env = true.
Proof.
  attempt_cases c b; auto; intros _; right;
    by apply andb_true_iff in Hthr as [[? _]%andb_true_iff _].
Qed.

(** A claimed entry of the batch is ahead of the cursor, held by a worker
    that has not sent yet, or it has had its request, or it is past the
    request without one: the requests are a sub-multiset of the claimed
    entries. *)
Lemma requests_invariant conc p :
  rtc (pool_step env claimed batch) (pool_init conc batch) p ->
  metaCalls (shared p) ++ (workers p ≫= holding claimed)
    ++ filter (is_claimed claimed) (drop (nextIndex p) batch)
  ⊆+ filter (is_claimed claimed) batch.
Proof.
  reach_induction p.
  - simpl. assert (replicate (workerCount conc batch) WIdle ≫= holding claimed = [])
      as -> by (induction (workerCount conc batch); simpl; auto).
    done.
  - intros w p q Ht Hp.
    destruct Ht as [Hw0 Hb | c Hw0 Hb | idx c Hw0 | idx r Hw0]; simpl.
    + pose proof (bind_insert_perm (holding claimed) _ _ WDone _ Hw0) as Hi.
      simpl in Hi. rewrite Hi.
      apply lookup_ge_None in Hb.
      rewrite drop_ge by lia. rewrite drop_ge in Hp by lia. done.
    + pose proof (bind_insert_perm (holding claimed) _ _
                    (WHold (nextIndex p) c) _ Hw0) as Hi.
      simpl in Hi. rewrite Hi.
      rewrite (drop_S _ _ _ Hb), filter_cons in Hp.
      etrans; [|exact Hp]. apply Permutation_submseteq.
      destruct (decide (is_claimed claimed c)); solve_Permutation.
    + pose proof (bind_insert_perm (holding claimed) _ _
                    (WCommit idx (attempt env claimed c (shared p)).2) _ Hw0) as Hi.
      simpl in Hi. etrans; [|exact Hp]. rewrite <- Hi.
      destruct (attempt_request_status c (shared p)) as [->|(-> & Hc & _)].
      * apply submseteq_app; [done|]. apply submseteq_app; [|done].
        apply submseteq_inserts_l. done.
      * rewrite decide_True by done. apply Permutation_submseteq. solve_Permutation.
    + pose proof (bind_insert_perm (holding claimed) _ _ WIdle _ Hw0) as Hi.
      simpl in Hi. rewrite Hi. by rewrite commit_metaCalls.
Qed.


Lemma with_status_snoc st ops op :
  length (with_status st (ops ++ [op]))
  = length (with_status st ops) + (if decide (wo_status op = st) then 1 else 0).
Proof.
  unfold with_status. rewrite filter_app, length_app. f_equal.
  rewrite filter_cons, filter_nil. by destruct (decide (wo_status op = st)).
Qed.

(** Each counter counts the recorded outcomes of its status. *)
Lemma status_counters_invariant conc p :
  rtc (pool_step env claimed batch) (pool_init conc batch) p ->
  sentCount (shared p) = length (with_status sent (writeOps (shared p)))
  /\ failedCount (shared p) = length (with_status failed (writeOps (shared p)))
  /\ skippedCount (shared p) = length (with_status skipped (writeOps (shared p))).
Proof.
  reach_induction p.
  - done.
  - intros w p q Ht Hp.
    destruct Ht as [Hw0 Hb | c Hw0 Hb | idx c Hw0 | idx r Hw0];
      cbn [shared]; auto.
    + destruct (attempt_counters c (shared p)) as (-> & -> & ->).
      by rewrite attempt_writeOps.
    + destruct r as [op|]; [|done]. destruct Hp as (H1 & H2 & H3).
      rewrite commit_writeOps. cbn [from_option]. rewrite !with_status_snoc.
      cbn [commit]. unfold pushWriteOp.
      destruct (wo_status op) eqn:Hst; cbn [sentCount failedCount skippedCount];
        repeat case_decide; try congruence; lia.
Qed.

(** The throughput flag is only ever set with the adaptive throttle on. *)
Lemma guard_send_precheck c np :
  guard_phase env claimed c = Ret (GSend np) ->
  precheckContactForTemplate env c = Ret (PrecheckPass np).
Proof.
  unfold guard_phase. destruct (negb _); [discriminate|].
  unfold mbind, Fallible_bind, bindF.
  destruct (if adaptiveEnabled env then limiter_acquire env c else Ret ()); [|done].
  destruct (precheckContactForTemplate env c) as [[np'|code reason]|]; [|done|done].
  destruct (bool_decide _); [done|].
  destruct (suppressionsByPhone env !! np'); [done|].
  destruct (buildMetaTemplatePayload env c np'); [|done].
  by intros [= ->].
Qed.

Lemma classify_failed r d :
  classify r = Ret (CFailed d) <->
  resp_data r = Some d
  /\ ~ (resp_ok r = true
        /\ exists id rest, messages d = id :: rest /\ truthy id = true).
Proof.
  unfold classify, first_message_id. destruct (resp_data r) as [d'|]; [|by split; [|intros []]].
  destruct (messages d') as [|id rest] eqn:Hm.
  - rewrite andb_false_r. split.
    + intros [= <-]. split; [done|]. rewrite Hm. by intros (_ & ? & ? & ? & _).
    + by intros [[= <-] _].
  - destruct (resp_ok r), (truthy id) eqn:Hid; simpl; split;
      try (intros [= <-]; split; [done|]; rewrite Hm;
           intros (? & id' & rest' & [= <- <-] & ?); congruence);
      try (by intros [[= <-] _]).
    + discriminate.
    + intros [[= <-] Hn]. exfalso. apply Hn. rewrite Hm. split; [done|]. eauto.
Qed.

Lemma throughput_code d :
  is_throughput_code (errorCode_of d) = true <->
  exists e, body_error d = Some e /\ e_code e = JNum 130429.
Proof.
  unfold is_throughput_code, errorCode_of, err_field, Js.or.
  rewrite bool_decide_eq_true. destruct (body_error d) as [e|]; simpl.
  - split.
    + destruct (truthy (e_code e)) eqn:Ht; [by exists e|discriminate].
    + intros (? & [= <-] & ->). done.
  - split; [discriminate|by intros (? & ? & _)].
Qed.

(** What an attempt does to the flag: it sets it exactly when the throttle
    is enabled and the request it sent was answered with the throughput
    error; a flag that is set stays set. *)
Lemma attempt_flag c b :
  let b' := (attempt env claimed c b).1 in
  (sawThroughput429 b' = true <->
   sawThroughput429 b = true
   \/ (adaptiveEnabled env = true /\ metaCalls b' = metaCalls b ++ [c]
       /\ answered_130429 env c)).
Proof.
  unfold attempt.
  destruct (guard_phase env claimed c) as [[| code reason | np]|e] eqn:Hg; simpl;
    try (split; [by left|intros [?|(_ & Hm & _)]; [done|];
         apply (f_equal length) in Hm; rewrite length_app in Hm; simpl in Hm; lia]).
  pose proof (guard_send_precheck c np Hg) as Hpre.
  unfold mbind, Fallible_bind, bindF.
  assert (forall np0 r0 d0 e0,
            precheckContactForTemplate env c = Ret (PrecheckPass np0) ->
            meta_fetch env c np0 = Ret r0 -> resp_data r0 = Some d0 ->
            ~ (resp_ok r0 = true
               /\ exists id rest, messages d0 = id :: rest /\ truthy id = true) ->
            body_error d0 = Some e0 -> e_code e0 = JNum 130429 ->
            meta_fetch env c np = Ret r0 /\ classify r0 = Ret (CFailed d0)
            /\ is_throughput_code (errorCode_of d0) = true) as Hans.
  { intros np0 r0 d0 e0 Hp0 Hf0 Hd0 Hn0 He0 Hc0.
    rewrite Hpre in Hp0. injection Hp0 as <-.
    split; [done|]. split; [by apply classify_failed|].
    apply throughput_code. eauto. }
  destruct (meta_fetch env c np) as [r|e] eqn:Hf; simpl.
  - destruct (classify r) as [[id|d]|e] eqn:Hc; simpl.
    + split; [by left|]. intros [?|(_ & _ & np0 & r0 & d0 & e0 & H1 & H2 & H3 & H4 & H5 & H6)];
        [done|].
      destruct (Hans _ _ _ _ H1 H2 H3 H4 H5 H6) as ([= <-] & Hc' & _). congruence.
    + destruct (adaptiveEnabled env) eqn:Had; simpl.
      * destruct (is_throughput_code (errorCode_of d)) eqn:Hcode; simpl.
        -- destruct (sawThroughput429 b) eqn:Hs; simpl.
           ++ split; [by left|done].
           ++ assert (answered_130429 env c) as Ha.
              { apply classify_failed in Hc as [Hd Hn].
                apply throughput_code in Hcode as (e0 & He0 & Hc0).
                by exists np, r, d, e0. }
              destruct (recordThroughputExceeded env); simpl;
                (split; [intros _; right; by repeat split|done]).
        -- split; [by left|].
           intros [?|(_ & _ & np0 & r0 & d0 & e0 & H1 & H2 & H3 & H4 & H5 & H6)];
             [done|].
           destruct (Hans _ _ _ _ H1 H2 H3 H4 H5 H6) as ([= <-] & Hc' & Hcode').
           rewrite Hc in Hc'. injection Hc' as <-. congruence.
      * split; [by left|]. intros [?|[? _]]; [done|discriminate].
    + split; [by left|]. intros [?|(_ & _ & np0 & r0 & d0 & e0 & H1 & H2 & H3 & H4 & H5 & H6)];
        [done|].
      destruct (Hans _ _ _ _ H1 H2 H3 H4 H5 H6) as ([= <-] & Hc' & _). congruence.
  - split; [by left|]. intros [?|(_ & _ & np0 & r0 & d0 & e0 & H1 & H2 & H3 & H4 & H5 & H6)];
      [done|].
    by destruct (Hans _ _ _ _ H1 H2 H3 H4 H5 H6) as (? & _).
Qed.

(** The flag is set exactly when the throttle is enabled and one of the
    requests sent so far was answered with the throughput error. *)
Lemma flag_invariant conc p :
  rtc (pool_step env claimed batch) (pool_init conc batch) p ->
  (sawThroughput429 (shared p) = true <->
   adaptiveEnabled env = true
   /\ exists c, c ∈ metaCalls (shared p) /\ answered_130429 env c).
Proof.
  reach_induction p.
  - simpl. split; [discriminate|]. intros (_ & c & Hc & _).
    by apply not_elem_of_nil in Hc.
  - intros w p q Ht Hp.
    destruct Ht as [Hw0 Hb | c Hw0 Hb | idx c Hw0 | idx r Hw0]; simpl; auto.
    + pose proof (attempt_flag c (shared p)) as Hf. simpl in Hf.
      rewrite Hf, Hp. clear Hf Hp. split.
      * intros [(Ha & c' & Hin & Hans)|(Ha & Hm & Hans)].
        -- split; [done|]. exists c'. split; [|done].
           destruct (attempt_metaCalls env claimed c (shared p)) as [->|[_ ->]];
             [done|]. apply elem_of_app. by left.
        -- split; [done|]. exists c. split; [|done]. rewrite Hm.
           apply elem_of_app. right. by left.
      * intros (Ha & c' & Hin & Hans).
        destruct (attempt_metaCalls env claimed c (shared p)) as [Hm|[_ Hm]];
          rewrite Hm in Hin.
        -- left. eauto.
        -- apply elem_of_app in Hin as [Hin|Hin%list_elem_of_singleton].
           ++ left. eauto.
           ++ subst c'. right. done.
    + destruct (commit_throttle env r (shared p)) as [-> _].
      by rewrite commit_metaCalls.
Qed.

Lemma flag_needs_adaptive conc p :
  rtc (pool_step env claimed batch) (pool_init conc batch) p ->
  sawThroughput429 (shared p) = true -> adaptiveEnabled env = true.
Proof.
  reach_induction p.
  - done.
  - intros w p q Ht Hp.
    destruct Ht as [Hw0 Hb | c Hw0 Hb | idx c Hw0 | idx r Hw0]; simpl; auto.
    + intros Hs. destruct (attempt_flag_adaptive c (shared p) Hs); auto.
    + destruct (commit_throttle env r (shared p)) as [-> _]. done.
Qed.

(** Every turn uses up exactly one unit of the measure. *)
Lemma turn_measure_exact w p q :
  turn env claimed batch w p q ->
  S (pool_measure batch q) = pool_measure batch p.
Proof.
  unfold pool_measure.
  intros [Hw Hb | c Hw Hb | idx c Hw | idx r Hw]; simpl.
  - pose proof (sum_insert worker_weight _ _ WDone _ Hw). simpl in *.
    apply lookup_ge_None in Hb. lia.
  - pose proof (sum_insert worker_weight _ _ (WHold (nextIndex p) c) _ Hw).
    simpl in *. apply lookup_lt_Some in Hb. lia.
  - pose proof (sum_insert worker_weight _ _
                  (WCommit idx (attempt env claimed c (shared p)).2) _ Hw).
    simpl in *. lia.
  - pose proof (sum_insert worker_weight _ _ WIdle _ Hw). simpl in *. lia.
Qed.

Lemma nsteps_measure n p q :
  nsteps (pool_step env claimed batch) n p q ->
  n + pool_measure batch q = pool_measure batch p.
Proof.
  induction 1 as [|n x y z Hxy _ IH]; [done|].
  apply pool_step_turn in Hxy as [w Ht]. apply turn_measure_exact in Ht. lia.
Qed.

Lemma init_measure conc :
  pool_measure batch (pool_init conc batch)
  = 3 * length batch + workerCount conc batch.
Proof.
  unfold pool_measure, pool_init. simpl. rewrite Nat.sub_0_r.
  induction (workerCount conc batch) as [|k IH]; simpl in *; lia.
Qed.

Lemma done_weight (ws : list Worker) :
  Forall (fun w => w = WDone) ws -> sum_list_with worker_weight ws = 0.
Proof. induction 1 as [|w ws -> _ IH]; simpl; auto. Qed.

Lemma not_done_can_turn p :
  ~ all_done p -> exists q, pool_step env claimed batch p q.
Proof.
  intros Hnd. destruct (sched env claimed batch p) as [q|] eqn:Hs.
  - exists q. by apply sched_step.
  - exfalso. by apply Hnd, (sched_None env claimed batch).
Qed.

End PoolMore.

(** ** At most one request per claimed entry *)

Lemma submseteq_NoDup_l {A} (l k : list A) : l ⊆+ k -> NoDup k -> NoDup l.
Proof.
  intros [k' Hk]%submseteq_Permutation Hnd. rewrite Hk in Hnd.
  by apply NoDup_app in Hnd as [? _].
Qed.

(** At every moment of a batch, under any interleaving, the requests sent
    to the Graph API are a sub-multiset of the claimed entries of the batch:
    no entry gets a second request; so if the batch lists no contact twice,
    no contact is sent twice. *)
Theorem at_most_one_request_per_entry
    (env : Collab) (claimed : gset string) (batch : list Contact) (conc : nat)
    (p : Pool) :
  rtc (pool_step env claimed batch) (pool_init conc batch) p ->
  metaCalls (shared p) ⊆+ filter (is_claimed claimed) batch
  /\ metaCalls (shared p) ⊆+ batch
  /\ (NoDup batch -> NoDup (metaCalls (shared p)))
  /\ (NoDup (contactId_String <$> batch) ->
      NoDup (contactId_String <$> metaCalls (shared p))).
Proof.
  intros Hr. pose proof (requests_invariant env claimed batch conc p Hr) as Hinv.
  assert (metaCalls (shared p) ⊆+ filter (is_claimed claimed) batch) as Hsub.
  { etrans; [|exact Hinv]. by apply submseteq_inserts_r. }
  assert (metaCalls (shared p) ⊆+ batch) as Hsub'.
  { etrans; [exact Hsub|]. apply sublist_submseteq, sublist_filter. }
  split; [done|]. split; [done|]. split.
  - intros Hnd. by eapply submseteq_NoDup_l.
  - intros Hnd. eapply submseteq_NoDup_l; [|exact Hnd]. by apply fmap_submseteq.
Qed.

Lemma at_most_one_request_per_entry_witness :
  let claimed : gset string := {[ "c1"; "c2"; "c3"; "c4" ]} in
  let p := run_pool Sample.env claimed Sample.batch 2 in
  rtc (pool_step Sample.env claimed Sample.batch) (pool_init 2 Sample.batch) p
  /\ metaCalls (shared p) ⊆+ filter (is_claimed claimed) Sample.batch
  /\ metaCalls (shared p) ⊆+ Sample.batch
  /\ (NoDup Sample.batch -> NoDup (metaCalls (shared p)))
  /\ (NoDup (contactId_String <$> Sample.batch) ->
      NoDup (contactId_String <$> metaCalls (shared p))).
Proof.
  intros claimed p.
  assert (rtc (pool_step Sample.env claimed Sample.batch) (pool_init 2 Sample.batch) p)
    as Hr by apply (run_pool_runs Sample.env claimed Sample.batch 2).
  split; [exact Hr|].
  exact (at_most_one_request_per_entry Sample.env claimed Sample.batch 2 p Hr).
Defined.

(** ** Runs of the pool given turn by turn *)

Lemma run_turns_nsteps env claimed batch ws p q :
  run_turns env claimed batch ws p = Some q ->
  nsteps (pool_step env claimed batch) (length ws) p q.
Proof.
  revert p. induction ws as [|w ws IH]; simpl; intros p.
  - intros [= ->]. constructor.
  - destruct (worker_turn env claimed batch w p) as [p'|] eqn:Hw; [|done].
    intros Hq. eapply nsteps_l; [by exists w|]. by apply IH.
Qed.

(** ** The pool always finishes *)

(** No interleaving deadlocks or runs on: a pool in which some worker has
    not returned can take a turn, no run has more than
    3 * batch.length + workerCount turns, and a run that ends with all
    workers returned has exactly that many. *)
Theorem pool_finishes_in_bounded_turns
    (env : Collab) (claimed : gset string) (batch : list Contact) (conc n : nat)
    (p : Pool) :
  1 <= conc ->
  nsteps (pool_step env claimed batch) n (pool_init conc batch) p ->
  n <= 3 * length batch + workerCount conc batch
  /\ (~ all_done p -> exists q, pool_step env claimed batch p q)
  /\ (all_done p -> n = 3 * length batch + workerCount conc batch).
Proof.
  intros Hc Hn. pose proof (nsteps_measure env claimed batch n _ _ Hn) as Hm.
  rewrite init_measure in Hm. split; [lia|]. split.
  - apply not_done_can_turn.
  - intros Hd.
    assert (rtc (pool_step env claimed batch) (pool_init conc batch) p) as Hr
      by (by eapply rtc_nsteps_2).
    pose proof (cursor_past_batch env claimed batch conc p Hc Hr Hd) as Hpast.
    unfold pool_measure in Hm. rewrite (done_weight _ Hd) in Hm. lia.
Qed.

Lemma pool_finishes_in_bounded_turns_witness :
  let p := default (pool_init 1 [Sample.ana])
                   (run_turns Sample.env {[ "c1" ]} [Sample.ana] [0; 0; 0; 0]
                              (pool_init 1 [Sample.ana])) in
  1 <= 1
  /\ nsteps (pool_step Sample.env {[ "c1" ]} [Sample.ana]) 4
            (pool_init 1 [Sample.ana]) p
  /\ 4 <= 3 * length [Sample.ana] + workerCount 1 [Sample.ana]
  /\ (~ all_done p ->
      exists q, pool_step Sample.env {[ "c1" ]} [Sample.ana] p q)
  /\ (all_done p -> 4 = 3 * length [Sample.ana] + workerCount 1 [Sample.ana]).
Proof.
  intros p.
  assert (1 <= 1) as H1 by lia.
  assert (nsteps (pool_step Sample.env {[ "c1" ]} [Sample.ana]) 4
            (pool_init 1 [Sample.ana]) p) as Hn
    by (apply (run_turns_nsteps Sample.env {[ "c1" ]} [Sample.ana] [0; 0; 0; 0]);
        reflexivity).
  split; [exact H1|]. split; [exact Hn|].
  exact (pool_finishes_in_bounded_turns Sample.env {[ "c1" ]} [Sample.ana] 1 4
           p H1 Hn).
Defined.

(** ** What a batch step reports and feeds back *)

Lemma step_run_cases env run i db batch r :
  sendBatchStep_runs env run i db batch r ->
  (step_batch r = batch0 /\ step_stableBatch r = stable_batch env batch0)
  \/ exists cr db' final,
       batch_prelude env run db batch = PClaimed cr db'
       /\ pool_runs env (claimedIds cr) batch (concurrency run) final
       /\ r = mkStepResult Returned
                           (batch_finish env run i batch db' cr (shared final))
                           (shared final) (stable_batch env (shared final)).
Proof.
  intros [e Hp | db' Hp | cr db' final Hp Hpool]; [by left|by left|].
  right. by exists cr, db', final.
Qed.

(** The throttle feedback of a batch step follows the throughput error:
    with the adaptive throttle enabled, [recordThroughputExceeded] is called
    (once) exactly when one of the requests of the step was answered with
    the code 130429, and [recordStableBatch] exactly when none was, also
    when the step returned early or threw; so there is exactly one of the
    two signals.  With the throttle disabled there is neither. *)
Theorem throttle_feedback_exclusive
    (env : Collab) (run : Run) (i : nat) (db : Db) (batch : list Contact)
    (r : StepResult) :
  sendBatchStep_runs env run i db batch r ->
  let hit := exists c, c ∈ metaCalls (step_batch r) /\ answered_130429 env c in
  (throttleDecreases (step_batch r) = 1 <-> adaptiveEnabled env = true /\ hit)
  /\ (throttleDecreases (step_batch r) = 0 <-> ~ (adaptiveEnabled env = true /\ hit))
  /\ (step_stableBatch r = true <-> adaptiveEnabled env = true /\ ~ hit)
  /\ (if step_stableBatch r then 1 else 0) + throttleDecreases (step_batch r)
     = (if adaptiveEnabled env then 1 else 0).
Proof.
  intros Hruns hit. subst hit.
  assert (throttleDecreases (step_batch r)
          = (if sawThroughput429 (step_batch r) then 1 else 0)
          /\ (sawThroughput429 (step_batch r) = true <->
              adaptiveEnabled env = true
              /\ exists c, c ∈ metaCalls (step_batch r) /\ answered_130429 env c)
          /\ step_stableBatch r = stable_batch env (step_batch r)) as (Ht & Hf & Hs).
  { destruct (step_run_cases env run i db batch r Hruns)
      as [[-> ->]|(cr & db' & final & _ & [Hr _] & ->)]; simpl.
    - split; [done|]. split; [|done]. split; [discriminate|].
      intros (_ & c & Hc & _). by apply not_elem_of_nil in Hc.
    - split; [apply (throttle_invariant env (claimedIds cr) batch _ final Hr)|].
      split; [apply (flag_invariant env (claimedIds cr) batch _ final Hr)|done]. }
  rewrite Ht, Hs. unfold stable_batch.
  destruct (sawThroughput429 (step_batch r)) eqn:Hsaw.
  - destruct (proj1 Hf eq_refl) as [Ha Hhit]. rewrite Ha. simpl.
    repeat split; auto; try discriminate; try tauto.
  - assert (~ (adaptiveEnabled env = true
               /\ exists c, c ∈ metaCalls (step_batch r) /\ answered_130429 env c))
      as Hn by (intros H; apply Hf in H; discriminate).
    destruct (adaptiveEnabled env) eqn:Ha; simpl;
      repeat split; auto; try discriminate; try tauto.
Qed.

Lemma throttle_feedback_exclusive_witness :
  let r := sendBatchStep Sample.env Sample.run 0 Sample.db Sample.batch in
  let hit :=
    exists c, c ∈ metaCalls (step_batch r) /\ answered_130429 Sample.env c in
  sendBatchStep_runs Sample.env Sample.run 0 Sample.db Sample.batch r
  /\ (throttleDecreases (step_batch r) = 1 <-> adaptiveEnabled Sample.env = true /\ hit)
  /\ (throttleDecreases (step_batch r) = 0 <->
      ~ (adaptiveEnabled Sample.env = true /\ hit))
  /\ (step_stableBatch r = true <-> adaptiveEnabled Sample.env = true /\ ~ hit)
  /\ (if step_stableBatch r then 1 else 0) + throttleDecreases (step_batch r)
     = (if adaptiveEnabled Sample.env then 1 else 0).
Proof.
  intros r hit.
  assert (sendBatchStep_runs Sample.env Sample.run 0 Sample.db Sample.batch r) as Hr
    by apply sendBatchStep_runs_sched.
  split; [exact Hr|].
  exact (throttle_feedback_exclusive Sample.env Sample.run 0 Sample.db Sample.batch
           r Hr).
Defined.



(** ** What persistence does to the rows *)

Lemma assign_all_app l1 l2 (base : Row) :
  assign_all (l1 ++ l2) base = assign_all l2 (assign_all l1 base).
Proof. unfold assign_all. apply foldl_app. Qed.

Lemma assign_all_other l (base : Row) k :
  Forall (fun a => forall k' v, a = Some (k', v) -> k' <> k) l ->
  assign_all l base !! k = base !! k.
Proof.
  intros Hl. revert base. induction Hl as [|a l Ha _ IH]; intros base; [done|].
  change (assign_all (a :: l) base)
    with (assign_all l (match a with Some (k', v) => <[k' := v]> base | None => base end)).
  rewrite IH. destruct a as [[k' v]|]; [|done].
  rewrite lookup_insert_ne; [done|]. by eapply Ha.
Qed.

Ltac other_columns :=
  repeat (constructor;
          [ intros ? ?; unfold assign, assign_if; repeat case_match;
            intros [= <- <-]; done
          | ]);
  constructor.

Lemma upsert_row_status env camp op :
  upsert_row env camp op !! "status" = Some (JStr (Outcome_str (wo_status op))).
Proof.
  unfold upsert_row. destruct (wo_status op);
    (rewrite assign_all_other; [reflexivity|other_columns]).
Qed.

Lemma upsert_row_contact_id env camp op :
  Js.to_string (col (upsert_row env camp op) "contact_id")
  = contactId_String (wo_contact op).
Proof.
  unfold col, upsert_row. destruct (wo_status op);
    (rewrite assign_all_other; [reflexivity|other_columns]).
Qed.

Lemma status_update_status env st o :
  status_update env st o !! "status" = Some (JStr (Outcome_str st)).
Proof.
  assert (forall v b w,
            assign_all [assign "status" v; assign_if b "trace_id" w] ∅ !! "status"
            = Some v) as Hbase.
  { intros v b w. rewrite (assign_all_app [assign "status" v] [assign_if b "trace_id" w]).
    rewrite assign_all_other by other_columns. apply lookup_insert_eq. }
  unfold status_update. destruct st; repeat case_decide; try congruence;
    (rewrite assign_all_other; [apply Hbase|other_columns]).
Qed.


Lemma upsert_write_eq t id (r : Row) v :
  r !! "status" = Some v ->
  status_in (<[id := apply_update r (default ∅ (t !! id))]> t) id = v.
Proof.
  intros Hr. unfold status_in. rewrite lookup_insert_eq. simpl.
  by apply apply_update_col.
Qed.

Lemma upsert_write_ne t id id' (r : Row) :
  id <> id' ->
  status_in (<[id := apply_update r (default ∅ (t !! id))]> t) id' = status_in t id'.
Proof. intros Hne. unfold status_in. by rewrite lookup_insert_ne. Qed.

Lemma update_write_eq t id (u : Row) v :
  u !! "status" = Some v -> is_Some (t !! id) ->
  status_in (alter (apply_update u) id t) id = v.
Proof.
  intros Hu [r Hr]. unfold status_in. rewrite lookup_alter_eq, Hr. simpl.
  by apply apply_update_col.
Qed.

Lemma update_write_ne t id id' (u : Row) :
  id <> id' -> status_in (alter (apply_update u) id t) id' = status_in t id'.
Proof. intros Hne. unfold status_in. by rewrite lookup_alter_ne. Qed.


Lemma db_upsert_ok_table env camp db ops :
  db_upsert_ok db = true ->
  db_upsert db (upsert_row env camp <$> ops)
  = (QData (), set_contacts (foldl (upsert_one env camp) (campaign_contacts db) ops) db).
Proof.
  intros Hok. unfold db_upsert. rewrite Hok. do 2 f_equal.
  generalize (campaign_contacts db). induction ops as [|op ops IH]; intros t; [done|].
  simpl. rewrite IH. f_equal. unfold upsert_one.
  by rewrite upsert_row_contact_id.
Qed.

Lemma fallback_table env db ops :
  foldl (fun d op =>
           updateContactStatus env d (contactId_String (wo_contact op))
                               (wo_status op) (wo_opts op)) db ops
  = set_contacts (foldl (update_one env (db_update_ok db)) (campaign_contacts db) ops)
                 db.
Proof.
  revert db. induction ops as [|op ops IH]; intros db.
  - by destruct db.
  - simpl. unfold updateContactStatus at 2. unfold update_one at 2.
    destruct (db_update_ok db (contactId_String (wo_contact op))) eqn:Hok.
    + by rewrite IH.
    + by rewrite IH.
Qed.

(** The table [persist] leaves, by the path taken. *)
Lemma persist_table env camp db ops :
  persist env camp db ops
  = if db_upsert_ok db
    then set_contacts (foldl (upsert_one env camp) (campaign_contacts db) ops) db
    else set_contacts (foldl (update_one env (db_update_ok db))
                             (campaign_contacts db) ops) db.
Proof.
  unfold persist. destruct ops as [|op ops].
  - destruct db; simpl. by destruct (db_upsert_ok0).
  - destruct (db_upsert_ok db) eqn:Hok.
    + by rewrite db_upsert_ok_table.
    + unfold db_upsert. rewrite Hok. by rewrite fallback_table.
Qed.






Lemma outcome_terminal st : terminal_status (JStr (Outcome_str st)).
Proof. unfold terminal_status. destruct st; auto. Qed.

Lemma foldl_status_written
    (write : gmap string Row -> PendingWriteOp -> gmap string Row)
    (t : gmap string Row) ops id :
  (forall t op, is_Some (t !! id) -> is_Some (write t op !! id)) ->
  (forall t op, contactId_String (wo_contact op) = id -> is_Some (t !! id) ->
                status_in (write t op) id = JStr (Outcome_str (wo_status op))) ->
  (forall t op, contactId_String (wo_contact op) <> id ->
                status_in (write t op) id = status_in t id) ->
  is_Some (t !! id) ->
  (exists op, op ∈ ops /\ contactId_String (wo_contact op) = id) ->
  is_Some (foldl write t ops !! id)
  /\ exists op, op ∈ ops /\ contactId_String (wo_contact op) = id
                /\ status_in (foldl write t ops) id = JStr (Outcome_str (wo_status op)).
Proof.
  intros Ha Hb Hc Ht.
  assert (forall ops, is_Some (foldl write t ops !! id)) as Hex.
  { clear -Ha Ht. intros ops. induction ops as [|op ops IH] using rev_ind; [done|].
    rewrite foldl_app. simpl. by apply Ha. }
  split; [apply Hex|]. revert H.
  induction ops as [|op ops IH] using rev_ind.
  - by intros (op & ?%not_elem_of_nil & _).
  - intros (op' & Hin & Hid). rewrite foldl_app. simpl.
    destruct (decide (contactId_String (wo_contact op) = id)) as [Heq|Hne].
    + exists op. split; [apply elem_of_app; right; by left|]. split; [done|].
      by apply Hb.
    + apply elem_of_app in Hin as [Hin|Hin%list_elem_of_singleton]; [|congruence].
      destruct IH as (op'' & Hin'' & Hid'' & Hst); [by exists op'|].
      exists op''. split; [apply elem_of_app; by left|]. split; [done|].
      by rewrite Hc.
Qed.

(** The row of a contact that has an outcome and exists carries, after
    persisting, the status of one of the outcomes of that contact, on the
    bulk path and, if the update of that row succeeds, on the fallback path. *)
Lemma persist_written env camp db ops id :
  db_upsert_ok db = true \/ db_update_ok db id = true ->
  is_Some (campaign_contacts db !! id) ->
  (exists op, op ∈ ops /\ contactId_String (wo_contact op) = id) ->
  exists op, op ∈ ops /\ contactId_String (wo_contact op) = id
             /\ row_status (persist env camp db ops) id
                = JStr (Outcome_str (wo_status op)).
Proof.
  intros Hok Hex Hop. rewrite persist_table. unfold row_status.
  destruct (db_upsert_ok db) eqn:Hup; simpl.
  - apply (foldl_status_written (upsert_one env camp)); auto.
    + intros t op Hs. unfold upsert_one.
      destruct (decide (contactId_String (wo_contact op) = id)) as [->|Hne].
      * rewrite lookup_insert_eq. eauto.
      * rewrite lookup_insert_ne by done. done.
    + intros t op <- _. apply upsert_write_eq, upsert_row_status.
    + intros t op Hne. by apply upsert_write_ne.
  - destruct Hok as [?|Hok]; [discriminate|].
    apply (foldl_status_written (update_one env (db_update_ok db))); auto.
    + intros t op Hs. unfold update_one.
      destruct (db_update_ok db (contactId_String (wo_contact op))); [|done].
      by apply lookup_alter_is_Some.
    + intros t op <- Hs. unfold update_one. rewrite Hok.
      apply update_write_eq; [apply status_update_status|done].
    + intros t op Hne. unfold update_one.
      destruct (db_update_ok db (contactId_String (wo_contact op))); [|done].
      by apply update_write_ne.
Qed.

(** A row whose bulk upsert is rejected and whose own update fails keeps
    the status it had. *)
Lemma persist_lost env camp db ops id :
  db_upsert_ok db = false -> db_update_ok db id = false ->
  row_status (persist env camp db ops) id = row_status db id.
Proof.
  intros Hup Hok. rewrite persist_table, Hup. unfold row_status. simpl.
  induction ops as [|op ops IH] using rev_ind; [done|].
  rewrite foldl_app. simpl. unfold update_one at 1.
  destruct (db_update_ok db (contactId_String (wo_contact op))) eqn:Ho; [|done].
  rewrite lookup_alter_ne; [done|]. intros Heq. rewrite Heq in Ho. congruence.
Qed.

(** What a store operation leaves alone. *)
Lemma persist_keeps env camp db ops :
  campaign (persist env camp db ops) = campaign db
  /\ db_up (persist env camp db ops) = db_up db
  /\ db_upsert_ok (persist env camp db ops) = db_upsert_ok db
  /\ db_update_ok (persist env camp db ops) = db_update_ok db
  /\ db_metrics_ok (persist env camp db ops) = db_metrics_ok db
  /\ campaign_batch_metrics (persist env camp db ops) = campaign_batch_metrics db.
Proof. rewrite persist_table. by destruct (db_upsert_ok db) eqn:Hk. Qed.

Lemma bulkClaim_keeps db cids t now :
  campaign (bulkClaimPendingForSend db cids t now).2 = campaign db
  /\ db_up (bulkClaimPendingForSend db cids t now).2 = db_up db
  /\ db_upsert_ok (bulkClaimPendingForSend db cids t now).2 = db_upsert_ok db
  /\ db_update_ok (bulkClaimPendingForSend db cids t now).2 = db_update_ok db
  /\ db_metrics_ok (bulkClaimPendingForSend db cids t now).2 = db_metrics_ok db
  /\ campaign_batch_metrics (bulkClaimPendingForSend db cids t now).2
     = campaign_batch_metrics db.
Proof.
  destruct (db_up db) eqn:Hup.
  - by destruct (bulkClaim_up db cids t now Hup) as (hit & -> & _).
  - by rewrite bulkClaim_store_down.
Qed.

Lemma counters_keep_rows env db first b :
  campaign_contacts (update_campaign_counters env db first b) = campaign_contacts db
  /\ db_up (update_campaign_counters env db first b) = db_up db
  /\ db_upsert_ok (update_campaign_counters env db first b) = db_upsert_ok db
  /\ db_update_ok (update_campaign_counters env db first b) = db_update_ok db
  /\ db_metrics_ok (update_campaign_counters env db first b) = db_metrics_ok db
  /\ campaign_batch_metrics (update_campaign_counters env db first b)
     = campaign_batch_metrics db.
Proof. unfold update_campaign_counters. by destruct (campaign db). Qed.

Lemma prelude_claimed_inv env run db batch cr db' :
  batch_prelude env run db batch = PClaimed cr db' ->
  templateFound run = true
  /\ status <$> campaign db <> Some PAUSED
  /\ (exists u, (if adaptiveEnabled env then getAdaptiveThrottleState run else Ret ())
                = Ret u)
  /\ bulkClaimPendingForSend db ((fun c => Some (contactId_String c)) <$> batch)
                             (JStr (run_traceId env)) (now_iso env) = (cr, db')
  /\ claimedIds cr <> ∅.
Proof.
  unfold batch_prelude.
  destruct (templateFound run); [|discriminate]. simpl.
  case_bool_decide as Hp; [discriminate|].
  destruct (if adaptiveEnabled env then getAdaptiveThrottleState run else Ret ())
    as [u|]; [|discriminate].
  destruct (bulkClaimPendingForSend _ _ _ _) as [cr0 db0].
  destruct (decide (claimedIds cr0 = ∅)); [discriminate|].
  intros [= <- <-]. eauto 10.
Qed.

Lemma prelude_return_inv env run db batch db' :
  batch_prelude env run db batch = PReturn db' ->
  (status <$> campaign db = Some PAUSED /\ db' = db)
  \/ (status <$> campaign db <> Some PAUSED
      /\ templateFound run = true
      /\ (exists u, (if adaptiveEnabled env then getAdaptiveThrottleState run
                     else Ret ()) = Ret u)
      /\ exists cr,
           bulkClaimPendingForSend db ((fun c => Some (contactId_String c)) <$> batch)
                                   (JStr (run_traceId env)) (now_iso env) = (cr, db')
           /\ claimedIds cr = ∅).
Proof.
  unfold batch_prelude.
  destruct (templateFound run); [|discriminate]. simpl.
  case_bool_decide as Hp; [intros [= <-]; by left|].
  destruct (if adaptiveEnabled env then getAdaptiveThrottleState run else Ret ())
    as [u|]; [|discriminate].
  destruct (bulkClaimPendingForSend _ _ _ _) as [cr0 db0].
  destruct (decide (claimedIds cr0 = ∅)); [|discriminate].
  intros [= <-]. right. eauto 10.
Qed.


Lemma claimed_row_exists db cids t now cr db' id :
  bulkClaimPendingForSend db cids t now = (cr, db') ->
  id ∈ claimedIds cr ->
  db_up db' = true /\ is_Some (campaign_contacts db' !! id).
Proof.
  intros Hcl Hid. destruct (db_up db) eqn:Hup.
  - destruct (bulkClaim_up db cids t now Hup) as (hit & Heq & Hhit & Hnd).
    rewrite Heq in Hcl. injection Hcl as <- <-. simpl in *.
    split; [done|]. apply elem_of_list_to_set in Hid.
    rewrite lookup_foldr_alter by done. rewrite decide_True by done.
    apply Hhit in Hid as [_ Hp].
    destruct (campaign_contacts db !! id); [eauto|done].
  - rewrite bulkClaim_store_down in Hcl by done. injection Hcl as <- <-.
    by apply not_elem_of_empty in Hid.
Qed.


(** ** Counters, rows and replay of a batch step *)





Lemma prelude_return_keeps env run db batch db' :
  batch_prelude env run db batch = PReturn db' -> campaign db' = campaign db.
Proof.
  intros [[_ ->]|(_ & _ & _ & cr & Hcl & _)]%prelude_return_inv; [done|].
  pose proof (bulkClaim_keeps db ((fun c => Some (contactId_String c)) <$> batch)
                (JStr (run_traceId env)) (now_iso env)) as (Hc & _).
  by rewrite Hcl in Hc.
Qed.

(** The rows a finished pool leaves, before and after the [finally] block
    and the counter update. *)
Lemma batch_finish_rows env run i batch db cr b :
  campaign_contacts (batch_finish env run i batch db cr b)
  = campaign_contacts (persist env (campaignId run) db (writeOps b)).
Proof.
  unfold batch_finish.
  destruct (counters_keep_rows env
              (batch_finally env run i batch b
                 (persist env (campaignId run) db (writeOps b)))
              (claimedAt cr) b) as (-> & _).
  by destruct (batch_finally_spec env run i batch b
                 (persist env (campaignId run) db (writeOps b))) as (_ & -> & _).
Qed.

(** A batch step adds to each counter of the campaign the number of
    outcomes of that status that it recorded, so that the three counters
    together grow by the number of outcomes; it changes neither the number
    of recipients nor the status nor the start and completion times. *)
Theorem step_adds_its_outcomes_to_counters
    (env : Collab) (run : Run) (i : nat) (db : Db) (batch : list Contact)
    (r : StepResult) (c : Campaign) :
  sendBatchStep_runs env run i db batch r ->
  campaign db = Some c ->
  let ops := writeOps (step_batch r) in
  exists c',
    campaign (step_db r) = Some c'
    /\ c_sent c' = (c_sent c + Z.of_nat (length (with_status sent ops)))%Z
    /\ c_failed c' = (c_failed c + Z.of_nat (length (with_status failed ops)))%Z
    /\ c_skipped c' = (c_skipped c + Z.of_nat (length (with_status skipped ops)))%Z
    /\ (c_sent c' + c_failed c' + c_skipped c'
        = c_sent c + c_failed c + c_skipped c + Z.of_nat (length ops))%Z
    /\ recipients c' = recipients c /\ status c' = status c
    /\ startedAt c' = startedAt c /\ completedAt c' = completedAt c.
Proof.
  intros Hruns Hc ops. subst ops.
  destruct Hruns as [e Hp | db' Hp | cr db' final Hp [Hr Hd]]; simpl.
  - exists c.
    destruct (batch_finally_spec env run i batch batch0 db) as (-> & _).
    rewrite Hc. repeat split; auto; lia.
  - exists c.
    destruct (batch_finally_spec env run i batch batch0 db') as (-> & _).
    rewrite (prelude_return_keeps _ _ _ _ _ Hp), Hc.
    repeat split; auto; lia.
  - apply prelude_claimed_inv in Hp as (_ & _ & _ & Hcl & _).
    pose proof (bulkClaim_keeps db ((fun c => Some (contactId_String c)) <$> batch)
                  (JStr (run_traceId env)) (now_iso env)) as (Hc' & _).
    rewrite Hcl in Hc'. simpl in Hc'.
    pose proof (persist_keeps env (campaignId run) db' (writeOps (shared final)))
      as (Hc'' & _).
    destruct (batch_finally_spec env run i batch (shared final)
                (persist env (campaignId run) db' (writeOps (shared final))))
      as (Hc3 & _).
    unfold batch_finish, update_campaign_counters.
    rewrite Hc3, Hc'', Hc', Hc. simpl. eexists. split; [reflexivity|]. simpl.
    pose proof (status_counters_invariant env (claimedIds cr) batch _ final Hr)
      as (H1 & H2 & H3).
    pose proof (counters_invariant env (claimedIds cr) batch _ final Hr) as Hsum.
    rewrite <- H1, <- H2, <- H3.
    repeat split; auto; lia.
Qed.

Lemma step_adds_its_outcomes_to_counters_witness :
  let r := sendBatchStep Sample.env Sample.run 0 Sample.db Sample.batch in
  let ops := writeOps (step_batch r) in
  let c := Sample.camp in
  sendBatchStep_runs Sample.env Sample.run 0 Sample.db Sample.batch r
  /\ campaign Sample.db = Some c
  /\ exists c',
       campaign (step_db r) = Some c'
       /\ c_sent c' = (c_sent c + Z.of_nat (length (with_status sent ops)))%Z
       /\ c_failed c' = (c_failed c + Z.of_nat (length (with_status failed ops)))%Z
       /\ c_skipped c' = (c_skipped c + Z.of_nat (length (with_status skipped ops)))%Z
       /\ (c_sent c' + c_failed c' + c_skipped c'
           = c_sent c + c_failed c + c_skipped c + Z.of_nat (length ops))%Z
       /\ recipients c' = recipients c /\ status c' = status c
       /\ startedAt c' = startedAt c /\ completedAt c' = completedAt c.
Proof.
  intros r ops c.
  assert (sendBatchStep_runs Sample.env Sample.run 0 Sample.db Sample.batch r) as Hr
    by apply sendBatchStep_runs_sched.
  split; [exact Hr|]. split; [reflexivity|].
  exact (step_adds_its_outcomes_to_counters Sample.env Sample.run 0 Sample.db
           Sample.batch r c Hr eq_refl).
Defined.




(** After a batch step that claimed, a contact of the batch whose id, as
    the payload gives it, is in the claimed set is not left in `sending',
    provided its outcome reaches the store: the bulk upsert is accepted, or
    the update of the row of that contact succeeds.  Its row then carries
    the status of one of its outcomes. *)
Theorem claimed_rows_end_with_an_outcome
    (env : Collab) (run : Run) (i : nat) (db db' : Db) (batch : list Contact)
    (cr : ClaimResult) (final : Pool) (c : Contact) :
  batch_prelude env run db batch = PClaimed cr db' ->
  pool_runs env (claimedIds cr) batch (concurrency run) final ->
  c ∈ batch -> is_claimed (claimedIds cr) c ->
  db_upsert_ok db = true \/ db_update_ok db (contactId_String c) = true ->
  exists op,
    op ∈ writeOps (shared final)
    /\ contactId_String (wo_contact op) = contactId_String c
    /\ row_status (batch_finish env run i batch db' cr (shared final))
                  (contactId_String c)
       = JStr (Outcome_str (wo_status op))
    /\ terminal_status
         (row_status (batch_finish env run i batch db' cr (shared final))
                     (contactId_String c)).
Proof.
  intros Hp Hpool Hin Hcl Hok.
  pose proof (prelude_claimed_inv _ _ _ _ _ _ Hp) as (_ & _ & _ & Hclaim & _).
  destruct (claimed_row_exists _ _ _ _ _ _ _ Hclaim Hcl) as [Hup Hex].
  assert (db_upsert_ok db' = true \/ db_update_ok db' (contactId_String c) = true)
    as Hok'.
  { pose proof (bulkClaim_keeps db ((fun c => Some (contactId_String c)) <$> batch)
                  (JStr (run_traceId env)) (now_iso env)) as (_ & _ & H2 & H3 & _).
    rewrite Hclaim in H2, H3. simpl in H2, H3. by rewrite H2, H3. }
  assert (wo_contact <$> writeOps (shared final)
          ≡ₚ filter (is_claimed (claimedIds cr)) batch) as Hperm
    by exact (pool_runs_outcomes env (claimedIds cr) batch (concurrency run) final
                (concurrency_of_pos _) Hpool).
  assert (c ∈ (wo_contact <$> writeOps (shared final))) as Hc.
  { rewrite Hperm. by apply list_elem_of_filter. }
  apply list_elem_of_fmap in Hc as (op0 & -> & Hop0).
  destruct (persist_written env (campaignId run) db' (writeOps (shared final))
              (contactId_String (wo_contact op0)) Hok' Hex)
    as (op & Hop & Hid & Hst); [eauto|].
  exists op. split; [done|]. split; [done|].
  assert (row_status (batch_finish env run i batch db' cr (shared final))
                     (contactId_String (wo_contact op0))
          = JStr (Outcome_str (wo_status op))) as Heq.
  { unfold row_status. rewrite batch_finish_rows. exact Hst. }
  split; [done|]. rewrite Heq. apply outcome_terminal.
Qed.

Lemma claimed_rows_end_with_an_outcome_witness :
  let cr := mkClaimResult (Some Sample.t2) {[ "c1" ]} in
  let db' := (bulkClaimPendingForSend Sample.db_replay
                ((fun c => Some (contactId_String c)) <$> Sample.batch3)
                (JStr (run_traceId Sample.env)) (now_iso Sample.env)).2 in
  let final := run_pool Sample.env {[ "c1" ]} Sample.batch3
                        (concurrency Sample.run) in
  batch_prelude Sample.env Sample.run Sample.db_replay Sample.batch3 = PClaimed cr db'
  /\ pool_runs Sample.env (claimedIds cr) Sample.batch3 (concurrency Sample.run) final
  /\ Sample.ana ∈ Sample.batch3
  /\ is_claimed (claimedIds cr) Sample.ana
  /\ (db_upsert_ok Sample.db_replay = true
      \/ db_update_ok Sample.db_replay (contactId_String Sample.ana) = true)
  /\ exists op,
    op ∈ writeOps (shared final)
    /\ contactId_String (wo_contact op) = contactId_String Sample.ana
    /\ row_status (batch_finish Sample.env Sample.run 0 Sample.batch3 db' cr
                                (shared final))
                  (contactId_String Sample.ana)
       = JStr (Outcome_str (wo_status op))
    /\ terminal_status
         (row_status (batch_finish Sample.env Sample.run 0 Sample.batch3 db' cr
                                   (shared final))
                     (contactId_String Sample.ana)).
Proof.
  intros cr db' final.
  assert (batch_prelude Sample.env Sample.run Sample.db_replay Sample.batch3
          = PClaimed cr db') as Hp by reflexivity.
  assert (pool_runs Sample.env (claimedIds cr) Sample.batch3
                    (concurrency Sample.run) final) as Hpool by apply run_pool_runs.
  assert (Sample.ana ∈ Sample.batch3) as Hin by left.
  assert (is_claimed (claimedIds cr) Sample.ana) as Hcl
    by (unfold is_claimed; simpl; apply elem_of_singleton; reflexivity).
  assert (db_upsert_ok Sample.db_replay = true
          \/ db_update_ok Sample.db_replay (contactId_String Sample.ana) = true)
    as Hok by (left; reflexivity).
  split; [exact Hp|]. split; [exact Hpool|]. split; [exact Hin|].
  split; [exact Hcl|]. split; [exact Hok|].
  exact (claimed_rows_end_with_an_outcome Sample.env Sample.run 0 Sample.db_replay db'
           Sample.batch3 cr final Sample.ana Hp Hpool Hin Hcl Hok).
Defined.

(** ** A claimed contact that gets no outcome *)

(** C6, where the code breaks it: a contact whose id comes with white space
    around it.  The payload check accepts it; the claim asks for the trimmed
    id, finds the pending row and sets it to [sending]; the guard of
    [processContact] looks up the id as given, does not find it and
    returns.  Whatever the interleaving, the claimed contact gets no request
    and no outcome, no counter moves, and its row is left in [sending]. *)
Theorem padded_contact_claimed_without_outcome (r : StepResult) :
  sendBatchStep_runs Sample.env Sample.run 0 Sample.db [Sample.padded] r ->
  missingContactIds [Sample.padded] = []
  /\ row_status Sample.db "c1" = JStr "pending"
  /\ claimedIds (bulkClaimPendingForSend Sample.db
                   [Some (contactId_String Sample.padded)]
                   (JStr (run_traceId Sample.env)) (now_iso Sample.env)).1
     = {[ "c1" ]}
  /\ step_end r = Returned
  /\ metaCalls (step_batch r) = []
  /\ writeOps (step_batch r) = []
  /\ sentCount (step_batch r) + failedCount (step_batch r)
     + skippedCount (step_batch r) = 0
  /\ row_status (step_db r) "c1" = JStr "sending".
Proof.
  intros Hruns.
  set (cr := mkClaimResult (Some Sample.t2) {[ "c1" ]}).
  set (db' := (bulkClaimPendingForSend Sample.db
                 [Some (contactId_String Sample.padded)]
                 (JStr (run_traceId Sample.env)) (now_iso Sample.env)).2).
  assert (batch_prelude Sample.env Sample.run Sample.db [Sample.padded]
          = PClaimed cr db') as Hp0 by reflexivity.
  split; [reflexivity|]. split; [reflexivity|]. split; [reflexivity|].
  destruct Hruns as [e Hp | db'' Hp | cr' db'' final Hp Hpool];
    rewrite Hp0 in Hp; [discriminate|discriminate|].
  injection Hp as <- <-. simpl.
  assert (filter (is_claimed (claimedIds cr)) [Sample.padded] = []) as Hnone.
  { rewrite filter_cons_False; [done|]. unfold is_claimed. simpl.
    intros H%elem_of_singleton. discriminate. }
  assert (writeOps (shared final) = []) as Hops.
  { pose proof (pool_runs_outcomes Sample.env (claimedIds cr) [Sample.padded]
                  (concurrency Sample.run) final (concurrency_of_pos _) Hpool) as Hperm.
    rewrite Hnone in Hperm. apply Permutation_nil_r in Hperm.
    by apply fmap_nil_inv in Hperm. }
  destruct Hpool as [Hr Hd].
  assert (metaCalls (shared final) = []) as Hcalls.
  { pose proof (requests_invariant Sample.env (claimedIds cr) [Sample.padded]
                  (concurrency Sample.run) final Hr) as Hsub.
    rewrite Hnone in Hsub. apply submseteq_nil_r in Hsub.
    by apply app_eq_nil in Hsub as [? _]. }
  split; [done|]. split; [done|]. split; [done|]. split.
  - rewrite (counters_invariant Sample.env (claimedIds cr) [Sample.padded]
               (concurrency Sample.run) final Hr).
    by rewrite Hops.
  - unfold row_status. rewrite batch_finish_rows, Hops. reflexivity.
Qed.

Lemma padded_contact_claimed_without_outcome_witness :
  let r := sendBatchStep Sample.env Sample.run 0 Sample.db [Sample.padded] in
  sendBatchStep_runs Sample.env Sample.run 0 Sample.db [Sample.padded] r
  /\ missingContactIds [Sample.padded] = []
  /\ row_status Sample.db "c1" = JStr "pending"
  /\ claimedIds (bulkClaimPendingForSend Sample.db
                   [Some (contactId_String Sample.padded)]
                   (JStr (run_traceId Sample.env)) (now_iso Sample.env)).1
     = {[ "c1" ]}
  /\ step_end r = Returned
  /\ metaCalls (step_batch r) = []
  /\ writeOps (step_batch r) = []
  /\ sentCount (step_batch r) + failedCount (step_batch r)
     + skippedCount (step_batch r) = 0
  /\ row_status (step_db r) "c1" = JStr "sending".
Proof.
  intros r.
  assert (sendBatchStep_runs Sample.env Sample.run 0 Sample.db [Sample.padded] r)
    as Hr by apply sendBatchStep_runs_sched.
  split; [exact Hr|].
  exact (padded_contact_claimed_without_outcome r Hr).
Defined.

(** The same contact with its id as stored is sent: the only difference is
    the white space. *)
Example unpadded_contact_is_sent :
  let r := sendBatchStep Sample.env Sample.run 0 Sample.db [Sample.ana] in
  wo_status <$> writeOps (step_batch r) = [sent]
  /\ row_status (step_db r) "c1" = JStr "sent".
Proof. split; vm_compute; reflexivity. Qed.

(** A contact listed twice in a batch is claimed once and passes the guard
    twice: two workers send to it, and two outcomes are recorded. *)
Example duplicate_entry_sent_twice :
  exists final,
    run_turns Sample.env {[ "c1" ]} [Sample.ana; Sample.ana]
              [0; 1; 0; 1; 0; 1; 0; 1] (pool_init 2 [Sample.ana; Sample.ana])
    = Some final
    /\ workers final = [WDone; WDone]
    /\ pulls final = [(0, 0); (1, 1)]
    /\ metaCalls (shared final) = [Sample.ana; Sample.ana]
    /\ wo_status <$> writeOps (shared final) = [sent; sent].
Proof. eexists. split; [vm_compute; reflexivity|]. repeat split. Qed.

(** ** The whole run *)

Section SentNeedsRequest.
Variable env : Collab.
Variable claimed : gset string.
Variable batch : list Contact.

Lemma attempt_sent_request c b op :
  (attempt env claimed c b).2 = Some op -> wo_status op = sent ->
  metaCalls (attempt env claimed c b).1 = metaCalls b ++ [c].
Proof.
  unfold attempt.
  destruct (guard_phase env claimed c) as [[| code reason | np]|e]; simpl;
    try (by intros [= <-]).
  destruct (r ← meta_fetch env c np; classify r) as [[id|d]|e]; simpl;
    try (by intros [= <-]).
  match goal with |- context [if ?x then _ else _] => destruct x; simpl end;
    [destruct (recordThroughputExceeded env) as [[]|e]; simpl|];
    by intros [= <-].
Qed.

(** No outcome is counted as sent without its request. *)
Lemma sent_count_invariant conc p :
  rtc (pool_step env claimed batch) (pool_init conc batch) p ->
  sentCount (shared p) + sum_list_with pending_sent (workers p)
  <= length (metaCalls (shared p)).
Proof.
  intros Hr; pattern p; eapply (pool_reach_ind env claimed batch); [ | |exact Hr];
    clear; [simpl; induction (workerCount conc batch); simpl; lia|].
  intros w p q Ht Hp.
  destruct Ht as [Hw0 Hb | c Hw0 Hb | idx c Hw0 | idx r Hw0]; simpl.
  - pose proof (sum_insert pending_sent _ _ WDone _ Hw0) as Hs. simpl in Hs. lia.
  - pose proof (sum_insert pending_sent _ _ (WHold (nextIndex p) c) _ Hw0) as Hs.
    simpl in Hs. lia.
  - pose proof (sum_insert pending_sent _ _
                  (WCommit idx (attempt env claimed c (shared p)).2) _ Hw0) as Hs.
    destruct (attempt_counters env claimed c (shared p)) as (-> & _).
    cbn [pending_sent] in Hs.
    destruct (attempt env claimed c (shared p)).2 as [op|] eqn:Ha.
    + destruct (decide (wo_status op = sent)) as [Hst|Hst].
      * rewrite (attempt_sent_request c (shared p) op Ha Hst), length_app. simpl. lia.
      * destruct (attempt_metaCalls env claimed c (shared p)) as [->|[_ ->]];
          rewrite ?length_app; simpl; lia.
    + destruct (attempt_metaCalls env claimed c (shared p)) as [->|[_ ->]];
        rewrite ?length_app; simpl; lia.
  - pose proof (sum_insert pending_sent _ _ WIdle _ Hw0) as Hs.
    rewrite commit_metaCalls. cbn [pending_sent] in Hs.
    destruct r as [op|]; simpl in *; [|lia].
    unfold pushWriteOp. destruct (wo_status op) eqn:Hst; simpl in *;
      repeat case_decide; try congruence; lia.
Qed.

End SentNeedsRequest.

(** What one batch step does to the campaign and what it sends. *)
Lemma step_campaign env run i db batch r c :
  sendBatchStep_runs env run i db batch r ->
  campaign db = Some c ->
  exists c',
    campaign (step_db r) = Some c' /\ campaign_grows c c'
    /\ (c_sent c' - c_sent c <= Z.of_nat (length (metaCalls (step_batch r))))%Z.
Proof.
  intros Hruns Hc.
  destruct Hruns as [e Hp | db' Hp | cr db' final Hp [Hr Hd]]; simpl.
  - exists c.
    destruct (batch_finally_spec env run i batch batch0 db) as (-> & _).
    rewrite Hc. unfold campaign_grows. repeat split; auto; lia.
  - exists c.
    destruct (batch_finally_spec env run i batch batch0 db') as (-> & _).
    rewrite (prelude_return_keeps _ _ _ _ _ Hp), Hc.
    unfold campaign_grows. repeat split; auto; lia.
  - apply prelude_claimed_inv in Hp as (_ & _ & _ & Hcl & _).
    pose proof (bulkClaim_keeps db ((fun c => Some (contactId_String c)) <$> batch)
                  (JStr (run_traceId env)) (now_iso env)) as (Hc' & _).
    rewrite Hcl in Hc'. simpl in Hc'.
    pose proof (persist_keeps env (campaignId run) db' (writeOps (shared final)))
      as (Hc'' & _).
    destruct (batch_finally_spec env run i batch (shared final)
                (persist env (campaignId run) db' (writeOps (shared final))))
      as (Hc3 & _).
    unfold batch_finish, update_campaign_counters.
    rewrite Hc3, Hc'', Hc', Hc. simpl. eexists. split; [reflexivity|].
    pose proof (sent_count_invariant env (claimedIds cr) batch _ final Hr) as Hs.
    unfold campaign_grows. simpl. repeat split; auto; lia.
Qed.

Lemma step_requests_in_batch env run i db batch r :
  sendBatchStep_runs env run i db batch r -> metaCalls (step_batch r) ⊆+ batch.
Proof.
  intros [e Hp | db' Hp | cr db' final Hp [Hr Hd]]; simpl;
    [apply submseteq_nil_l|apply submseteq_nil_l|].
  pose proof (requests_invariant env (claimedIds cr) batch _ final Hr) as Hinv.
  etrans; [|apply sublist_submseteq, (sublist_filter (is_claimed (claimedIds cr)))].
  etrans; [|exact Hinv]. by apply submseteq_inserts_r.
Qed.

Lemma campaign_grows_trans c1 c2 c3 :
  campaign_grows c1 c2 -> campaign_grows c2 c3 -> campaign_grows c1 c3.
Proof. unfold campaign_grows. intuition (congruence || lia). Qed.

(** The batch steps of a run: they run in index order up to the first that
    throws, send to entries of their own batch only, and leave a campaign
    that grew. *)
Lemma run_batches_spec env run bs : forall i acc c,
  wf_end acc = WfDone ->
  campaign (wf_db acc) = Some c ->
  let w := run_batches env run i bs acc in
  exists k c',
    k <= length bs
    /\ wf_steps w = wf_steps acc ++ (SendBatch <$> seq i k)
    /\ (wf_end w = WfDone -> k = length bs)
    /\ (forall e, wf_end w = WfFailed e -> 1 <= k)
    /\ wf_metaCalls w ⊆+ wf_metaCalls acc ++ concat bs
    /\ campaign (wf_db w) = Some c' /\ campaign_grows c c'
    /\ (c_sent c' - c_sent c
        <= Z.of_nat (length (wf_metaCalls w)) - Z.of_nat (length (wf_metaCalls acc)))%Z.
Proof.
  induction bs as [|batch bs IH]; intros i acc c Hacc Hc w; subst w.
  - exists 0, c. simpl. rewrite !app_nil_r.
    unfold campaign_grows. repeat split; auto; try lia. by rewrite Hacc.
  - cbn [run_batches].
    pose proof (sendBatchStep_runs_sched env run i (wf_db acc) batch) as Hruns.
    set (r := sendBatchStep env run i (wf_db acc) batch) in *.
    destruct (step_campaign env run i (wf_db acc) batch r c Hruns Hc)
      as (c1 & Hc1 & Hg1 & Hs1).
    pose proof (step_requests_in_batch env run i (wf_db acc) batch r Hruns) as Hsub.
    destruct (step_end r) as [|e] eqn:He.
    + destruct (IH (S i)
                   (mkWorkflowRun WfDone (step_db r) (wf_steps acc ++ [SendBatch i])
                                  (wf_metaCalls acc ++ metaCalls (step_batch r)))
                   c1 eq_refl Hc1) as (k & c' & Hk & Hsteps & Hdone & Hfail & Hm & Hc' & Hg & Hs).
      exists (S k), c'. cbn [wf_steps wf_metaCalls] in *.
      split; [simpl; lia|]. split.
      { rewrite Hsteps. rewrite <- app_assoc. done. }
      split; [intros Hd; simpl; f_equal; auto|].
      split; [intros; lia|]. split.
      { etrans; [exact Hm|]. cbn [concat]. rewrite <- !app_assoc.
        apply submseteq_app; [done|]. apply submseteq_app; [done|]. done. }
      split; [done|]. split; [by eapply campaign_grows_trans|].
      rewrite length_app in Hs. lia.
    + exists 1, c1. cbn [wf_steps wf_metaCalls wf_end wf_db seq fmap list_fmap].
      split; [simpl; lia|]. split; [done|]. split; [done|]. split; [intros; lia|].
      split.
      { cbn [concat]. apply submseteq_app; [done|]. by apply submseteq_inserts_r. }
      split; [done|]. split; [done|]. rewrite length_app. lia.
Qed.

Lemma workflow_unfold env run contacts db :
  missingContactIds contacts = [] ->
  workflow env run contacts db
  = let r := run_batches env run 0 (batches_of (BATCH_SIZE run) contacts)
                         (mkWorkflowRun WfDone (init_campaign env db) [InitCampaign] []) in
    match wf_end r with
    | WfFailed _ => r
    | WfDone =>
        mkWorkflowRun WfDone (complete_campaign env (wf_db r))
                      (wf_steps r ++ [CompleteCampaign]) (wf_metaCalls r)
    end.
Proof. intros Hm. unfold workflow. by rewrite Hm. Qed.

(** The steps of a run come in a fixed order: the init step, the batch steps
    by index, the completion step.  A run that fails in a batch step stops
    there: no later batch and no completion step runs. *)
Theorem workflow_steps_in_order
    (env : Collab) (run : Run) (contacts : list Contact) (db : Db) (c : Campaign) :
  missingContactIds contacts = [] ->
  campaign db = Some c ->
  let w := workflow env run contacts db in
  let n := length (batches_of (BATCH_SIZE run) contacts) in
  (wf_end w = WfDone ->
     wf_steps w = InitCampaign :: (SendBatch <$> seq 0 n) ++ [CompleteCampaign])
  /\ (forall e, wf_end w = WfFailed e ->
        exists k, 1 <= k <= n /\ wf_steps w = InitCampaign :: (SendBatch <$> seq 0 k)).
Proof.
  intros Hm Hc w n. subst w. rewrite workflow_unfold by done. cbv zeta.
  set (acc := mkWorkflowRun WfDone (init_campaign env db) [InitCampaign] []).
  assert (exists c0, campaign (wf_db acc) = Some c0)
    as [c0 Hc0] by (simpl; unfold init_campaign; rewrite Hc; simpl; eauto).
  destruct (run_batches_spec env run (batches_of (BATCH_SIZE run) contacts) 0 acc c0
              eq_refl Hc0) as (k & c' & Hk & Hsteps & Hdone & Hfail & _).
  fold n in Hk, Hdone.
  destruct (wf_end (run_batches env run 0 _ acc)) as [|e] eqn:He.
  - cbn [wf_end wf_steps]. split; [|by intros e0 [=]]. intros _. rewrite Hsteps.
    rewrite (Hdone eq_refl). done.
  - rewrite He. split; [by intros [=]|]. intros e' He'.
    exists k. split; [|done]. split; [by eapply Hfail|done].
Qed.

Lemma workflow_steps_in_order_witness :
  let w := workflow Sample.env Sample.run Sample.batch Sample.db in
  let n := length (batches_of (BATCH_SIZE Sample.run) Sample.batch) in
  missingContactIds Sample.batch = []
  /\ campaign Sample.db = Some Sample.camp
  /\ (wf_end w = WfDone ->
        wf_steps w = InitCampaign :: (SendBatch <$> seq 0 n) ++ [CompleteCampaign])
  /\ (forall e, wf_end w = WfFailed e ->
        exists k, 1 <= k <= n /\ wf_steps w = InitCampaign :: (SendBatch <$> seq 0 k)).
Proof.
  intros w n.
  assert (missingContactIds Sample.batch = []) as Hm by reflexivity.
  assert (campaign Sample.db = Some Sample.camp) as Hc by reflexivity.
  split; [exact Hm|]. split; [exact Hc|].
  exact (workflow_steps_in_order Sample.env Sample.run Sample.batch Sample.db
           Sample.camp Hm Hc).
Defined.

(** In a whole run every entry of the contact list gets at most one request:
    the requests of the run are a sub-multiset of the contact list. *)
Theorem workflow_at_most_one_request_per_entry
    (env : Collab) (run : Run) (contacts : list Contact) (db : Db) (c : Campaign) :
  campaign db = Some c ->
  wf_metaCalls (workflow env run contacts db) ⊆+ contacts
  /\ (NoDup contacts -> NoDup (wf_metaCalls (workflow env run contacts db))).
Proof.
  intros Hc.
  assert (wf_metaCalls (workflow env run contacts db) ⊆+ contacts) as Hsub.
  { destruct (missingContactIds contacts) as [|m ms] eqn:Hm.
    - rewrite workflow_unfold by done. cbv zeta.
      set (acc := mkWorkflowRun WfDone (init_campaign env db) [InitCampaign] []).
      assert (exists c0, campaign (wf_db acc) = Some c0)
        as [c0 Hc0] by (simpl; unfold init_campaign; rewrite Hc; simpl; eauto).
      destruct (run_batches_spec env run (batches_of (BATCH_SIZE run) contacts) 0 acc c0
                  eq_refl Hc0) as (k & c' & _ & _ & _ & _ & Hsub & _).
      cbn [wf_metaCalls app] in Hsub.
      assert (concat (batches_of (BATCH_SIZE run) contacts) = contacts) as Hcat
        by (apply slices_concat; [apply BATCH_SIZE_bounds|done]).
      rewrite Hcat in Hsub.
      by destruct (wf_end (run_batches env run 0 _ acc)).
    - unfold workflow. rewrite Hm. apply submseteq_nil_l. }
  split; [done|]. intros Hnd. by eapply submseteq_NoDup_l.
Qed.

Lemma workflow_at_most_one_request_per_entry_witness :
  campaign Sample.db = Some Sample.camp
  /\ wf_metaCalls (workflow Sample.env Sample.run Sample.batch Sample.db) ⊆+ Sample.batch
  /\ (NoDup Sample.batch ->
      NoDup (wf_metaCalls (workflow Sample.env Sample.run Sample.batch Sample.db))).
Proof.
  assert (campaign Sample.db = Some Sample.camp) as Hc by reflexivity.
  split; [exact Hc|].
  exact (workflow_at_most_one_request_per_entry Sample.env Sample.run Sample.batch
           Sample.db Sample.camp Hc).
Defined.

(** A run that completes leaves the campaign in a terminal status with its
    completion time stamped: failed exactly when failed plus skipped equals
    the positive number of recipients, completed otherwise.  The number of
    recipients is the one it started with, a start time that was already set
    is kept, no counter went down, and the sent counter grew by no more than
    the number of requests of the run. *)
Theorem workflow_completes_campaign
    (env : Collab) (run : Run) (contacts : list Contact) (db : Db) (c : Campaign) :
  missingContactIds contacts = [] ->
  campaign db = Some c ->
  let w := workflow env run contacts db in
  wf_end w = WfDone ->
  exists c',
    campaign (wf_db w) = Some c'
    /\ (status c' = COMPLETED \/ status c' = FAILED)
    /\ (status c' = FAILED <->
        (c_failed c' + c_skipped c' = recipients c' /\ recipients c' > 0)%Z)
    /\ completedAt c' = Some (now_iso env)
    /\ recipients c' = recipients c
    /\ startedAt c' = or_else (startedAt c) (Some (now_iso env))
    /\ (c_sent c <= c_sent c')%Z /\ (c_failed c <= c_failed c')%Z
    /\ (c_skipped c <= c_skipped c')%Z
    /\ (c_sent c' - c_sent c <= Z.of_nat (length (wf_metaCalls w)))%Z.
Proof.
  intros Hm Hc w. subst w. rewrite workflow_unfold by done. cbv zeta.
  set (acc := mkWorkflowRun WfDone (init_campaign env db) [InitCampaign] []).
  assert (campaign (wf_db acc)
          = Some (mkCampaign SENDING (recipients c) (c_sent c) (c_failed c)
                    (c_skipped c) (or_else (startedAt c) (Some (now_iso env)))
                    (firstDispatchAt c) (lastSentAt c) None)) as Hc0
    by (simpl; unfold init_campaign; by rewrite Hc).
  destruct (run_batches_spec env run (batches_of (BATCH_SIZE run) contacts) 0 acc _
              eq_refl Hc0) as (k & c1 & _ & _ & _ & _ & _ & Hc1 & Hg & Hs).
  destruct (wf_end (run_batches env run 0 _ acc)) as [|e] eqn:He;
    [|rewrite He; by intros [=]].
  intros _. cbn [wf_db wf_metaCalls]. unfold complete_campaign. rewrite Hc1.
  eexists. split; [reflexivity|]. unfold finalStatus.
  destruct Hg as (Hr & Hst & Hsa & Hca & H1 & H2 & H3). simpl in *.
  split; [destruct (_ && _); auto|]. split.
  - destruct (bool_decide (c_failed c1 + c_skipped c1 = recipients c1)%Z) eqn:Hb1;
      destruct (bool_decide (recipients c1 > 0)%Z) eqn:Hb2; simpl;
      try apply bool_decide_eq_true in Hb1; try apply bool_decide_eq_true in Hb2;
      try apply bool_decide_eq_false in Hb1; try apply bool_decide_eq_false in Hb2;
      intuition congruence.
  - repeat split; auto; lia.
Qed.

Lemma workflow_completes_campaign_witness :
  let w := workflow Sample.env Sample.run Sample.batch Sample.db in
  missingContactIds Sample.batch = []
  /\ campaign Sample.db = Some Sample.camp
  /\ wf_end w = WfDone
  /\ exists c',
    campaign (wf_db w) = Some c'
    /\ (status c' = COMPLETED \/ status c' = FAILED)
    /\ (status c' = FAILED <->
        (c_failed c' + c_skipped c' = recipients c' /\ recipients c' > 0)%Z)
    /\ completedAt c' = Some (now_iso Sample.env)
    /\ recipients c' = recipients Sample.camp
    /\ startedAt c' = or_else (startedAt Sample.camp) (Some (now_iso Sample.env))
    /\ (c_sent Sample.camp <= c_sent c')%Z /\ (c_failed Sample.camp <= c_failed c')%Z
    /\ (c_skipped Sample.camp <= c_skipped c')%Z
    /\ (c_sent c' - c_sent Sample.camp <= Z.of_nat (length (wf_metaCalls w)))%Z.
Proof.
  intros w.
  assert (missingContactIds Sample.batch = []) as Hm by reflexivity.
  assert (campaign Sample.db = Some Sample.camp) as Hc by reflexivity.
  assert (wf_end w = WfDone) as Hd by (vm_compute; reflexivity).
  split; [exact Hm|]. split; [exact Hc|]. split; [exact Hd|].
  exact (workflow_completes_campaign Sample.env Sample.run Sample.batch Sample.db
           Sample.camp Hm Hc Hd).
Defined.

(** ** Workflow trace *)

Section TraceFacts.
Import Trace.

Lemma append_assoc (a b c : string) : (a +:+ b) +:+ c = a +:+ (b +:+ c).
Proof.
  induction a as [|x a IH]; [done|].
  change (String x ((a +:+ b) +:+ c) = String x (a +:+ b +:+ c)). by f_equal.
Qed.

Lemma append_nil_r (a : string) : a +:+ EmptyString = a.
Proof.
  induction a as [|x a IH]; [done|].
  change (String x (a +:+ EmptyString) = String x a). by f_equal.
Qed.

Lemma rev_onto_app s acc : Js.rev_onto s acc = Js.rev s +:+ acc.
Proof.
  unfold Js.rev. revert acc. induction s as [|a s IH]; intros acc; simpl; [done|].
  rewrite (IH (String a acc)), (IH (String a EmptyString)).
  by rewrite append_assoc.
Qed.

Lemma rev_append a b : Js.rev (a +:+ b) = Js.rev b +:+ Js.rev a.
Proof.
  induction a as [|x a IH]; simpl.
  - unfold Js.rev at 2. simpl. by rewrite append_nil_r.
  - unfold Js.rev at 1 3. simpl. rewrite !rev_onto_app, IH.
    by rewrite append_assoc.
Qed.

Lemma rev_rev s : Js.rev (Js.rev s) = s.
Proof.
  induction s as [|a s IH]; [done|].
  unfold Js.rev at 2. simpl. rewrite rev_onto_app, rev_append, IH. done.
Qed.

Lemma length_append a b :
  String.length (a +:+ b) = String.length a + String.length b.
Proof. induction a as [|x a IH]; simpl; auto. Qed.

Lemma length_rev s : String.length (Js.rev s) = String.length s.
Proof.
  induction s as [|a s IH]; [done|].
  unfold Js.rev. simpl. rewrite rev_onto_app, length_append, IH. simpl. lia.
Qed.

Lemma str_take_split n s :
  exists rest, s = str_take n s +:+ rest
               /\ String.length (str_take n s) = Nat.min n (String.length s).
Proof.
  revert s. induction n as [|n IH]; intros s.
  - exists s. by destruct s.
  - destruct s as [|a s]; [by exists EmptyString|].
    destruct (IH s) as (rest & Hs & Hl). exists rest. split.
    + change (String a s = String a (str_take n s +:+ rest)). by f_equal.
    + cbn [str_take String.length]. by rewrite Hl.
Qed.

(** [s.slice(-n)] is the end of [s], [n] characters of it or all of it. *)
Lemma slice_last_suffix n s :
  exists pre, s = pre +:+ slice_last n s
              /\ String.length (slice_last n s) = Nat.min n (String.length s).
Proof.
  unfold slice_last. destruct (str_take_split n (Js.rev s)) as (rest & Hs & Hl).
  exists (Js.rev rest). split.
  - rewrite <- rev_append, <- Hs. by rewrite rev_rev.
  - by rewrite length_rev, Hl, length_rev.
Qed.

Lemma digits_only_append a b :
  digits_only (a +:+ b) = digits_only a +:+ digits_only b.
Proof.
  induction a as [|x a IH]; simpl; [done|]. destruct (is_digit x); simpl; by rewrite IH.
Qed.

Lemma digits_only_length s : String.length (digits_only s) <= String.length s.
Proof. induction s as [|a s IH]; simpl; [lia|]. destruct (is_digit a); simpl; lia. Qed.

Lemma digits_only_fixed s :
  String.length (digits_only s) = String.length s -> digits_only s = s.
Proof.
  induction s as [|a s IH]; simpl; [done|]. destruct (is_digit a); simpl.
  - intros [= Hl]. by rewrite IH.
  - pose proof (digits_only_length s). lia.
Qed.

Lemma digits_only_idem s : digits_only (digits_only s) = digits_only s.
Proof.
  induction s as [|a s IH]; simpl; [done|]. destruct (is_digit a) eqn:Ha; simpl;
    by rewrite ?Ha, IH.
Qed.

Lemma digits_suffix pre d s :
  digits_only s = pre +:+ d -> digits_only d = d.
Proof.
  intros Hs. apply digits_only_fixed.
  pose proof (digits_only_idem s) as Hi. rewrite Hs, digits_only_append in Hi.
  apply (f_equal String.length) in Hi. rewrite !length_append in Hi.
  pose proof (digits_only_length pre). pose proof (digits_only_length d). lia.
Qed.

(** A masked phone shows three asterisks and at most the last four digits
    of the number: nothing for an empty or blank phone, and never a
    character that is not a digit of the number. *)
Theorem maskPhone_shows_last_four_digits (phone : option string) :
  let p := trim (default EmptyString (or_null phone)) in
  (str_empty p = true /\ maskPhone phone = EmptyString)
  \/ (str_empty p = false
      /\ exists pre d,
           digits_only p = pre +:+ d
           /\ maskPhone phone = "***" +:+ d
           /\ String.length d = Nat.min 4 (String.length (digits_only p))
           /\ digits_only d = d).
Proof.
  intros p. unfold maskPhone. fold p. destruct (str_empty p) eqn:Hp; [by left|].
  right. split; [done|].
  destruct (slice_last_suffix 4 (digits_only p)) as (pre & Hs & Hl).
  exists pre, (slice_last 4 (digits_only p)). split; [done|]. split.
  - by destruct (slice_last 4 (digits_only p)).
  - split; [done|]. by eapply digits_suffix.
Qed.

(** White space of several bytes is trimmed as JavaScript trims it: a phone
    made of it is blank, and around a number it is dropped; a character
    that is no white space for [trim] is kept, and the phone is masked. *)
Example maskPhone_unicode_blank :
  maskPhone (Some (Sample.em_space +:+ Sample.bom +:+ Sample.nbsp)) = EmptyString
  /\ trim (Sample.nbsp +:+ "+55 11 99999-0001" +:+ Sample.em_space)
     = "+55 11 99999-0001"
  /\ maskPhone (Some (Sample.nbsp +:+ "+55 11 99999-0001" +:+ Sample.em_space))
     = "***0001"
  /\ trim Sample.zwsp = Sample.zwsp
  /\ maskPhone (Some Sample.zwsp) = "***".
Proof. repeat split. Qed.

(** [emitWorkflowTrace] throws in one case only, an event that
    [JSON.stringify] rejects: it then throws that [TypeError] before
    anything is written.  For every other event it returns, whichever call
    of the Redis client throws: the event is on the console, at most one
    warning is logged, and when the store is off or not configured Redis is
    not touched. *)
Theorem emitWorkflowTrace_throws_only_unserializable
    (cfg : Setup) (ev : Event) (s : Sink) :
  (ev_serializable ev = true ->
   exists s',
     emitWorkflowTrace cfg ev s = (Returns (), s')
     /\ console s' = console s ++ [ev]
     /\ (redis_configured cfg = false \/ WORKFLOW_TRACE_STORE cfg <> Some "1" ->
         redis_lists s' = redis_lists s /\ redis_ttl s' = redis_ttl s
         /\ warnings s' = warnings s)
     /\ (warnings s' = warnings s \/ warnings s' = S (warnings s)))
  /\ (ev_serializable ev = false ->
      emitWorkflowTrace cfg ev s = (Throws (TError (stringify_error cfg)), s)).
Proof.
  unfold emitWorkflowTrace, bind, json_stringify, console_log, try_catch,
    redis_call, ret, console_warn.
  split; intros Hser; rewrite Hser; [|done].
  destruct (redis_configured cfg) eqn:Hc; simpl.
  - case_bool_decide as Hs; simpl.
    + destruct (lpush_throws cfg), (ltrim_throws cfg), (expire_throws cfg); simpl;
        eexists; (split; [reflexivity|]); simpl; (split; [done|]);
        (split; [intros [?|?]; done|]); auto.
    + eexists. split; [reflexivity|]. simpl. auto.
  - eexists. split; [reflexivity|]. simpl. auto.
Qed.

Lemma emit_stored cfg ev s :
  ev_serializable ev = true ->
  redis_configured cfg = true -> WORKFLOW_TRACE_STORE cfg = Some "1" ->
  lpush_throws cfg = false -> ltrim_throws cfg = false -> expire_throws cfg = false ->
  let key := "trace:" +:+ ev_traceId ev in
  let s' := (emitWorkflowTrace cfg ev s).2 in
  redis_lists s'
  = <[key := take TRACE_REDIS_MAX_EVENTS (ev :: default [] (redis_lists s !! key))]>
      (redis_lists s)
  /\ redis_ttl s' = <[key := TRACE_REDIS_TTL_SECONDS]> (redis_ttl s)
  /\ console s' = console s ++ [ev].
Proof.
  intros Hser Hc Hs H1 H2 H3 key s'. subst s'.
  unfold emitWorkflowTrace, bind, json_stringify, console_log, try_catch,
    redis_call, ret.
  rewrite Hser, Hc, Hs, H1, H2, H3. simpl. fold key.
  split; [|split; [|done]].
  - apply map_eq. intros k. destruct (decide (k = key)) as [->|Hne].
    + by rewrite lookup_alter_eq, !lookup_insert_eq.
    + by rewrite lookup_alter_ne, !lookup_insert_ne.
  - by rewrite lookup_alter_eq, lookup_insert_eq.
Qed.

Lemma emit_rejected cfg ev s :
  ev_serializable ev = false ->
  emitWorkflowTrace cfg ev s = (Throws (TError (stringify_error cfg)), s).
Proof.
  intros Hser. unfold emitWorkflowTrace, bind, json_stringify. by rewrite Hser.
Qed.

Lemma take_app_take {A} n m (a b : list A) :
  n <= m -> take n (a ++ take m b) = take n (a ++ b).
Proof.
  revert n. induction a as [|x a IH]; intros n Hn; simpl.
  - rewrite take_take. f_equal. lia.
  - destruct n; simpl; [done|]. rewrite IH by lia. done.
Qed.

Lemma emit_returns cfg ev s :
  ev_serializable ev = true ->
  exists s', emitWorkflowTrace cfg ev s = (Returns (), s')
             /\ console s' = console s ++ [ev].
Proof.
  intros Hser.
  unfold emitWorkflowTrace, bind, json_stringify, console_log, try_catch,
    redis_call, ret, console_warn.
  rewrite Hser.
  destruct (negb (redis_configured cfg) || _); simpl; [by eexists|].
  destruct (lpush_throws cfg), (ltrim_throws cfg), (expire_throws cfg); simpl;
    by eexists.
Qed.

Lemma emit_all_console cfg evs s :
  console (emit_all cfg evs s)
  = console s ++ filter (fun e => ev_serializable e = true) evs.
Proof.
  revert s. induction evs as [|ev evs IH]; intros s; simpl.
  - by rewrite app_nil_r.
  - destruct (ev_serializable ev) eqn:Hser.
    + destruct (emit_returns cfg ev s Hser) as (s' & He & Hc). rewrite He, IH.
      rewrite filter_cons_True by done. simpl. by rewrite Hc, <- app_assoc.
    + rewrite (emit_rejected cfg ev s Hser), IH.
      by rewrite filter_cons_False by congruence.
Qed.

Lemma trace_key_inj a b : "trace:" +:+ a = "trace:" +:+ b -> a = b.
Proof. intros H. by injection H. Qed.

Ltac default_some :=
  repeat match goal with
         | |- context [from_option id ?d (Some ?x)] =>
             change (from_option id d (Some x)) with x
         end.

Lemma emit_all_stored cfg evs s t :
  redis_configured cfg = true -> WORKFLOW_TRACE_STORE cfg = Some "1" ->
  lpush_throws cfg = false -> ltrim_throws cfg = false -> expire_throws cfg = false ->
  let key := "trace:" +:+ t in
  let mine :=
    filter (fun e => ev_traceId e = t /\ ev_serializable e = true) evs in
  length (default [] (redis_lists s !! key)) <= TRACE_REDIS_MAX_EVENTS ->
  default [] (redis_lists (emit_all cfg evs s) !! key)
  = take TRACE_REDIS_MAX_EVENTS (reverse mine ++ default [] (redis_lists s !! key))
  /\ redis_ttl (emit_all cfg evs s) !! key
     = match mine with
       | [] => redis_ttl s !! key
       | _ => Some TRACE_REDIS_TTL_SECONDS
       end.
Proof.
  intros Hc Hs H1 H2 H3 key. revert s. induction evs as [|ev evs IH]; intros s mine Hlen.
  - subst mine. cbn [emit_all]. rewrite filter_nil, reverse_nil, app_nil_l.
    split; [|done]. by rewrite take_ge.
  - cbn [emit_all]. subst mine.
    destruct (ev_serializable ev) eqn:Hser.
    + destruct (emit_stored cfg ev s Hser Hc Hs H1 H2 H3) as (Hl & Ht & _).
      set (s1 := (emitWorkflowTrace cfg ev s).2) in *.
      destruct (decide (ev_traceId ev = t)) as [<-|Hne].
      * rewrite filter_cons_True by done.
        assert (redis_lists s1 !! key
                = Some (take TRACE_REDIS_MAX_EVENTS
                          (ev :: default [] (redis_lists s !! key)))) as Hk
          by (rewrite Hl; apply lookup_insert_eq).
        destruct (IH s1) as (IHl & IHt).
        { rewrite Hk. default_some. rewrite length_take. lia. }
        rewrite IHl, IHt, Hk. default_some. split.
        -- rewrite take_app_take by done. by rewrite reverse_cons, <- app_assoc.
        -- rewrite Ht, lookup_insert_eq. by destruct (filter _ evs).
      * rewrite filter_cons_False by (intros [? _]; done).
        assert ("trace:" +:+ ev_traceId ev <> key) as Hk
          by (intros ?%trace_key_inj; done).
        destruct (IH s1) as (IHl & IHt).
        { rewrite Hl, lookup_insert_ne by done. done. }
        rewrite IHl, IHt, Hl, Ht, !lookup_insert_ne by done. done.
    + rewrite filter_cons_False by (intros [_ ?]; congruence).
      rewrite (emit_rejected cfg ev s Hser). simpl. by apply IH.
Qed.

(** With the store switched on and Redis answering, the list kept for a
    trace id holds the events emitted for it, newest first, cut to the 4000
    newest; the key is given its time to live of two days as soon as one
    event was emitted for it; and the console has every event in the order
    of emission.  An event that [JSON.stringify] rejects is neither stored
    nor logged; a list without such events is stored and logged whole. *)
Theorem trace_store_keeps_newest_events (cfg : Setup) (evs : list Event) (t : string) :
  redis_configured cfg = true -> WORKFLOW_TRACE_STORE cfg = Some "1" ->
  lpush_throws cfg = false -> ltrim_throws cfg = false -> expire_throws cfg = false ->
  let key := "trace:" +:+ t in
  let mine :=
    filter (fun e => ev_traceId e = t /\ ev_serializable e = true) evs in
  let after := emit_all cfg evs sink0 in
  default [] (redis_lists after !! key) = take TRACE_REDIS_MAX_EVENTS (reverse mine)
  /\ length (default [] (redis_lists after !! key)) <= TRACE_REDIS_MAX_EVENTS
  /\ (mine <> [] -> redis_ttl after !! key = Some TRACE_REDIS_TTL_SECONDS)
  /\ console after = filter (fun e => ev_serializable e = true) evs
  /\ (Forall (fun e => ev_serializable e = true) evs ->
      mine = filter (fun e => ev_traceId e = t) evs /\ console after = evs).
Proof.
  intros Hc Hs H1 H2 H3 key mine after.
  destruct (emit_all_stored cfg evs sink0 t Hc Hs H1 H2 H3) as (Hl & Ht).
  { simpl redis_lists. rewrite lookup_empty. apply Nat.le_0_l. }
  fold key mine after in Hl, Ht.
  assert (default [] (redis_lists after !! key)
          = take TRACE_REDIS_MAX_EVENTS (reverse mine)) as Heq.
  { rewrite Hl. simpl redis_lists. rewrite lookup_empty. cbn [default].
    by rewrite app_nil_r. }
  assert (console after = filter (fun e => ev_serializable e = true) evs) as Hcon
    by (subst after; by rewrite emit_all_console).
  split; [exact Heq|]. split; [rewrite Heq, length_take; lia|].
  split; [intros Hm; rewrite Ht; by destruct mine|].
  split; [exact Hcon|].
  intros Hall. split.
  - subst mine. clear -Hall. induction Hall as [|e l He _ IH]; [done|].
    destruct (decide (ev_traceId e = t)) as [Ht|Ht].
    + rewrite !filter_cons_True by done. by rewrite IH.
    + rewrite !filter_cons_False by (try intros [? _]; done). done.
  - rewrite Hcon. clear -Hall. induction Hall as [|e l He _ IH]; [done|].
    rewrite filter_cons_True by done. by rewrite IH.
Qed.

Lemma trace_store_keeps_newest_events_witness :
  let cfg := mkSetup true (Some "1") false false false "cyclic object value" in
  let e1 := mkEvent "wf_a" "batch_start" None None true in
  let e2 := mkEvent "wf_b" "batch_start" None None true in
  let e3 := mkEvent "wf_a" "batch_end" (Some true) None true in
  let evs := [e1; e2; e3] in
  let mine :=
    filter (fun e => ev_traceId e = "wf_a" /\ ev_serializable e = true) evs in
  let after := emit_all cfg evs sink0 in
  redis_configured cfg = true /\ WORKFLOW_TRACE_STORE cfg = Some "1"
  /\ lpush_throws cfg = false /\ ltrim_throws cfg = false /\ expire_throws cfg = false
  /\ default [] (redis_lists after !! "trace:wf_a")
     = take TRACE_REDIS_MAX_EVENTS (reverse mine)
  /\ length (default [] (redis_lists after !! "trace:wf_a")) <= TRACE_REDIS_MAX_EVENTS
  /\ (mine <> [] -> redis_ttl after !! "trace:wf_a" = Some TRACE_REDIS_TTL_SECONDS)
  /\ console after = filter (fun e => ev_serializable e = true) evs
  /\ (Forall (fun e => ev_serializable e = true) evs ->
      mine = filter (fun e => ev_traceId e = "wf_a") evs /\ console after = evs).
Proof.
  intros cfg e1 e2 e3 evs mine after.
  do 5 (split; [reflexivity|]).
  exact (trace_store_keeps_newest_events cfg evs "wf_a"
           eq_refl eq_refl eq_refl eq_refl eq_refl).
Defined.

(** [timePhase] passes on what the timed function does, with one event of
    the phase on the console in every case.  If the function throws,
    [timePhase] throws the same value after an event with [ok: false] and
    the error text.  If it returns and [meta] can be serialised,
    [timePhase] returns the same result after an event with [ok: true].
    If it returns and [JSON.stringify] rejects the [extra] of [meta], the
    emit inside the [try] throws: [timePhase] then throws that [TypeError]
    although the function returned, after an event with [ok: false]. *)
Theorem timePhase_passes_result_on {A} (cfg : Setup) (phase : string) (meta : Event)
    (fn : Prog A) (s : Sink) :
  match fn s with
  | (Throws err, s1) =>
      exists s2,
        timePhase cfg phase meta fn s = (Throws err, s2)
        /\ console s2 = console s1 ++ [phase_failed phase meta err]
  | (Returns a, s1) =>
      if ev_serializable meta
      then exists s2,
             timePhase cfg phase meta fn s = (Returns a, s2)
             /\ console s2 = console s1 ++ [phase_ok phase meta]
      else exists s2,
             timePhase cfg phase meta fn s
             = (Throws (TError (stringify_error cfg)), s2)
             /\ console s2
                = console s1
                  ++ [phase_failed phase meta (TError (stringify_error cfg))]
  end.
Proof.
  unfold timePhase, try_catch, bind, ret.
  destruct (fn s) as [[a|err] s1].
  - destruct (ev_serializable meta) eqn:Hser.
    + destruct (emit_returns cfg (phase_ok phase meta) s1 Hser) as (s2 & -> & Hc).
      by exists s2.
    + rewrite (emit_rejected cfg (phase_ok phase meta) s1 Hser).
      destruct (emit_returns cfg
                  (phase_failed phase meta (TError (stringify_error cfg))) s1 eq_refl)
        as (s2 & -> & Hc).
      by exists s2.
  - destruct (emit_returns cfg (phase_failed phase meta err) s1 eq_refl)
      as (s2 & -> & Hc).
    by exists s2.
Qed.

End TraceFacts.

(** ** The fallback and the bulk write on a row without an earlier outcome *)

Lemma assign_all_guarded gl (base : Row) k :
  assign_all (guarded_assign <$> gl) base !! k
  = match last_guarded k gl with Some v => Some v | None => base !! k end.
Proof.
  revert base. induction gl as [|[[b k'] v] gl IH]; intros base; [done|].
  change (assign_all (guarded_assign <$> (b, k', v) :: gl) base)
    with (assign_all (guarded_assign <$> gl)
            (match assign_if b k' v with
             | Some (k'', v') => <[k'' := v']> base
             | None => base
             end)).
  rewrite IH. cbn [last_guarded]. destruct (last_guarded k gl); [done|].
  destruct (String.eqb_spec k' k) as [->|Hne]; destruct b; simpl; try done.
  - apply lookup_insert_eq.
  - by apply lookup_insert_ne.
Qed.

Lemma col_apply_update (u old : Row) k :
  col (apply_update u old) k
  = match u !! k with Some v => v | None => col old k end.
Proof.
  unfold col, apply_update. rewrite lookup_union.
  destruct (u !! k), (old !! k); done.
Qed.

Ltac reify_assigns l :=
  lazymatch l with
  | @nil _ => constr:(@nil (bool * string * JsVal))
  | assign ?k ?v :: ?l' =>
      let r := reify_assigns l' in constr:((true, k, v) :: r)
  | assign_if ?b ?k ?v :: ?l' =>
      let r := reify_assigns l' in constr:((b, k, v) :: r)
  end.

Ltac column_value :=
  rewrite !col_apply_update;
  repeat match goal with
         | |- context [assign_all ?l ?base !! ?k] =>
             let r := reify_assigns l in
             let v := eval lazy [last_guarded String.eqb Ascii.eqb Bool.eqb andb]
                        in (last_guarded k r) in
             change (assign_all l base !! k)
               with (assign_all (guarded_assign <$> r) base !! k);
             rewrite (assign_all_guarded r base k);
             change (last_guarded k r) with v; cbv beta iota
         end;
  repeat match goal with
         | |- context [if ?b then _ else _] => destruct b; cbv beta iota
         end;
  rewrite ?lookup_empty;
  first [reflexivity | assumption | symmetry; assumption].

(** On a row that carries no earlier outcome, the update of one row by
    [updateContactStatus] and the bulk upsert write the same status and the
    same outcome columns: the fallback differs from the bulk write only by
    what it leaves of an earlier outcome. *)
Theorem fallback_agrees_with_bulk_on_fresh_row
    (env : Collab) (camp : string) (op : PendingWriteOp) (old : Row) :
  Forall (fun k => col old k = JNull) outcome_columns ->
  Forall (fun k =>
            col (apply_update (status_update env (wo_status op) (wo_opts op)) old) k
            = col (apply_update (upsert_row env camp op) old) k)
         ("status" :: outcome_columns).
Proof.
  intros Hold. unfold outcome_columns in *.
  repeat match goal with
         | H : Forall _ (_ :: _) |- _ => apply Forall_cons in H as [? H]
         end.
  clear Hold. unfold status_update, upsert_row.
  destruct (wo_status op); cbv zeta;
    repeat (first [rewrite decide_True by done | rewrite decide_False by done]).
  - repeat (constructor; [column_value|]). constructor.
  - repeat (constructor; [column_value|]). constructor.
  - repeat (constructor; [column_value|]). constructor.
Qed.

Lemma fallback_agrees_with_bulk_on_fresh_row_witness :
  let old : Row := {[ "status" := JStr "sending" ]} in
  let op := failed_op Sample.env Sample.bia
                      (mkBody [] (Some (mkMetaError (JNum 131026) JUndefined
                         (JStr "Message undeliverable") JUndefined JUndefined
                         JUndefined JUndefined JUndefined JUndefined))) in
  Forall (fun k => col old k = JNull) outcome_columns
  /\ Forall (fun k =>
               col (apply_update (status_update Sample.env (wo_status op) (wo_opts op))
                                 old) k
               = col (apply_update (upsert_row Sample.env "camp-1" op) old) k)
            ("status" :: outcome_columns).
Proof.
  intros old op.
  assert (Forall (fun k => col old k = JNull) outcome_columns) as Hold
    by (repeat constructor).
  split; [exact Hold|].
  exact (fallback_agrees_with_bulk_on_fresh_row Sample.env "camp-1" op old Hold).
Defined.
